(** * Ram Knight: the simulation engine of [main.py]

    A shallow embedding of the level engine: the grid accessors, the
    validator, the status scan, the laser propagation and the movement
    loop, followed by the properties established about them.

    A level state is the Python list of rows, each row a list of
    one-character strings; it is modelled as [list (list ascii)].  Row and
    column numbers are Python integers ([Z]): [next_pos] may leave the grid
    on either side and [in_bounds] is the test that brings them back.
    In-place mutation is modelled by passing the state through every
    operation.  Exceptions are a constructor of the result type. *)

From Stdlib Require Import ZArith Ascii String Lia Bool.
From stdpp Require Import base tactics option functions list sorting.

Local Open Scope char_scope.
Local Open Scope Z_scope.

(** ** Results of a call *)

(** [IndexError] and [TypeError] are Python's.  [NegativeIndex] marks the
    one place where the model refuses to follow Python: a negative
    subscript, which Python would wrap around to the end of the list.  The
    engine never produces one (lemmas [move_no_negative_index] and
    [update_lasers_no_negative_index] below), so the refusal is never
    observed. *)
Inductive exn : Type :=
  | IndexError
  | TypeError
  | NegativeIndex.

(** [OutOfFuel] is the answer of a [while True] loop whose iteration
    budget is spent; it is shown unreachable for the budgets used. *)
Inductive result (A : Type) : Type :=
  | Ok (a : A)
  | Raise (e : exn)
  | OutOfFuel.

Arguments Ok {A} a.
Arguments Raise {A} e.
Arguments OutOfFuel {A}.

#[global] Instance result_ret : MRet result := fun A a => Ok a.
#[global] Instance result_bind : MBind result := fun A B f m =>
  match m with
  | Ok a => f a
  | Raise e => Raise e
  | OutOfFuel => OutOfFuel
  end.

(** ** Tiles, grids and statuses *)

Abbreviation tile := ascii (only parsing).
Abbreviation grid := (list (list ascii)) (only parsing).

(** The exit codes [_victory], [_invalid], [_unfinished], [_defeated]. *)
Inductive status : Type :=
  | _victory
  | _invalid
  | _unfinished
  | _defeated.

Definition exit_code (e : status) : Z :=
  match e with
  | _victory => 0
  | _invalid => 1
  | _unfinished => 2
  | _defeated => 3
  end.

#[global] Instance status_eq_dec : EqDecision status.
Proof. solve_decision. Defined.

Definition _valid_chars : string := "G@YFMm_. xoWwv^<>|+-".

(** [c in t] for a one-character [c]. *)
Fixpoint char_in (c : ascii) (t : string) : bool :=
  match t with
  | EmptyString => false
  | String a t' => Ascii.eqb c a || char_in c t'
  end.

(** ** Grid accessors *)

(** [l[i]] for [0 <= i]. *)
Definition subscript {A : Type} (l : list A) (i : Z) : result A :=
  if i <? 0 then Raise NegativeIndex
  else match l !! Z.to_nat i with
       | Some a => Ok a
       | None => Raise IndexError
       end.

Fixpoint find_in_row (i j : Z) (l : list tile) (x : tile) : list (Z * Z) :=
  match l with
  | [] => []
  | c :: l' =>
      (if Ascii.eqb c x then [(i, j)] else []) ++ find_in_row i (j + 1) l' x
  end.

Fixpoint find_from (i : Z) (s : grid) (x : tile) : list (Z * Z) :=
  match s with
  | [] => []
  | l :: s' => find_in_row i 0 l x ++ find_from (i + 1) s' x
  end.

Definition find_pos (s : grid) (x : tile) : list (Z * Z) := find_from 0 s x.

Definition at_pos (s : grid) (i j : Z) : result tile :=
  l ← subscript s i; subscript l j.

Definition set_at_pos (s : grid) (i j : Z) (c : tile) : result grid :=
  l ← subscript s i;
  _ ← subscript l j;
  Ok (<[Z.to_nat i := <[Z.to_nat j := c]> l]> s).

Definition bounds (s : grid) : result (Z * Z) :=
  l ← subscript s 0;
  Ok (Z.of_nat (length s), Z.of_nat (length l)).

Definition next_pos (row col : Z) (dir : ascii) : option (Z * Z) :=
  if Ascii.eqb dir "h" then Some (row, col - 1)
  else if Ascii.eqb dir "l" then Some (row, col + 1)
  else if Ascii.eqb dir "k" then Some (row - 1, col)
  else if Ascii.eqb dir "j" then Some (row + 1, col)
  else None.

(** [a, b = e]: unpacking [None] raises [TypeError]. *)
Definition unpack {A : Type} (o : option A) : result A :=
  match o with
  | Some a => Ok a
  | None => Raise TypeError
  end.

Definition in_bounds (height width row col : Z) : bool :=
  (0 <=? row) && (0 <=? col) && (row <? height) && (col <? width).

(** ** Validation *)

(** What [validate_state] hands to [eprint], with the numbers it formats. *)
Inductive message : Type :=
  | MsgLineLength (i : nat) (l length0 : nat)
  | MsgSameLength
  | MsgInvalidChar (c : tile) (i j : nat)
  | MsgAllChars
  | MsgNoFinish
  | MsgAtLeastOne
  | MsgGoatCount (n : nat)
  | MsgExactlyOne.

Fixpoint first_unequal (i : nat) (length0 : nat) (s : grid) : option (nat * nat) :=
  match s with
  | [] => None
  | l :: s' =>
      if Nat.eqb (length l) length0 then first_unequal (S i) length0 s'
      else Some (i, length l)
  end.

Record counters : Type := Counters {
  invalid : bool;
  goat_count : nat;
  victory : bool;
  defeated : bool;
  finish_count : nat;
  errors : list message
}.

Definition count_tile (i j : nat) (c : tile) (k : counters) : counters :=
  let k :=
    if negb (char_in c _valid_chars)
    then Counters true (goat_count k) (victory k) (defeated k) (finish_count k)
           (errors k ++ [MsgInvalidChar c i j; MsgAllChars])
    else k in
  if char_in c "G"
  then Counters (invalid k) (S (goat_count k)) (victory k) (defeated k)
         (finish_count k) (errors k)
  else if char_in c "Y"
  then Counters (invalid k) (S (goat_count k)) (victory k) true
         (finish_count k) (errors k)
  else if char_in c "@"
  then Counters (invalid k) (S (goat_count k)) true (defeated k)
         (finish_count k) (errors k)
  else if char_in c "F"
  then Counters (invalid k) (goat_count k) (victory k) (defeated k)
         (S (finish_count k)) (errors k)
  else k.

Fixpoint count_row (i j : nat) (l : list tile) (k : counters) : counters :=
  match l with
  | [] => k
  | c :: l' => count_row i (S j) l' (count_tile i j c k)
  end.

Fixpoint count_rows (i : nat) (s : grid) (k : counters) : counters :=
  match s with
  | [] => k
  | l :: s' => count_rows (S i) s' (count_row i 0 l k)
  end.

Definition validate_state (s : grid) : result (status * list message) :=
  l0 ← subscript s 0;
  let length0 := length l0 in
  match first_unequal 0 length0 s with
  | Some (i, l) => Ok (_invalid, [MsgLineLength i l length0; MsgSameLength])
  | None =>
      let k := count_rows 0 s (Counters false 0 false false 0 []) in
      if invalid k then Ok (_invalid, errors k)
      else if Nat.eqb (finish_count k) 0
      then Ok (_invalid, errors k ++ [MsgNoFinish; MsgAtLeastOne])
      else if negb (Nat.eqb (goat_count k) 1)
      then Ok (_invalid, errors k ++ [MsgGoatCount (goat_count k); MsgExactlyOne])
      else if victory k then Ok (_victory, errors k)
      else if defeated k then Ok (_defeated, errors k)
      else Ok (_unfinished, errors k)
  end.

(** ** Status scan *)

Fixpoint scan_row (l : list tile) : option status :=
  match l with
  | [] => None
  | c :: l' =>
      if char_in c "Y" then Some _defeated
      else if char_in c "@" then Some _victory
      else scan_row l'
  end.

Fixpoint scan_rows (s : grid) : option status :=
  match s with
  | [] => None
  | l :: s' =>
      match scan_row l with
      | Some e => Some e
      | None => scan_rows s'
      end
  end.

Definition determine_new_state (s : grid) : status :=
  default _unfinished (scan_rows s).

(** ** Laser propagation *)

Fixpoint clear_at (s : grid) (ps : list (Z * Z)) : result grid :=
  match ps with
  | [] => Ok s
  | (row, col) :: ps' => s' ← set_at_pos s row col " "; clear_at s' ps'
  end.

Definition clear_beams (s : grid) : result grid :=
  s ← clear_at s (find_pos s "|");
  s ← clear_at s (find_pos s "-");
  clear_at s (find_pos s "+").

Abbreviation laser := (Z * Z * ascii)%type (only parsing).

Definition collect_lasers (s : grid) : list laser :=
  map (fun p => (p, "h")) (find_pos s "<")
  ++ map (fun p => (p, "l")) (find_pos s ">")
  ++ map (fun p => (p, "k")) (find_pos s "^")
  ++ map (fun p => (p, "j")) (find_pos s "v").

(** The inner [while True] of [update_lasers], entered at the tile the
    beam is about to reach. *)
Fixpoint trace_loop (fuel : nat) (height width : Z) (s : grid)
    (next_row next_col : Z) (dir : ascii) : result grid :=
  match fuel with
  | O => OutOfFuel
  | S fuel' =>
      if negb (in_bounds height width next_row next_col) then Ok s
      else
        c ← at_pos s next_row next_col;
        if char_in c "-" && char_in dir "jk" then
          s ← set_at_pos s next_row next_col "+";
          '(next_row, next_col) ← unpack (next_pos next_row next_col dir);
          trace_loop fuel' height width s next_row next_col dir
        else if char_in c "|" && char_in dir "hl" then
          s ← set_at_pos s next_row next_col "+";
          '(next_row, next_col) ← unpack (next_pos next_row next_col dir);
          trace_loop fuel' height width s next_row next_col dir
        else if Ascii.eqb c "G" then
          set_at_pos s next_row next_col "Y"
        else if char_in c "FmMwWY<>^v" then Ok s
        else
          s ← (if char_in dir "hl" then set_at_pos s next_row next_col "-"
               else if char_in dir "jk" then set_at_pos s next_row next_col "|"
               else Ok s);
          '(next_row, next_col) ← unpack (next_pos next_row next_col dir);
          trace_loop fuel' height width s next_row next_col dir
  end.

(** Iterations granted to a walk across a grid of the given bounds. *)
Definition walk_fuel (height width : Z) : nat :=
  S (S (Z.to_nat (height + width))).

Definition trace_laser (height width : Z) (s : grid) (e : laser) : result grid :=
  let '(laser_row, laser_col, dir) := e in
  '(next_row, next_col) ← unpack (next_pos laser_row laser_col dir);
  trace_loop (walk_fuel height width) height width s next_row next_col dir.

Fixpoint trace_all (height width : Z) (s : grid) (lasers : list laser)
    : result grid :=
  match lasers with
  | [] => Ok s
  | e :: lasers' =>
      s' ← trace_laser height width s e; trace_all height width s' lasers'
  end.

Definition update_lasers (s : grid) : result grid :=
  s ← clear_beams s;
  '(height, width) ← bounds s;
  trace_all height width s (collect_lasers s).

(** ** Movement *)

(** The inner [while True] of the sliding-weight branch; [(row, col)] is
    the weight. *)
Fixpoint slide_loop (fuel : nat) (height width : Z) (s : grid)
    (row col : Z) (dir : ascii) : result grid :=
  match fuel with
  | O => OutOfFuel
  | S fuel' =>
      '(next_row, next_col) ← unpack (next_pos row col dir);
      if negb (in_bounds height width next_row next_col) then Ok s
      else
        nc ← at_pos s next_row next_col;
        if char_in nc " _.x|-+" then
          s ← set_at_pos s row col " ";
          s ← set_at_pos s next_row next_col "w";
          slide_loop fuel' height width s next_row next_col dir
        else if char_in nc "o" then
          s ← set_at_pos s row col " ";
          set_at_pos s next_row next_col "_"
        else Ok s
  end.

(** The outer [while True] of [move]; [(row, col)] is the ram. *)
Fixpoint move_loop (fuel : nat) (height width : Z) (s : grid)
    (row col : Z) (dir : ascii) : result (grid * status) :=
  match fuel with
  | O => OutOfFuel
  | S fuel' =>
      '(next_row, next_col) ← unpack (next_pos row col dir);
      if negb (in_bounds height width next_row next_col)
      then Ok (s, _unfinished)
      else
        c ← at_pos s next_row next_col;
        if char_in c " _." then
          s ← set_at_pos s next_row next_col "G";
          s ← set_at_pos s row col ".";
          let _ := determine_new_state s in
          move_loop fuel' height width s next_row next_col dir
        else if char_in c "M" then
          s ← set_at_pos s next_row next_col "m"; Ok (s, _unfinished)
        else if char_in c "m" then
          s ← set_at_pos s next_row next_col "_"; Ok (s, _unfinished)
        else if char_in c "v^<>" then
          s ← set_at_pos s next_row next_col "_"; Ok (s, _unfinished)
        else if char_in c "F" then
          s ← set_at_pos s row col "@"; Ok (s, _victory)
        else if char_in c "x|-" then
          s ← set_at_pos s row col "Y"; Ok (s, _defeated)
        else if char_in c "o" then
          s ← set_at_pos s next_row next_col "G";
          s ← set_at_pos s row col ".";
          Ok (s, _unfinished)
        else if char_in c "W" then
          '(over_row, over_col) ← unpack (next_pos next_row next_col dir);
          if negb (in_bounds height width over_row over_col)
          then Ok (s, _unfinished)
          else
            nc ← at_pos s over_row over_col;
            s ← (if char_in nc " _.x|-+" then
                   s ← set_at_pos s over_row over_col "W";
                   s ← set_at_pos s next_row next_col "G";
                   set_at_pos s row col "."
                 else if char_in nc "o" then
                   s ← set_at_pos s over_row over_col "_";
                   s ← set_at_pos s next_row next_col "G";
                   set_at_pos s row col "."
                 else Ok s);
            Ok (s, determine_new_state s)
        else if char_in c "w" then
          s ← slide_loop (walk_fuel height width) height width s
                next_row next_col dir;
          Ok (s, _unfinished)
        else Ok (s, _invalid)
  end.

Definition move (s : grid) (dir : ascii) : result (grid * status) :=
  '(height, width) ← bounds s;
  match find_pos s "G" with
  | [] =>
      match find_pos s "@" with
      | _ :: _ => Ok (s, _victory)
      | [] =>
          match find_pos s "Y" with
          | _ :: _ => Ok (s, _defeated)
          | [] => Ok (s, _invalid)
          end
      end
  | (row, col) :: _ => move_loop (walk_fuel height width) height width s row col dir
  end.

(** ** The non-interactive loop of the main program *)

Definition whitespace : string :=
  String " " (String "009" (String "010" EmptyString)).

(** [for dir in instr: ...] followed by the exit code; a symbol outside
    [hjkl] exits with [_invalid] before [move] is called. *)
Fixpoint run_instr (s : grid) (instr : string) (e_code : status)
    : result (grid * status) :=
  match instr with
  | EmptyString => Ok (s, e_code)
  | String dir instr' =>
      if char_in dir whitespace then run_instr s instr' e_code
      else if negb (char_in dir "hjkl") then Ok (s, _invalid)
      else
        '(s, e_code) ← move s dir;
        if decide (e_code ≠ _unfinished) then Ok (s, e_code)
        else run_instr s instr' e_code
  end.

(** The moves of [dirs] one after the other, none skipped, as a caller
    that does not stop on a final status applies them. *)
Fixpoint moves (s : grid) (dirs : list ascii) (e_code : status)
    : result (grid * status) :=
  match dirs with
  | [] => Ok (s, e_code)
  | d :: dirs' => '(s, e_code) ← move s d; moves s dirs' e_code
  end.


(** ** Loading and saving a level *)

Definition newline : ascii := "010".

(** The lines that iterating over a text file yields, for the text the
    file object delivers (line ends already translated to the newline
    character): every line keeps its newline, and a last line without one
    is yielded if it is not empty.  [cur] is the line being read. *)
Fixpoint file_lines (cur : list ascii) (text : list ascii)
    : list (list ascii) :=
  match text with
  | [] => match cur with [] => [] | _ :: _ => [cur] end
  | c :: text' =>
      if Ascii.eqb c newline then (cur ++ [c]) :: file_lines [] text'
      else file_lines (cur ++ [c]) text'
  end.

(** [l.replace] of the newline by nothing. *)
Fixpoint strip_newlines (l : list ascii) : list ascii :=
  match l with
  | [] => []
  | c :: l' =>
      if Ascii.eqb c newline then strip_newlines l' else c :: strip_newlines l'
  end.

(** [l and not l.startswith(...)]: not empty and no comment. *)
Definition kept (l : list ascii) : bool :=
  match l with
  | [] => false
  | c :: _ => negb (Ascii.eqb c "#")
  end.

Fixpoint rows_of_lines (lines : list (list ascii)) : grid :=
  match lines with
  | [] => []
  | l :: lines' =>
      if kept l then strip_newlines l :: rows_of_lines lines'
      else rows_of_lines lines'
  end.

(** [load_file], on the text of the file. *)
Definition load_file (text : list ascii) : result grid :=
  update_lasers (rows_of_lines (file_lines [] text)).

(** The rows joined by newlines. *)
Fixpoint to_str (s : grid) : list ascii :=
  match s with
  | [] => []
  | l :: s' =>
      match s' with
      | [] => l
      | _ :: _ => l ++ newline :: to_str s'
      end
  end.

(** ** Text files

    [open(f, "w")] and [open(f, "r")] translate line ends: a newline
    written is stored as the line separator of the platform, and the line
    ends [\r\n] and [\r] stored in a file are read as a newline.  A file
    is modelled by the characters it stores; how the platform encodes them
    as bytes is not modelled. *)

Definition carriage_return : ascii := "013".

Inductive platform : Type :=
  | Posix
  | Windows.

(** [os.linesep] *)
Definition linesep (os : platform) : list ascii :=
  match os with
  | Posix => [newline]
  | Windows => [carriage_return; newline]
  end.

(** The characters stored for a text that is written. *)
Fixpoint stored (os : platform) (text : list ascii) : list ascii :=
  match text with
  | [] => []
  | c :: text' =>
      (if Ascii.eqb c newline then linesep os else [c]) ++ stored os text'
  end.

(** The text delivered for the characters stored in a file. *)
Fixpoint delivered (chars : list ascii) : list ascii :=
  match chars with
  | [] => []
  | c :: chars' =>
      if Ascii.eqb c carriage_return then
        match chars' with
        | c' :: chars'' =>
            if Ascii.eqb c' newline then newline :: delivered chars''
            else newline :: delivered chars'
        | [] => [newline]
        end
      else c :: delivered chars'
  end.

(** [tear_down] writes [to_str(s)] to a file, and [load_file] reads that
    file. *)
Definition save_and_load (os : platform) (s : grid) : result grid :=
  load_file (delivered (stored os (to_str s))).

(** ** The interactive loop of the main program

    [move] and [update_lasers] change the grid they are given, and the
    loop keeps grids in [state_history]: after an undo the name [s] and the
    last entry of the history are one and the same object, and a move
    changes both.  The grids of the loop are therefore objects of a store,
    named by their address; [deepcopy] and [load_file] make a new object at
    the first address not in use, and nothing is freed. *)

Record session : Type := Session {
  objects : nat → grid;
  fresh : nat;
  ses_s : nat;
  state_history : list nat;
  command_history : list ascii;
  ses_e_code : status }.

(** The loop goes on, or the program exits with a grid handed to
    [tear_down] and an exit code. *)
Inductive outcome : Type :=
  | Continue (st : session)
  | Exit (s : grid) (e_code : status).

(** [state_history = [deepcopy(s)]; command_history = ""], the exit code
    being the answer of [validate_state]. *)
Definition start (s : grid) (e_code : status) : session :=
  {| objects := <[1%nat := s]> (<[0%nat := s]> (fun _ => []));
     fresh := 2;
     ses_s := 0;
     state_history := [1%nat];
     command_history := [];
     ses_e_code := e_code |}.

(** [del l[-1]] *)
Definition del_last {A : Type} (l : list A) : result (list A) :=
  match l with
  | [] => Raise IndexError
  | _ :: _ => Ok (removelast l)
  end.

(** [l[-1]] *)
Definition last_of {A : Type} (l : list A) : result A :=
  match list.last l with
  | Some a => Ok a
  | None => Raise IndexError
  end.

(** The four prints that end the body of the loop; [len(s[0])] is the
    part of them that can raise. *)
Definition shown (st : session) : result outcome :=
  _ ← subscript (objects st (ses_s st)) 0;
  Ok (Continue st).

(** The body of [for d in dirs], for the level file holding [level]. *)
Definition command (level : list ascii) (st : session) (d : ascii)
    : result outcome :=
  let s := ses_s st in
  if char_in d "hjkl" then
    '(g, e_code) ← move (objects st s) d;
    g ← update_lasers g;
    shown {| objects := <[fresh st := g]> (<[s := g]> (objects st));
             fresh := S (fresh st);
             ses_s := s;
             state_history := state_history st ++ [fresh st];
             command_history := command_history st ++ [d];
             ses_e_code := e_code |}
  else if Ascii.eqb d "q" then
    Ok (Exit (objects st s) (ses_e_code st))
  else if char_in d "rU" then
    g ← load_file level;
    shown {| objects := <[S (fresh st) := g]> (<[fresh st := g]> (objects st));
             fresh := S (S (fresh st));
             ses_s := fresh st;
             state_history := [S (fresh st)];
             command_history := [];
             ses_e_code := ses_e_code st |}
  else if Ascii.eqb d "u" then
    match command_history st with
    | [] => shown st
    | _ :: _ =>
        history ← del_last (state_history st);
        s ← last_of history;
        shown {| objects := objects st;
                 fresh := fresh st;
                 ses_s := s;
                 state_history := history;
                 command_history := removelast (command_history st);
                 ses_e_code := ses_e_code st |}
    end
  else shown st.

(** The characters typed, line after line, until one of them exits.  The
    end of the input, at which [input] raises, is not part of the model. *)
Fixpoint commands (level : list ascii) (st : session) (dirs : list ascii)
    : result outcome :=
  match dirs with
  | [] => Ok (Continue st)
  | d :: dirs' =>
      o ← command level st d;
      match o with
      | Continue st' => commands level st' dirs'
      | Exit s e_code => Ok (Exit s e_code)
      end
  end.

(** * Vocabulary of the properties *)

(** ** Shapes *)

(** The lengths of the rows. *)
Definition shape (s : grid) : list nat := length <$> s.

(** A grid is rectangular for bounds [(height, width)]; this only depends
    on the shape. *)
Definition rect (s : grid) (height width : Z) : Prop :=
  Z.of_nat (length (shape s)) = height ∧
  Forall (fun n => Z.of_nat n = width) (shape s).

(** Every row is as long as the first one, and there is a first one. *)
Definition rectangular (s : grid) : bool :=
  match shape s with
  | [] => false
  | n0 :: ns => forallb (fun n => Nat.eqb n n0) (n0 :: ns)
  end.

(** ** Walks *)

(** Tiles left between a position inside the bounds and the edge the walk
    is heading for. *)
Definition room (height width row col : Z) (dir : ascii) : nat :=
  if Ascii.eqb dir "h" then Z.to_nat col
  else if Ascii.eqb dir "l" then Z.to_nat (width - 1 - col)
  else if Ascii.eqb dir "k" then Z.to_nat row
  else if Ascii.eqb dir "j" then Z.to_nat (height - 1 - row)
  else 0%nat.

(** ** Footprints

    [writes W s s'] holds when [s'] is reached from [s] by a sequence of
    successful [set_at_pos] calls, each replacing a tile [x] by a tile [y]
    with [W x y]. *)

Inductive writes (W : ascii → ascii → Prop) : grid → grid → Prop :=
  | writes_refl s : writes W s s
  | writes_step s i j x y s1 s' :
      at_pos s i j = Ok x → W x y → set_at_pos s i j y = Ok s1 →
      writes W s1 s' → writes W s s'.

#[global] Hint Constructors writes : core.

(** The footprint of one beam trace, of the slide of a weight, of a move,
    of the clearing of the beams and of [update_lasers]. *)
Definition trace_writes (x y : ascii) : Prop :=
  (char_in x "-|" = true ∧ y = "+")
  ∨ (x = "G" ∧ y = "Y")
  ∨ (x ≠ "G" ∧ char_in x "FmMwWY<>^v" = false ∧ char_in y "-|" = true).

Definition slide_writes (x y : ascii) : Prop :=
  (x = "w" ∧ y = " ")
  ∨ (char_in x " _.x|-+" = true ∧ y = "w")
  ∨ (char_in x "o" = true ∧ y = "_").

Definition move_writes (x y : ascii) : Prop :=
  (char_in x " _.o" = true ∧ y = "G")
  ∨ (x = "G" ∧ char_in y ".@Y" = true)
  ∨ (char_in x "M" = true ∧ y = "m")
  ∨ (char_in x "mv^<>" = true ∧ y = "_")
  ∨ (char_in x " _.x|-+" = true ∧ y = "W")
  ∨ (char_in x "W" = true ∧ y = "G")
  ∨ slide_writes x y.

Definition clear_writes (x y : ascii) : Prop :=
  char_in x "|-+ " = true ∧ y = " ".

Definition laser_writes (x y : ascii) : Prop :=
  clear_writes x y ∨ trace_writes x y.

(** ** What a call may answer

    [post W PI PT proj s res]: a call started in state [s] that answered
    [res] either returned a state reached from [s] by writes allowed by
    [W], or raised [IndexError] in a situation where [PI] holds, or raised
    [TypeError] in a situation where [PT] holds.  It never asked for a
    negative subscript and never ran out of iterations. *)

Definition post (W : ascii → ascii → Prop) (PI PT : Prop) {A : Type}
    (proj : A → grid) (s : grid) (res : result A) : Prop :=
  match res with
  | Ok a => writes W s (proj a)
  | Raise IndexError => PI
  | Raise TypeError => PT
  | Raise NegativeIndex => False
  | OutOfFuel => False
  end.

(** ** Counting tiles *)

Fixpoint count_char (c : ascii) (l : list ascii) : nat :=
  match l with
  | [] => 0
  | t :: l' => (if Ascii.eqb t c then 1 else 0) + count_char c l'
  end.

(** How many tiles of the grid are [c]. *)
Definition tiles (c : ascii) (s : grid) : nat := count_char c (concat s).

(** How many tiles of the grid are a ram, live, victorious or defeated. *)
Definition rams (s : grid) : nat := tiles "G" s + tiles "Y" s + tiles "@" s.

Definition all_valid (s : grid) : bool :=
  forallb (fun c => char_in c _valid_chars) (concat s).

(** [counted k k' l]: the counters [k'] are the counters [k] after the
    tiles [l] have been looked at. *)
Definition counted (k k' : counters) (l : list ascii) : Prop :=
  invalid k' = invalid k || negb (forallb (fun c => char_in c _valid_chars) l)
  ∧ goat_count k' =
      (goat_count k + (count_char "G" l + count_char "Y" l + count_char "@" l))%nat
  ∧ victory k' = victory k || (0 <? count_char "@" l)%nat
  ∧ defeated k' = defeated k || (0 <? count_char "Y" l)%nat
  ∧ finish_count k' = (finish_count k + count_char "F" l)%nat
  ∧ (forallb (fun c => char_in c _valid_chars) l = true → errors k' = errors k).

(** One for a ram tile, live, defeated or victorious. *)
Definition ram_weight (c : ascii) : nat :=
  ((if Ascii.eqb c "G" then 1 else 0) + (if Ascii.eqb c "Y" then 1 else 0)
   + (if Ascii.eqb c "@" then 1 else 0))%nat.

(** ** Statuses and the grid *)

(** The tile that a status speaks of is on the grid. *)
Definition status_witnessed (e : status) (s : grid) : Prop :=
  match e with
  | _victory => (0 < tiles "@" s)%nat
  | _defeated => (0 < tiles "Y" s)%nat
  | _unfinished => (0 < tiles "G" s)%nat
  | _invalid => True
  end.

(** The status of a grid that holds one ram. *)
Definition status_of (s : grid) : status :=
  if (0 <? tiles "@" s)%nat then _victory
  else if (0 <? tiles "Y" s)%nat then _defeated
  else _unfinished.

(** ** Grids that survive saving *)

(** A row without a newline character that does not start like a
    comment. *)
Definition row_clean (l : list ascii) : bool :=
  forallb (fun c => negb (Ascii.eqb c newline)) l
  && match l with [] => true | c :: _ => negb (Ascii.eqb c "#") end.

(** Clean rows, the last of which is not empty. *)
Definition saveable (s : grid) : bool :=
  forallb row_clean s
  && match last s with Some [] => false | _ => true end.

(** No tile is a carriage return. *)
Definition no_carriage_return (s : grid) : bool :=
  forallb (forallb (fun c => negb (Ascii.eqb c carriage_return))) s.

(** Every tile is a seven-bit character, which the encodings of text
    files store as itself. *)
Definition seven_bit (s : grid) : bool :=
  forallb (forallb (fun c => (N_of_ascii c <? 128)%N)) s.

(** ** Tracing, tile by tile *)

(** What a trace does with the tile it reaches. *)
Inductive action : Type :=
  | Hit
  | Block
  | Write (y : ascii)
  | Pass.

Definition tile_action (c dir : ascii) : action :=
  if char_in c "-" && char_in dir "jk" then Write "+"
  else if char_in c "|" && char_in dir "hl" then Write "+"
  else if Ascii.eqb c "G" then Hit
  else if char_in c "FmMwWY<>^v" then Block
  else if char_in dir "hl" then Write "-"
  else if char_in dir "jk" then Write "|"
  else Pass.

(** The tile left by the clearing of the beams. *)
Definition clear_tile (x : ascii) : ascii :=
  if char_in x "|-+" then " " else x.

(** A tile that lets a beam through. *)
Definition passable (x : ascii) : bool :=
  negb (Ascii.eqb x "G") && negb (char_in x "FmMwWY<>^v").

(** What tracing can make of a tile [x]: leave it, put a beam on it if it
    is passable, or defeat the ram. *)
Definition traced (x y : ascii) : Prop :=
  y = x ∨ (passable x = true ∧ char_in y "-|+" = true) ∨ (x = "G" ∧ y = "Y").

(** [resumed f a b]: [b] is a state of the tracing started again from the
    cleared final grid [f], at the point where the first tracing was in
    state [a].  The two agree, except where [a] still has the tile that
    the first tracing is going to cover with a beam or to defeat. *)
Definition resumed (f a b : grid) : Prop :=
  shape b = shape a ∧
  ∀ i j xa, at_pos a i j = Ok xa →
    ∃ xb, at_pos b i j = Ok xb ∧
      (xb = xa
       ∨ (passable xa = true ∧ char_in xa "-|+" = false ∧ xb = " " ∧
          ∃ y, at_pos f i j = Ok y ∧ char_in y "-|+" = true)
       ∨ (xa = "G" ∧ xb = "Y" ∧ at_pos f i j = Ok "Y")).

(** ** The order of the positions *)

(** Row by row, and from left to right in a row. *)
Definition row_major (p q : Z * Z) : Prop :=
  p.1 < q.1 ∨ (p.1 = q.1 ∧ p.2 < q.2).

(** ** Tiles ahead *)

(** The position [k] tiles further in direction [dir]. *)
Fixpoint ahead (k : nat) (row col : Z) (dir : ascii) : option (Z * Z) :=
  match k with
  | O => Some (row, col)
  | S k' =>
      match next_pos row col dir with
      | Some (row', col') => ahead k' row' col' dir
      | None => None
      end
  end.

(** The [n] tiles ahead of [(row, col)] are in the grid and each of them
    holds one of the tiles [free]. *)
Fixpoint run_of (free : string) (s : grid) (n : nat) (row col : Z)
    (dir : ascii) : bool :=
  match n with
  | O => true
  | S n' =>
      match next_pos row col dir with
      | Some (row', col') =>
          match at_pos s row' col' with
          | Ok c => char_in c free && run_of free s n' row' col' dir
          | _ => false
          end
      | None => false
      end
  end.

(** What a slide of [n] tiles from [(row, col)] leaves, [(qr, qc)] being
    the position after them: Floor on the tiles the weight has left; the
    weight on the last of the [n] tiles, unless a hole follows, which takes
    the weight and becomes Rubble; every other tile as it was. *)
Definition slid (s s' : grid) (n : nat) (row col : Z) (dir : ascii)
    (qr qc : Z) : Prop :=
  (∀ k pr pc, (k < n)%nat → ahead k row col dir = Some (pr, pc) →
              at_pos s' pr pc = Ok " ") ∧
  (∃ pr pc, ahead n row col dir = Some (pr, pc) ∧
     (at_pos s qr qc = Ok "o" →
        at_pos s' pr pc = Ok " " ∧ at_pos s' qr qc = Ok "_") ∧
     (at_pos s qr qc ≠ Ok "o" → at_pos s' pr pc = Ok "w")) ∧
  (∀ i j, (∀ k, (k ≤ n)%nat → ahead k row col dir ≠ Some (i, j)) →
          (at_pos s qr qc = Ok "o" → (i, j) ≠ (qr, qc)) →
          at_pos s' i j = at_pos s i j).

(** ** Sessions of the interactive loop *)

#[global] Instance tile_eq_dec : EqDecision tile := Ascii.ascii_dec.

(** The addresses of a session are in use, the history has one grid more
    than there are commands, its last grid has the tiles of [s], and the
    grids that the loop can reach are rectangular. *)
Definition consistent (st : session) : bool :=
  bool_decide (ses_s st < fresh st)%nat &&
  forallb (fun a => bool_decide (a < fresh st)%nat) (state_history st) &&
  Nat.eqb (length (state_history st)) (S (length (command_history st))) &&
  match list.last (state_history st) with
  | Some a => bool_decide (objects st a = objects st (ses_s st))
  | None => false
  end &&
  rectangular (objects st (ses_s st)) &&
  forallb (fun a => rectangular (objects st a)) (state_history st).

(** * Properties *)

(** ** Membership in a string literal *)

Lemma char_in_In c t : char_in c t = true ↔ In c (list_ascii_of_string t).
Proof.
  induction t as [|a t IH]; simpl.
  - split; [discriminate | tauto].
  - rewrite orb_true_iff, IH, Ascii.eqb_eq. split; intros [?|?]; auto.
Qed.

Arguments char_in : simpl never.

(** Case analysis on the characters compared in the goal and context. *)
Ltac char_cases :=
  unfold char_in in *;
  repeat match goal with
    | H : context [Ascii.eqb ?a ?b] |- _ =>
        destruct (Ascii.eqb_spec a b); [subst|]; simpl in H
    | |- context [Ascii.eqb ?a ?b] =>
        destruct (Ascii.eqb_spec a b); [subst|]; simpl
    end;
  try done; try congruence.

(** ** Subscripts and the grid accessors *)

Section Accessors.
Context {A : Type}.
Implicit Types (l : list A) (i : Z).

Lemma subscript_Ok l i a :
  subscript l i = Ok a ↔ 0 <= i ∧ l !! Z.to_nat i = Some a.
Proof.
  unfold subscript. destruct (Z.ltb_spec i 0).
  - split; [discriminate | lia].
  - destruct (l !! Z.to_nat i); split;
      try discriminate; try (intros [_ ?]; congruence); try (intros [= ->]; auto).
Qed.

Lemma subscript_no_fuel l i : subscript l i ≠ OutOfFuel.
Proof. unfold subscript. repeat case_match; discriminate. Qed.

Lemma subscript_negative l i :
  subscript l i = Raise NegativeIndex ↔ i < 0.
Proof.
  unfold subscript. destruct (Z.ltb_spec i 0); [tauto|].
  case_match; split; try discriminate; lia.
Qed.

Lemma subscript_in_range l i :
  0 <= i < Z.of_nat (length l) → ∃ a, subscript l i = Ok a.
Proof.
  intros Hi. destruct (lookup_lt_is_Some_2 l (Z.to_nat i)) as [a Ha]; [lia|].
  exists a. apply subscript_Ok. split; [lia | done].
Qed.
End Accessors.

Lemma at_pos_Ok s i j x :
  at_pos s i j = Ok x ↔
  0 <= i ∧ 0 <= j ∧ ∃ l, s !! Z.to_nat i = Some l ∧ l !! Z.to_nat j = Some x.
Proof.
  unfold at_pos. split.
  - destruct (subscript s i) as [l| |] eqn:Hl; simpl; try discriminate.
    intros Hx. apply subscript_Ok in Hl as [? ?], Hx as [? ?]. eauto.
  - intros (Hi & Hj & l & Hl & Hx).
    assert (subscript s i = Ok l) as -> by (apply subscript_Ok; auto).
    simpl. apply subscript_Ok; auto.
Qed.

Lemma set_at_pos_Ok s i j y s' :
  set_at_pos s i j y = Ok s' ↔
  (∃ x, at_pos s i j = Ok x) ∧
  ∃ l, s !! Z.to_nat i = Some l ∧
       s' = <[Z.to_nat i := <[Z.to_nat j := y]> l]> s.
Proof.
  unfold set_at_pos, at_pos. split.
  - destruct (subscript s i) as [l| |] eqn:Hl; simpl; try discriminate.
    destruct (subscript l j) as [x| |] eqn:Hx; simpl; try discriminate.
    intros [= <-]. apply subscript_Ok in Hl as [? ?]. eauto.
  - intros [[x Hx] (l & Hl & ->)].
    destruct (subscript s i) as [l'| |] eqn:Hl'; simpl in *; try discriminate.
    apply subscript_Ok in Hl' as [? ?]. simplify_eq. rewrite Hx. reflexivity.
Qed.

Lemma set_at_pos_defined s i j x y :
  at_pos s i j = Ok x → ∃ s', set_at_pos s i j y = Ok s'.
Proof.
  intros Hx. pose proof Hx as (? & ? & l & Hl & ?)%at_pos_Ok.
  eexists. apply set_at_pos_Ok. eauto.
Qed.

Lemma at_pos_set_eq s i j y s' :
  set_at_pos s i j y = Ok s' → at_pos s' i j = Ok y.
Proof.
  intros [[x Hx] (l & Hl & ->)]%set_at_pos_Ok.
  apply at_pos_Ok in Hx as (? & ? & l' & Hl' & Hx).
  assert (l' = l) as -> by congruence.
  apply at_pos_Ok. do 2 (split; [done|]).
  exists (<[Z.to_nat j := y]> l). split.
  - apply list_lookup_insert_eq. by eapply lookup_lt_Some.
  - apply list_lookup_insert_eq. by eapply lookup_lt_Some.
Qed.

Lemma at_pos_set_ne s i j y s' i' j' :
  set_at_pos s i j y = Ok s' → (i, j) ≠ (i', j') →
  at_pos s' i' j' = at_pos s i' j'.
Proof.
  intros [[x Hx] (l & Hl & ->)]%set_at_pos_Ok Hne.
  apply at_pos_Ok in Hx as (Hi & Hj & _).
  unfold at_pos, subscript.
  destruct (Z.ltb_spec i' 0); [done|].
  destruct (decide (Z.to_nat i = Z.to_nat i')) as [Heq|Hneq].
  - assert (i' = i) as -> by lia.
    rewrite list_lookup_insert_eq by (by eapply lookup_lt_Some).
    rewrite Hl. simpl.
    destruct (Z.ltb_spec j' 0); [done|].
    rewrite list_lookup_insert_ne; [done|].
    intros ?. apply Hne. f_equal. lia.
  - by rewrite list_lookup_insert_ne.
Qed.

Lemma set_at_pos_shape s i j y s' :
  set_at_pos s i j y = Ok s' → shape s' = shape s.
Proof.
  intros [_ (l & Hl & ->)]%set_at_pos_Ok. unfold shape.
  rewrite list_fmap_insert, length_insert.
  apply list_insert_id. by rewrite list_lookup_fmap, Hl.
Qed.

Lemma in_bounds_true height width row col :
  in_bounds height width row col = true ↔
  0 <= row < height ∧ 0 <= col < width.
Proof. unfold in_bounds. rewrite !andb_true_iff. lia. Qed.

Lemma at_pos_in_bounds s height width row col :
  rect s height width → in_bounds height width row col = true →
  ∃ x, at_pos s row col = Ok x.
Proof.
  intros [Hh Hw] [Hr Hc]%in_bounds_true. unfold shape in *.
  rewrite length_fmap in Hh.
  destruct (lookup_lt_is_Some_2 s (Z.to_nat row)) as [l Hl]; [lia|].
  assert (Z.of_nat (length l) = width) as Hlen.
  { rewrite Forall_forall in Hw. apply Hw.
    apply list_elem_of_fmap. exists l. split; [done|].
    by eapply list_elem_of_lookup_2. }
  destruct (lookup_lt_is_Some_2 l (Z.to_nat col)) as [x Hx]; [lia|].
  exists x. apply at_pos_Ok. repeat split; try lia. eauto.
Qed.

(** ** Positions found by [find_pos] *)

Lemma elem_of_find_in_row i j0 l x p :
  p ∈ find_in_row i j0 l x ↔
  ∃ n : nat, p = (i, j0 + Z.of_nat n) ∧ l !! n = Some x.
Proof.
  revert j0. induction l as [|c l IH]; intros j0; simpl.
  - split; [by intros ?%elem_of_nil | by intros (n & _ & ?)].
  - rewrite elem_of_app, IH. split.
    + intros [Hp|(n & -> & Hn)].
      * destruct (Ascii.eqb_spec c x) as [->|]; [|by apply elem_of_nil in Hp].
        apply list_elem_of_singleton in Hp as ->.
        exists 0%nat. split; [f_equal; lia | done].
      * exists (S n). split; [f_equal; lia | done].
    + intros ([|n] & -> & Hn); simpl in Hn.
      * left. injection Hn as ->. rewrite Ascii.eqb_refl.
        apply list_elem_of_singleton. f_equal. lia.
      * right. exists n. split; [f_equal; lia | done].
Qed.

Lemma elem_of_find_from i0 s x p :
  p ∈ find_from i0 s x ↔
  ∃ (m n : nat) l,
    p = (i0 + Z.of_nat m, Z.of_nat n) ∧ s !! m = Some l ∧ l !! n = Some x.
Proof.
  revert i0. induction s as [|l0 s IH]; intros i0; simpl.
  - split; [by intros ?%elem_of_nil | by intros (m & n & l & _ & ? & _)].
  - rewrite elem_of_app, IH, elem_of_find_in_row. split.
    + intros [(n & -> & Hn)|(m & n & l & -> & Hm & Hn)].
      * exists 0%nat, n, l0. split; [f_equal; lia | done].
      * exists (S m), n, l. split; [f_equal; lia | done].
    + intros ([|m] & n & l & -> & Hm & Hn); simpl in Hm.
      * left. injection Hm as ->. exists n. split; [f_equal; lia | done].
      * right. exists m, n, l. split; [f_equal; lia | done].
Qed.

Lemma elem_of_find_pos s x i j :
  (i, j) ∈ find_pos s x ↔ at_pos s i j = Ok x.
Proof.
  unfold find_pos. rewrite elem_of_find_from, at_pos_Ok. split.
  - intros (m & n & l & [= -> ->] & Hm & Hn).
    repeat split; try lia. exists l.
    by rewrite Z.add_0_l, !Nat2Z.id.
  - intros (Hi & Hj & l & Hl & Hx).
    exists (Z.to_nat i), (Z.to_nat j), l. split; [f_equal; lia | done].
Qed.

Lemma find_in_row_insert i j0 l n x y t :
  l !! n = Some x → x ≠ t → y ≠ t →
  find_in_row i j0 (<[n := y]> l) t = find_in_row i j0 l t.
Proof.
  revert n j0. induction l as [|c l IH]; intros [|n] j0 Hn Hx Hy;
    simpl in *; try done.
  - injection Hn as ->.
    destruct (Ascii.eqb_spec x t), (Ascii.eqb_spec y t); done.
  - by rewrite (IH n).
Qed.

Lemma find_from_insert i0 (s : grid) m l l' t :
  s !! m = Some l →
  (∀ i j0, find_in_row i j0 l' t = find_in_row i j0 l t) →
  find_from i0 (<[m := l']> s) t = find_from i0 s t.
Proof.
  revert m i0. induction s as [|l0 s IH]; intros [|m] i0 Hm Hrow;
    simpl in *; try done.
  - injection Hm as ->. by rewrite Hrow.
  - by rewrite (IH m).
Qed.

Lemma find_pos_set s i j x y s' t :
  at_pos s i j = Ok x → set_at_pos s i j y = Ok s' →
  x ≠ t → y ≠ t → find_pos s' t = find_pos s t.
Proof.
  intros (_ & _ & l & Hl & Hx)%at_pos_Ok [_ (l' & Hl' & ->)]%set_at_pos_Ok ? ?.
  assert (l' = l) as -> by congruence.
  unfold find_pos. eapply find_from_insert; [done|].
  intros. by eapply find_in_row_insert.
Qed.

Section Writes.
Variable W : ascii → ascii → Prop.

Lemma writes_trans s1 s2 s3 :
  writes W s1 s2 → writes W s2 s3 → writes W s1 s3.
Proof. induction 1; eauto. Qed.

Lemma writes_one s i j x y s' :
  at_pos s i j = Ok x → W x y → set_at_pos s i j y = Ok s' →
  writes W s s'.
Proof. eauto. Qed.

Lemma writes_shape s s' : writes W s s' → shape s' = shape s.
Proof.
  induction 1 as [|s i j x y s1 s' _ _ Hset _ IH]; [done|].
  rewrite IH. by eapply set_at_pos_shape.
Qed.

Lemma writes_rect s s' height width :
  writes W s s' → rect s' height width ↔ rect s height width.
Proof. intros Hw. unfold rect. by rewrite (writes_shape _ _ Hw). Qed.

Lemma writes_find_pos s s' t :
  (∀ x y, W x y → x ≠ t ∧ y ≠ t) →
  writes W s s' → find_pos s' t = find_pos s t.
Proof.
  intros HW. induction 1 as [|s i j x y s1 s' Hx Hxy Hset _ IH]; [done|].
  rewrite IH. destruct (HW _ _ Hxy). by eapply find_pos_set.
Qed.
End Writes.

Lemma writes_mono (W W' : ascii → ascii → Prop) s s' :
  (∀ x y, W x y → W' x y) → writes W s s' → writes W' s s'.
Proof. intros HW. induction 1; eauto. Qed.

(** ** Walks across the grid *)

Lemma next_pos_None row col dir :
  next_pos row col dir = None ↔ char_in dir "hjkl" = false.
Proof.
  unfold next_pos, char_in.
  destruct (Ascii.eqb dir "h"), (Ascii.eqb dir "l"),
    (Ascii.eqb dir "k"), (Ascii.eqb dir "j"); simpl; split; congruence.
Qed.

Lemma next_pos_ne row col dir row' col' :
  next_pos row col dir = Some (row', col') → (row, col) ≠ (row', col').
Proof.
  unfold next_pos.
  repeat case_match; intros Hnext Hsame; try discriminate;
    injection Hnext as <- <-; injection Hsame; intros; lia.
Qed.

Lemma room_next height width row col dir row' col' :
  next_pos row col dir = Some (row', col') →
  in_bounds height width row' col' = true →
  (room height width row' col' dir < room height width row col dir)%nat.
Proof.
  unfold next_pos, room. intros Hn [? ?]%in_bounds_true.
  repeat case_match; simplify_eq; lia.
Qed.

Lemma room_fuel height width row col dir :
  in_bounds height width row col = true →
  (room height width row col dir + 2 ≤ walk_fuel height width)%nat.
Proof.
  unfold room, walk_fuel. intros [? ?]%in_bounds_true.
  repeat case_match; lia.
Qed.

Lemma walk_fuel_pos height width : (1 ≤ walk_fuel height width)%nat.
Proof. unfold walk_fuel. lia. Qed.

#[global] Opaque walk_fuel.

Lemma next_pos_twice_ne row col dir row1 col1 row2 col2 :
  next_pos row col dir = Some (row1, col1) →
  next_pos row1 col1 dir = Some (row2, col2) →
  (row, col) ≠ (row2, col2).
Proof.
  unfold next_pos.
  repeat case_match; intros Hone Htwo Hsame; try discriminate;
    injection Hone as <- <-; injection Htwo as <- <-;
    injection Hsame; intros; lia.
Qed.

Lemma at_pos_result s i j :
  0 <= i → 0 <= j →
  (∃ x, at_pos s i j = Ok x) ∨ at_pos s i j = Raise IndexError.
Proof.
  intros Hi Hj. unfold at_pos, subscript.
  destruct (Z.ltb_spec i 0); [lia|].
  destruct (s !! Z.to_nat i) as [l|]; simpl; [|by right].
  destruct (Z.ltb_spec j 0); [lia|].
  destruct (l !! Z.to_nat j) as [x|]; [left; eauto | by right].
Qed.

(** ** Rules for [post] *)

Section Post.
Variable W : ascii → ascii → Prop.
Variables PI PT : Prop.

Lemma post_after {A : Type} (proj : A → grid) s s1 res :
  writes W s s1 → post W PI PT proj s1 res → post W PI PT proj s res.
Proof.
  intros Hw. destruct res as [a|[]|]; simpl; auto.
  by apply writes_trans.
Qed.

Lemma post_return {A : Type} (proj : A → grid) s a :
  proj a = s → post W PI PT proj s (Ok a).
Proof. intros <-. simpl. constructor. Qed.

Lemma post_write {A : Type} (proj : A → grid) s i j x y
    (f : grid → result A) :
  at_pos s i j = Ok x → W x y →
  (∀ s1, set_at_pos s i j y = Ok s1 → shape s1 = shape s →
         post W PI PT proj s1 (f s1)) →
  post W PI PT proj s (set_at_pos s i j y ≫= f).
Proof.
  intros Hx HW Hf.
  destruct (set_at_pos_defined s i j x y Hx) as [s1 Hs1].
  rewrite Hs1. simpl. apply post_after with s1.
  - by eapply writes_one.
  - apply Hf; [done | by eapply set_at_pos_shape].
Qed.

Lemma post_write_last s i j x y :
  at_pos s i j = Ok x → W x y → post W PI PT id s (set_at_pos s i j y).
Proof.
  intros Hx HW.
  destruct (set_at_pos_defined s i j x y Hx) as [s1 Hs1].
  rewrite Hs1. simpl. by eapply writes_one.
Qed.

Lemma post_read {A : Type} (proj : A → grid) s height width row col
    (f : ascii → result A) :
  in_bounds height width row col = true →
  (¬ rect s height width → PI) →
  (∀ x, at_pos s row col = Ok x → post W PI PT proj s (f x)) →
  post W PI PT proj s (at_pos s row col ≫= f).
Proof.
  intros Hb HPI Hf. pose proof Hb as [? ?]%in_bounds_true.
  destruct (at_pos_result s row col) as [[x Hx]|Herr]; [lia..| |].
  - rewrite Hx. by apply Hf.
  - rewrite Herr. simpl. apply HPI. intros Hrect.
    destruct (at_pos_in_bounds _ _ _ _ _ Hrect Hb). congruence.
Qed.

Lemma post_unpack {A : Type} (proj : A → grid) s row col dir
    (f : Z * Z → result A) :
  (char_in dir "hjkl" = false → PT) →
  (∀ row' col', next_pos row col dir = Some (row', col') →
                post W PI PT proj s (f (row', col'))) →
  post W PI PT proj s (unpack (next_pos row col dir) ≫= f).
Proof.
  intros HPT Hf. destruct (next_pos row col dir) as [[row' col']|] eqn:Hn.
  - by apply Hf.
  - simpl. by apply HPT, (next_pos_None row col).
Qed.

Lemma post_bind {A : Type} (proj : A → grid) s (m : result grid)
    (f : grid → result A) :
  post W PI PT id s m →
  (∀ s1, m = Ok s1 → shape s1 = shape s → post W PI PT proj s1 (f s1)) →
  post W PI PT proj s (m ≫= f).
Proof.
  intros Hm Hf. destruct m as [s1|[]|]; simpl in *; auto.
  apply post_after with s1; [done|].
  apply Hf; [done | by eapply writes_shape].
Qed.
End Post.

Lemma post_mono (W W' : ascii → ascii → Prop) (PI PI' PT PT' : Prop)
    {A : Type} (proj : A → grid) s res :
  (∀ x y, W x y → W' x y) → (PI → PI') → (PT → PT') →
  post W PI PT proj s res → post W' PI' PT' proj s res.
Proof.
  intros HW HI HT. destruct res as [a|[]|]; simpl; auto.
  by apply writes_mono.
Qed.

Lemma rect_shape s s' height width :
  shape s' = shape s → rect s' height width ↔ rect s height width.
Proof. intros Hs. unfold rect. by rewrite Hs. Qed.

(** ** The three loops *)

Section Walks.
Variables height width : Z.
Variable dir : ascii.
Variable sh : list nat.

Let PI : Prop := ¬ (Z.of_nat (length sh) = height ∧
                    Forall (fun n => Z.of_nat n = width) sh).
Let PT : Prop := char_in dir "hjkl" = false.

Lemma shape_PI s : shape s = sh → ¬ rect s height width → PI.
Proof. intros <-. done. Qed.

Lemma trace_loop_post fuel s row col :
  shape s = sh →
  (in_bounds height width row col = true →
   (room height width row col dir + 2 ≤ fuel)%nat) →
  (1 ≤ fuel)%nat →
  post trace_writes PI PT id s (trace_loop fuel height width s row col dir).
Proof.
  revert s row col.
  induction fuel as [|fuel IH]; intros s row col Hsh Hroom Hfuel; [lia|].
  simpl. destruct (in_bounds height width row col) eqn:Hb; simpl;
    [|by constructor].
  specialize (Hroom eq_refl).
  assert (∀ s1 row' col', shape s1 = shape s →
            next_pos row col dir = Some (row', col') →
            post trace_writes PI PT id s1
              (trace_loop fuel height width s1 row' col' dir)) as Hnext.
  { intros s1 row' col' Hs1 Hn. apply IH; [congruence | | lia].
    intros Hb'. pose proof (room_next _ _ _ _ _ _ _ Hn Hb'). lia. }
  eapply post_read; [done | by apply shape_PI |]. intros x Hx.
  destruct (char_in x "-" && char_in dir "jk") eqn:Hcross1;
    [|destruct (char_in x "|" && char_in dir "hl") eqn:Hcross2;
      [|destruct (Ascii.eqb_spec x "G") as [->|HG];
        [|destruct (char_in x "FmMwWY<>^v") eqn:Hopaque]]].
  - apply andb_true_iff in Hcross1 as [Hx1 _].
    eapply post_write; [done | left; split; [|done] |].
    { clear -Hx1. char_cases. }
    intros s1 _ Hs1. apply post_unpack; [done|].
    intros row' col' Hn. by apply Hnext.
  - apply andb_true_iff in Hcross2 as [Hx2 _].
    eapply post_write; [done | left; split; [|done] |].
    { clear -Hx2. char_cases. }
    intros s1 _ Hs1. apply post_unpack; [done|].
    intros row' col' Hn. by apply Hnext.
  - eapply post_write_last; [done|]. right. by left.
  - by constructor.
  - assert (∀ y, char_in y "-|" = true → trace_writes x y) as HW.
    { intros y Hy. right. right. done. }
    eapply post_bind.
    + destruct (char_in dir "hl"); [|destruct (char_in dir "jk")].
      * eapply post_write_last; [done | by apply HW].
      * eapply post_write_last; [done | by apply HW].
      * by constructor.
    + intros s1 _ Hs1. apply post_unpack; [done|].
      intros row' col' Hn. by apply Hnext.
Qed.

Lemma slide_loop_post fuel s row col :
  shape s = sh →
  at_pos s row col = Ok "w" →
  (∀ row' col', next_pos row col dir = Some (row', col') →
     in_bounds height width row' col' = true →
     (room height width row' col' dir + 2 ≤ fuel)%nat) →
  (1 ≤ fuel)%nat →
  post slide_writes PI PT id s (slide_loop fuel height width s row col dir).
Proof.
  revert s row col.
  induction fuel as [|fuel IH]; intros s row col Hsh Hw Hroom Hfuel; [lia|].
  simpl. apply post_unpack; [done|]. intros row' col' Hn.
  destruct (in_bounds height width row' col') eqn:Hb; simpl;
    [|by constructor].
  specialize (Hroom _ _ Hn Hb).
  pose proof (next_pos_ne _ _ _ _ _ Hn) as Hne.
  eapply post_read; [done | by apply shape_PI |]. intros nc Hnc.
  destruct (char_in nc " _.x|-+") eqn:Hfree;
    [|destruct (char_in nc "o") eqn:Hhole].
  - eapply post_write; [done | by left |]. intros s1 Hs1 Hsh1.
    eapply post_write.
    { by rewrite (at_pos_set_ne _ _ _ _ _ _ _ Hs1 Hne). }
    { right. by left. }
    intros s2 Hs2 Hsh2. apply IH; [congruence | | | lia].
    + by eapply at_pos_set_eq.
    + intros row2 col2 Hn2 Hb2.
      pose proof (room_next _ _ _ _ _ _ _ Hn2 Hb2). lia.
  - eapply post_write; [done | by left |]. intros s1 Hs1 Hsh1.
    eapply post_write_last.
    { by rewrite (at_pos_set_ne _ _ _ _ _ _ _ Hs1 Hne). }
    right. by right.
  - by constructor.
Qed.

Lemma move_loop_post fuel s row col :
  shape s = sh →
  at_pos s row col = Ok "G" →
  (∀ row' col', next_pos row col dir = Some (row', col') →
     in_bounds height width row' col' = true →
     (room height width row' col' dir + 2 ≤ fuel)%nat) →
  (1 ≤ fuel)%nat →
  post move_writes PI PT fst s (move_loop fuel height width s row col dir).
Proof.
  revert s row col.
  induction fuel as [|fuel IH]; intros s row col Hsh Hg Hroom Hfuel; [lia|].
  simpl. apply post_unpack; [done|]. intros row' col' Hn.
  destruct (in_bounds height width row' col') eqn:Hb; simpl;
    [|by constructor].
  specialize (Hroom _ _ Hn Hb).
  pose proof (next_pos_ne _ _ _ _ _ Hn) as Hne.
  assert ((row', col') ≠ (row, col)) as Hne' by congruence.
  assert (∀ y, char_in y ".@Y" = true → move_writes "G" y) as Hram.
  { intros y Hy. right. by left. }
  eapply post_read; [done | by apply shape_PI |]. intros c Hc.
  destruct (char_in c " _.") eqn:Hfloor.
  { eapply post_write; [done | left; split; [clear -Hfloor; char_cases|done] |].
    intros s1 Hs1 Hsh1.
    eapply post_write;
      [by rewrite (at_pos_set_ne _ _ _ _ _ _ _ Hs1 Hne') | by apply Hram |].
    intros s2 Hs2 Hsh2. simpl. apply IH; [congruence | | | lia].
    - rewrite (at_pos_set_ne _ _ _ _ _ _ _ Hs2 Hne). by eapply at_pos_set_eq.
    - intros row2 col2 Hn2 Hb2.
      pose proof (room_next _ _ _ _ _ _ _ Hn2 Hb2). lia. }
  destruct (char_in c "M") eqn:Hwall.
  { eapply post_write; [done | right; right; by left |].
    intros s1 _ _. by constructor. }
  destruct (char_in c "m") eqn:Hdamaged.
  { eapply post_write;
      [done | do 3 right; left; split; [clear -Hdamaged; char_cases|done] |].
    intros s1 _ _. by constructor. }
  destruct (char_in c "v^<>") eqn:Hemitter.
  { eapply post_write;
      [done | do 3 right; left; split; [clear -Hemitter; char_cases|done] |].
    intros s1 _ _. by constructor. }
  destruct (char_in c "F") eqn:Hfinish.
  { eapply post_write; [done | by apply Hram |].
    intros s1 _ _. by constructor. }
  destruct (char_in c "x|-") eqn:Htrap.
  { eapply post_write; [done | by apply Hram |].
    intros s1 _ _. by constructor. }
  destruct (char_in c "o") eqn:Hhole.
  { eapply post_write; [done | left; split; [clear -Hhole; char_cases|done] |].
    intros s1 Hs1 Hsh1.
    eapply post_write;
      [by rewrite (at_pos_set_ne _ _ _ _ _ _ _ Hs1 Hne') | by apply Hram |].
    intros s2 _ _. by constructor. }
  destruct (char_in c "W") eqn:Hheavy.
  { apply post_unpack; [done|]. intros over_row over_col Hover.
    destruct (in_bounds height width over_row over_col) eqn:Hbo; simpl;
      [|by constructor].
    pose proof (next_pos_ne _ _ _ _ _ Hover) as Hne1.
    pose proof (next_pos_twice_ne _ _ _ _ _ _ _ Hn Hover) as Hne2.
    assert ((over_row, over_col) ≠ (row', col')) as Hne1' by congruence.
    assert ((over_row, over_col) ≠ (row, col)) as Hne2' by congruence.
    eapply post_read; [done | by apply shape_PI |]. intros nc Hnc.
    eapply post_bind; [|intros s1 _ _; by constructor].
    destruct (char_in nc " _.x|-+") eqn:Hfree;
      [|destruct (char_in nc "o") eqn:Hhole2].
    - eapply post_write; [done | do 4 right; by left |].
      intros s1 Hs1 Hsh1.
      eapply post_write;
        [by rewrite (at_pos_set_ne _ _ _ _ _ _ _ Hs1 Hne1')
        | do 5 right; by left |].
      intros s2 Hs2 Hsh2.
      eapply post_write_last; [|by apply Hram].
      rewrite (at_pos_set_ne _ _ _ _ _ _ _ Hs2 Hne').
      by rewrite (at_pos_set_ne _ _ _ _ _ _ _ Hs1 Hne2').
    - eapply post_write; [done | do 6 right; right; by right |].
      intros s1 Hs1 Hsh1.
      eapply post_write;
        [by rewrite (at_pos_set_ne _ _ _ _ _ _ _ Hs1 Hne1')
        | do 5 right; by left |].
      intros s2 Hs2 Hsh2.
      eapply post_write_last; [|by apply Hram].
      rewrite (at_pos_set_ne _ _ _ _ _ _ _ Hs2 Hne').
      by rewrite (at_pos_set_ne _ _ _ _ _ _ _ Hs1 Hne2').
    - by constructor. }
  destruct (char_in c "w") eqn:Hsliding; [|by constructor].
  eapply post_bind; [|intros s1 _ _; by constructor].
  eapply post_mono;
    [| | |apply slide_loop_post with (row:=row') (col:=col')]; try done.
  - intros x y Hxy. by do 6 right.
  - rewrite Hc. f_equal. clear -Hsliding. char_cases.
  - intros row2 col2 Hn2 Hb2. by apply room_fuel.
  - apply walk_fuel_pos.
Qed.
End Walks.

(** ** More iterations change nothing

    A loop that has answered within its budget gives the same answer with
    any larger budget: the budget chosen in [walk_fuel] is no part of the
    behaviour. *)

Ltac step_loops IH :=
  repeat match goal with
    | |- context [mbind _ ?m] =>
        lazymatch m with
        | trace_loop _ _ _ _ _ _ _ => fail
        | slide_loop _ _ _ _ _ _ _ => fail
        | move_loop _ _ _ _ _ _ _ => fail
        | _ => destruct m as [?| |] eqn:?; simpl; try done
        end
    | |- context [let (_, _) := ?p in _] => destruct p
    | |- context [if ?b then _ else _] => destruct b eqn:?; simpl; try done
    end.

Lemma trace_loop_more_fuel height width dir k fuel s row col :
  trace_loop fuel height width s row col dir ≠ OutOfFuel →
  trace_loop (fuel + k) height width s row col dir =
  trace_loop fuel height width s row col dir.
Proof.
  revert s row col. induction fuel as [|fuel IH]; intros s row col; [done|].
  simpl. step_loops IH; apply IH.
Qed.

Lemma slide_loop_more_fuel height width dir k fuel s row col :
  slide_loop fuel height width s row col dir ≠ OutOfFuel →
  slide_loop (fuel + k) height width s row col dir =
  slide_loop fuel height width s row col dir.
Proof.
  revert s row col. induction fuel as [|fuel IH]; intros s row col; [done|].
  simpl. step_loops IH; apply IH.
Qed.

Lemma move_loop_more_fuel height width dir k fuel s row col :
  move_loop fuel height width s row col dir ≠ OutOfFuel →
  move_loop (fuel + k) height width s row col dir =
  move_loop fuel height width s row col dir.
Proof.
  revert s row col. induction fuel as [|fuel IH]; intros s row col; [done|].
  simpl. step_loops IH; apply IH.
Qed.

(** ** Rectangular grids *)

Lemma bounds_result s :
  (s = [] ∧ bounds s = Raise IndexError) ∨
  (∃ l0 s0, s = l0 :: s0 ∧
     bounds s = Ok (Z.of_nat (length s), Z.of_nat (length l0))).
Proof. destruct s as [|l0 s0]; [by left | right; eauto]. Qed.

Lemma rect_rectangular l0 s0 :
  rect (l0 :: s0) (Z.of_nat (length (l0 :: s0))) (Z.of_nat (length l0)) ↔
  rectangular (l0 :: s0) = true.
Proof.
  unfold rect, rectangular. rewrite Forall_forall.
  change (shape (l0 :: s0)) with (length l0 :: shape s0).
  rewrite forallb_forall. split.
  - intros [_ H] n Hn%list_elem_of_In. apply Nat.eqb_eq.
    specialize (H n Hn). simpl in H. lia.
  - intros H. split.
    { unfold shape. simpl. by rewrite length_fmap. }
    intros n Hn%list_elem_of_In.
    specialize (H n Hn). apply Nat.eqb_eq in H. lia.
Qed.

Lemma rectangular_shape s s' :
  shape s' = shape s → rectangular s' = rectangular s.
Proof. unfold rectangular. by intros ->. Qed.

(** ** What [move] may answer *)

Lemma move_post s dir :
  post move_writes (rectangular s = false) (char_in dir "hjkl" = false)
    fst s (move s dir).
Proof.
  unfold move.
  destruct (bounds_result s) as [[-> ->]|(l0 & s0 & Hs & ->)]; [done|].
  simpl.
  destruct (find_pos s "G") as [|[row col] ps] eqn:Hram.
  { repeat case_match; by constructor. }
  assert (at_pos s row col = Ok "G") as Hg.
  { apply elem_of_find_pos. rewrite Hram. by left. }
  eapply post_mono; [done | | |
    apply move_loop_post with (sh := shape s) (row := row) (col := col)];
    try done.
  - intros Hnot. destruct (rectangular s) eqn:Hrect; [|done].
    exfalso. apply Hnot. subst s. by apply rect_rectangular.
  - intros row' col' _ Hb. by apply room_fuel.
  - apply walk_fuel_pos.
Qed.

(** ** What [update_lasers] may answer *)

Lemma clear_at_post ps s :
  (∀ i j, (i, j) ∈ ps →
     ∃ x, at_pos s i j = Ok x ∧ char_in x "|-+ " = true) →
  post clear_writes False False id s (clear_at s ps).
Proof.
  revert s. induction ps as [|[i j] ps IH]; intros s Hps; simpl.
  { by constructor. }
  destruct (Hps i j) as (x & Hx & Hbeam); [by left|].
  eapply post_write; [done | done |]. intros s1 Hs1 _.
  apply IH. intros i' j' Hin.
  destruct (decide ((i, j) = (i', j'))) as [[= <- <-]|Hne].
  - exists " ". split; [by eapply at_pos_set_eq | done].
  - rewrite (at_pos_set_ne _ _ _ _ _ _ _ Hs1 Hne). apply Hps. by right.
Qed.

Lemma clear_found_post s c :
  char_in c "|-+ " = true →
  post clear_writes False False id s (clear_at s (find_pos s c)).
Proof.
  intros Hc. apply clear_at_post. intros i j Hin%elem_of_find_pos. eauto.
Qed.

Lemma clear_beams_post s :
  post clear_writes False False id s (clear_beams s).
Proof.
  unfold clear_beams.
  eapply post_bind; [by apply clear_found_post|]. intros s1 _ _.
  eapply post_bind; [by apply clear_found_post|]. intros s2 _ _.
  by apply clear_found_post.
Qed.

Lemma trace_laser_post height width s row col dir :
  char_in dir "hjkl" = true →
  post trace_writes (¬ rect s height width) False id s
    (trace_laser height width s (row, col, dir)).
Proof.
  intros Hdir. unfold trace_laser.
  apply post_unpack; [congruence|]. intros row' col' _.
  eapply post_mono; [done | | |
    apply trace_loop_post with (sh := shape s)]; try done.
  - simpl. congruence.
  - intros Hb. by apply room_fuel.
  - apply walk_fuel_pos.
Qed.

Lemma trace_all_post height width lasers s :
  (∀ row col dir, (row, col, dir) ∈ lasers → char_in dir "hjkl" = true) →
  post trace_writes (¬ rect s height width) False id s
    (trace_all height width s lasers).
Proof.
  revert s. induction lasers as [|[[row col] dir] lasers IH]; intros s Hdirs;
    simpl.
  { by constructor. }
  eapply post_bind.
  - apply trace_laser_post. eapply Hdirs. by left.
  - intros s1 _ Hsh.
    eapply post_mono; [done | | done | apply IH].
    + by rewrite (rect_shape _ _ _ _ Hsh).
    + intros. eapply Hdirs. by right.
Qed.

Lemma collect_lasers_dirs s row col dir :
  (row, col, dir) ∈ collect_lasers s → char_in dir "hjkl" = true.
Proof.
  unfold collect_lasers. rewrite !elem_of_app, !list_elem_of_fmap.
  intros [H|[H|[H|H]]]; destruct H as (p & [= _ ->] & _); done.
Qed.

Lemma update_lasers_post s :
  post laser_writes (rectangular s = false) False id s (update_lasers s).
Proof.
  unfold update_lasers.
  eapply post_bind.
  { eapply post_mono; [| | |apply clear_beams_post]; try done.
    intros x y. by left. }
  intros s1 _ Hsh.
  destruct (bounds_result s1) as [[-> ->]|(l0 & s0 & Hs1 & ->)].
  { simpl. by rewrite <- (rectangular_shape _ _ Hsh). }
  simpl.
  eapply post_mono; [| | |apply trace_all_post].
  - intros x y. by right.
  - intros Hnot. rewrite <- (rectangular_shape _ _ Hsh).
    destruct (rectangular s1) eqn:Hrect; [|done].
    exfalso. apply Hnot. subst s1. by apply rect_rectangular.
  - done.
  - apply collect_lasers_dirs.
Qed.

(** ** Tiles that the footprints leave alone *)

Ltac refute_writes H :=
  repeat (destruct H as [H|H]);
  decompose [and] H; clear H;
  try discriminate; try congruence;
  match goal with
  | H' : _ = _ |- _ => vm_compute in H'; discriminate
  end.

Lemma move_writes_finish x y : move_writes x y → x ≠ "F" ∧ y ≠ "F".
Proof.
  unfold move_writes, slide_writes.
  intros H. split; intros ->; refute_writes H.
Qed.

Lemma laser_writes_finish x y : laser_writes x y → x ≠ "F" ∧ y ≠ "F".
Proof.
  unfold laser_writes, clear_writes, trace_writes.
  intros H. split; intros ->; refute_writes H.
Qed.

Lemma slide_writes_ram x y : slide_writes x y → x ≠ "G" ∧ y ≠ "G".
Proof.
  unfold slide_writes.
  intros H. split; intros ->; refute_writes H.
Qed.

(** ** Calls return *)

Lemma move_no_negative_index s dir :
  move s dir ≠ Raise NegativeIndex ∧ move s dir ≠ OutOfFuel.
Proof.
  pose proof (move_post s dir) as H.
  destruct (move s dir) as [a|[]|]; simpl in H; done.
Qed.

Lemma update_lasers_no_negative_index s :
  update_lasers s ≠ Raise NegativeIndex ∧ update_lasers s ≠ OutOfFuel
  ∧ update_lasers s ≠ Raise TypeError.
Proof.
  pose proof (update_lasers_post s) as H.
  destruct (update_lasers s) as [a|[]|]; simpl in H; done.
Qed.

Lemma move_returns s dir :
  rectangular s = true → char_in dir "hjkl" = true →
  ∃ s' e, move s dir = Ok (s', e) ∧ writes move_writes s s'.
Proof.
  intros Hrect Hdir. pose proof (move_post s dir) as H.
  destruct (move s dir) as [[s' e]|[]|]; simpl in H;
    try done; try congruence. eauto.
Qed.

Lemma update_lasers_returns s :
  rectangular s = true →
  ∃ s', update_lasers s = Ok s' ∧ writes laser_writes s s'.
Proof.
  intros Hrect. pose proof (update_lasers_post s) as H.
  destruct (update_lasers s) as [s'|[]|]; simpl in H;
    try done; try congruence. eauto.
Qed.

Lemma move_writes_of_Ok s dir s' e :
  move s dir = Ok (s', e) → writes move_writes s s'.
Proof. intros H. pose proof (move_post s dir) as Hp. by rewrite H in Hp. Qed.

Lemma update_lasers_writes_of_Ok s s' :
  update_lasers s = Ok s' → writes laser_writes s s'.
Proof. intros H. pose proof (update_lasers_post s) as Hp. by rewrite H in Hp. Qed.

(** ** Bounds safety *)

(** C10.  On a non-empty rectangular grid and for a direction among
    [h], [j], [k], [l], [move] and [update_lasers] return normally and keep
    the shape of the grid.  In this model a subscript outside
    [0 .. len - 1], in a row or in the grid, is an exception
    ([subscript_Ok]), so a normal return means that every tile read and
    written lay inside the grid.  For any other symbol [next_pos] yields no
    position. *)
Theorem accesses_in_bounds (s : grid) (dir : ascii) :
  rectangular s = true →
  char_in dir "hjkl" = true →
  (∃ s' e, move s dir = Ok (s', e) ∧ shape s' = shape s) ∧
  (∃ s', update_lasers s = Ok s' ∧ shape s' = shape s) ∧
  (∀ row col d, char_in d "hjkl" = false → next_pos row col d = None).
Proof.
  intros Hrect Hdir. split; [|split].
  - destruct (move_returns s dir Hrect Hdir) as (s' & e & Hm & Hw).
    exists s', e. split; [done | by eapply writes_shape].
  - destruct (update_lasers_returns s Hrect) as (s' & Hu & Hw).
    exists s'. split; [done | by eapply writes_shape].
  - intros row col d. apply next_pos_None.
Qed.

Lemma accesses_in_bounds_witness :
  let s := [["G"; " "; "w"; " "]; [">"; " "; " "; "F"]] in
  (∃ s' e, move s "l" = Ok (s', e) ∧ shape s' = shape s) ∧
  (∃ s', update_lasers s = Ok s' ∧ shape s' = shape s) ∧
  (∀ row col d, char_in d "hjkl" = false → next_pos row col d = None).
Proof.
  apply (accesses_in_bounds [["G"; " "; "w"; " "]; [">"; " "; " "; "F"]] "l");
    reflexivity.
Defined.

(** ** Finish tiles *)

Lemma at_pos_Ok_in_bounds s height width row col x :
  rect s height width → at_pos s row col = Ok x →
  in_bounds height width row col = true.
Proof.
  intros [Hh Hw] (Hi & Hj & l & Hl & Hx)%at_pos_Ok.
  apply in_bounds_true. unfold shape in *. rewrite length_fmap in Hh.
  pose proof (lookup_lt_Some _ _ _ Hl). pose proof (lookup_lt_Some _ _ _ Hx).
  assert (Z.of_nat (length l) = width) as Hlen.
  { rewrite Forall_forall in Hw. apply Hw.
    apply list_elem_of_fmap. exists l. split; [done|].
    by eapply list_elem_of_lookup_2. }
  lia.
Qed.

(** Finish ahead of the ram: the tile of the ram becomes [@], Finish stays
    and the answer is [_victory]. *)
Lemma finish_ahead_wins (s : grid) (dir : ascii)
    (row col : Z) (ps : list (Z * Z)) (next_row next_col : Z) :
  rectangular s = true →
  find_pos s "G" = (row, col) :: ps →
  next_pos row col dir = Some (next_row, next_col) →
  at_pos s next_row next_col = Ok "F" →
  ∃ s', set_at_pos s row col "@" = Ok s' ∧ move s dir = Ok (s', _victory).
Proof.
  intros Hrect Hram Hn Hc.
  destruct (bounds_result s) as [[-> _]|(l0 & s0 & Hs & Hbounds)]; [done|].
  assert (rect s (Z.of_nat (length s)) (Z.of_nat (length l0))) as Hr.
  { rewrite Hs. apply rect_rectangular. by rewrite <- Hs. }
  assert (at_pos s row col = Ok "G") as Hg.
  { apply elem_of_find_pos. rewrite Hram. by left. }
  destruct (set_at_pos_defined s row col "G" "@" Hg) as [s' Hs'].
  exists s'. split; [done|].
  unfold move. rewrite Hbounds. simpl. rewrite Hram.
  pose proof (walk_fuel_pos (Z.of_nat (length s)) (Z.of_nat (length l0))).
  destruct (walk_fuel _ _) as [|fuel]; [lia|].
  simpl. rewrite Hn. simpl.
  rewrite (at_pos_Ok_in_bounds _ _ _ _ _ _ Hr Hc), Hc. simpl.
  by rewrite Hs'.
Qed.


(** C9.  [move], in any direction, and [update_lasers] leave the Finish
    tiles alone: the positions holding [F] after the call are the positions
    that held it before, so every Finish tile is still one and their number
    is unchanged.  On a rectangular grid and a direction among [h], [j],
    [k], [l] both calls do return.  On victory it is the tile of the ram
    that becomes [@]; the Finish tile ahead is still there. *)
Theorem finish_tiles_kept (s : grid) (dir : ascii) :
  (∀ s' e, move s dir = Ok (s', e) →
     find_pos s' "F" = find_pos s "F" ∧
     (∀ i j, at_pos s i j = Ok "F" → at_pos s' i j = Ok "F") ∧
     length (find_pos s' "F") = length (find_pos s "F")) ∧
  (∀ s', update_lasers s = Ok s' →
     find_pos s' "F" = find_pos s "F" ∧
     (∀ i j, at_pos s i j = Ok "F" → at_pos s' i j = Ok "F") ∧
     length (find_pos s' "F") = length (find_pos s "F")) ∧
  (rectangular s = true → char_in dir "hjkl" = true →
     (∃ s' e, move s dir = Ok (s', e)) ∧ (∃ s', update_lasers s = Ok s')) ∧
  (∀ row col ps next_row next_col,
     rectangular s = true →
     find_pos s "G" = (row, col) :: ps →
     next_pos row col dir = Some (next_row, next_col) →
     at_pos s next_row next_col = Ok "F" →
     ∃ s', move s dir = Ok (s', _victory) ∧
           at_pos s' row col = Ok "@" ∧
           at_pos s' next_row next_col = Ok "F").
Proof.
  assert (∀ s', find_pos s' "F" = find_pos s "F" →
     find_pos s' "F" = find_pos s "F" ∧
     (∀ i j, at_pos s i j = Ok "F" → at_pos s' i j = Ok "F") ∧
     length (find_pos s' "F") = length (find_pos s "F")) as Hkept.
  { intros s' Heq. split; [done|]. split; [|by rewrite Heq].
    intros i j Hf. apply elem_of_find_pos. rewrite Heq.
    by apply elem_of_find_pos. }
  assert (∀ s' e, move s dir = Ok (s', e) →
            find_pos s' "F" = find_pos s "F") as Hmove.
  { intros s' e Hm%move_writes_of_Ok.
    eapply writes_find_pos; [apply move_writes_finish | done]. }
  split; [|split; [|split; [intros Hrect Hdir; split|]]].
  - intros s' e Hm. eapply Hkept, Hmove, Hm.
  - intros s' Hu%update_lasers_writes_of_Ok. apply Hkept.
    eapply writes_find_pos; [apply laser_writes_finish | done].
  - destruct (move_returns s dir) as (s' & e & Hm & _); eauto.
  - destruct (update_lasers_returns s) as (s' & Hu & _); eauto.
  - intros row col ps next_row next_col Hrect Hram Hn Hf.
    destruct (finish_ahead_wins s dir _ _ _ _ _ Hrect Hram Hn Hf)
      as (s' & Hset & Hm).
    exists s'. split; [done|]. split; [by eapply at_pos_set_eq|].
    apply elem_of_find_pos. rewrite (Hmove _ _ Hm). by apply elem_of_find_pos.
Qed.

Lemma finish_tiles_kept_witness :
  let s := [["G"; " "; " "; "F"]] in
  find_pos [["."; "."; "@"; "F"]] "F" = find_pos s "F" ∧
  ((∃ s' e, move s "l" = Ok (s', e)) ∧ (∃ s', update_lasers s = Ok s')) ∧
  (∃ s', move [["G"; "F"]] "l" = Ok (s', _victory) ∧
         at_pos s' 0 0 = Ok "@" ∧ at_pos s' 0 1 = Ok "F").
Proof.
  split; [|split].
  - destruct (finish_tiles_kept [["G"; " "; " "; "F"]] "l") as (Hm & _).
    apply (Hm _ _victory). vm_compute. reflexivity.
  - destruct (finish_tiles_kept [["G"; " "; " "; "F"]] "l") as (_ & _ & Hret & _).
    apply Hret; reflexivity.
  - destruct (finish_tiles_kept [["G"; "F"]] "l") as (_ & _ & _ & Hwin).
    apply (Hwin 0 0 [] 0 1); reflexivity.
Defined.

(** ** The sliding weight *)

(** The slide only touches the tile of the weight and tiles further along:
    a tile with more room ahead of it than the weight keeps its content. *)
Lemma slide_loop_frame height width dir fuel s row col s' :
  slide_loop fuel height width s row col dir = Ok s' →
  ∀ i j, (room height width row col dir < room height width i j dir)%nat →
         at_pos s' i j = at_pos s i j.
Proof.
  revert s row col. induction fuel as [|fuel IH]; intros s row col; [done|].
  simpl. destruct (next_pos row col dir) as [[row' col']|] eqn:Hn; [|done].
  simpl. destruct (in_bounds height width row' col') eqn:Hb; simpl;
    [|by intros [= ->]].
  pose proof (room_next _ _ _ _ _ _ _ Hn Hb) as Hroom.
  destruct (at_pos s row' col') as [nc| |]; simpl; [|done..].
  assert (∀ i j, (room height width row col dir < room height width i j dir)%nat
            → (row, col) ≠ (i, j) ∧ (row', col') ≠ (i, j)) as Hfar.
  { intros i j Hlt. split; intros [= <- <-]; lia. }
  destruct (char_in nc " _.x|-+"); [|destruct (char_in nc "o")].
  - destruct (set_at_pos s row col " ") as [s1| |] eqn:Hs1; simpl; [|done..].
    destruct (set_at_pos s1 row' col' "w") as [s2| |] eqn:Hs2; simpl; [|done..].
    intros Hrec i j Hlt. destruct (Hfar i j Hlt) as [Hne Hne'].
    rewrite (IH _ _ _ Hrec) by lia.
    rewrite (at_pos_set_ne _ _ _ _ _ _ _ Hs2 Hne').
    by rewrite (at_pos_set_ne _ _ _ _ _ _ _ Hs1 Hne).
  - destruct (set_at_pos s row col " ") as [s1| |] eqn:Hs1; simpl; [|done..].
    intros Hs2 i j Hlt. destruct (Hfar i j Hlt) as [Hne Hne'].
    rewrite (at_pos_set_ne _ _ _ _ _ _ _ Hs2 Hne').
    by rewrite (at_pos_set_ne _ _ _ _ _ _ _ Hs1 Hne).
  - by intros [= ->].
Qed.

(** After the slide the tile where the weight started is either untouched
    (the weight could not move) or Floor. *)
Lemma slide_loop_start height width dir fuel s row col s' :
  slide_loop fuel height width s row col dir = Ok s' →
  s' = s ∨ at_pos s' row col = Ok " ".
Proof.
  destruct fuel as [|fuel]; [done|].
  simpl. destruct (next_pos row col dir) as [[row' col']|] eqn:Hn; [|done].
  simpl. destruct (in_bounds height width row' col') eqn:Hb; simpl;
    [|intros [= ->]; by left].
  pose proof (room_next _ _ _ _ _ _ _ Hn Hb) as Hroom.
  pose proof (next_pos_ne _ _ _ _ _ Hn) as Hne.
  assert ((row', col') ≠ (row, col)) as Hne' by congruence.
  destruct (at_pos s row' col') as [nc| |]; simpl; [|done..].
  destruct (char_in nc " _.x|-+"); [|destruct (char_in nc "o")].
  - destruct (set_at_pos s row col " ") as [s1| |] eqn:Hs1; simpl; [|done..].
    destruct (set_at_pos s1 row' col' "w") as [s2| |] eqn:Hs2; simpl; [|done..].
    intros Hrec. right.
    rewrite (slide_loop_frame _ _ _ _ _ _ _ _ Hrec) by lia.
    rewrite (at_pos_set_ne _ _ _ _ _ _ _ Hs2 Hne').
    by eapply at_pos_set_eq.
  - destruct (set_at_pos s row col " ") as [s1| |] eqn:Hs1; simpl; [|done..].
    intros Hs2. right.
    rewrite (at_pos_set_ne _ _ _ _ _ _ _ Hs2 Hne').
    by eapply at_pos_set_eq.
  - intros [= ->]. by left.
Qed.

Lemma slide_loop_returns height width dir s row col :
  rect s height width → char_in dir "hjkl" = true →
  at_pos s row col = Ok "w" →
  ∃ s', slide_loop (walk_fuel height width) height width s row col dir = Ok s'
        ∧ writes slide_writes s s'.
Proof.
  intros Hrect Hdir Hw.
  pose proof (slide_loop_post height width dir (shape s)
                (walk_fuel height width) s row col eq_refl Hw) as H.
  destruct (slide_loop _ _ _ s row col dir) as [s'|[]|]; simpl in H.
  - eexists. split; [done|]. apply H; [|apply walk_fuel_pos].
    intros. by apply room_fuel.
  - exfalso. apply H; [| apply walk_fuel_pos | apply Hrect].
    intros. by apply room_fuel.
  - exfalso. rewrite Hdir in H. discriminate H; [|apply walk_fuel_pos].
    intros. by apply room_fuel.
  - exfalso. apply H; [|apply walk_fuel_pos]. intros. by apply room_fuel.
  - exfalso. apply H; [|apply walk_fuel_pos]. intros. by apply room_fuel.
Qed.

Lemma move_loop_sliding height width dir fuel s row col next_row next_col :
  next_pos row col dir = Some (next_row, next_col) →
  in_bounds height width next_row next_col = true →
  at_pos s next_row next_col = Ok "w" →
  move_loop (S fuel) height width s row col dir =
    (s' ← slide_loop (walk_fuel height width) height width s
            next_row next_col dir;
     Ok (s', _unfinished)).
Proof. intros Hn Hb Hw. simpl. rewrite Hn. simpl. by rewrite Hb, Hw. Qed.

Lemma next_pos_delta dir :
  char_in dir "hjkl" = true →
  ∃ dr dc, (dr ≠ 0 ∨ dc ≠ 0) ∧
           ∀ row col, next_pos row col dir = Some (row + dr, col + dc).
Proof.
  unfold next_pos, char_in. simpl.
  destruct (Ascii.eqb dir "h"); [exists 0, (-1); split; [lia|];
    intros; do 2 f_equal; lia|].
  destruct (Ascii.eqb dir "l"); [exists 0, 1; split; [lia|];
    intros; do 2 f_equal; lia|].
  destruct (Ascii.eqb dir "k"); [exists (-1), 0; split; [lia|];
    intros; do 2 f_equal; lia|].
  destruct (Ascii.eqb dir "j"); [exists 1, 0; split; [lia|];
    intros; do 2 f_equal; lia|].
  done.
Qed.

Lemma ahead_delta dir dr dc :
  (∀ row col, next_pos row col dir = Some (row + dr, col + dc)) →
  ∀ k row col,
    ahead k row col dir =
      Some (row + Z.of_nat k * dr, col + Z.of_nat k * dc).
Proof.
  intros Hn. induction k as [|k IH]; intros row col.
  - simpl. do 2 f_equal; lia.
  - simpl. rewrite Hn, IH. do 2 f_equal; lia.
Qed.

Lemma ahead_inj dir a b row col p :
  char_in dir "hjkl" = true →
  ahead a row col dir = Some p → ahead b row col dir = Some p → a = b.
Proof.
  intros (dr & dc & Hd & Hn)%next_pos_delta.
  rewrite !(ahead_delta dir dr dc Hn). intros [= <-] [= Hr Hc]. nia.
Qed.

Lemma ahead_next dir k row col row' col' :
  next_pos row col dir = Some (row', col') →
  ahead (S k) row col dir = ahead k row' col' dir.
Proof. intros Hn. simpl. by rewrite Hn. Qed.

Lemma run_of_frame free dir s s' n row col :
  (∀ k pr pc, (1 ≤ k ≤ n)%nat → ahead k row col dir = Some (pr, pc) →
              at_pos s' pr pc = at_pos s pr pc) →
  run_of free s' n row col dir = run_of free s n row col dir.
Proof.
  revert row col. induction n as [|n IH]; intros row col Hsame; [done|].
  simpl. destruct (next_pos row col dir) as [[row' col']|] eqn:Hn; [|done].
  rewrite (Hsame 1%nat row' col') by (try lia; simpl; by rewrite Hn).
  rewrite (IH row' col'); [done|].
  intros k pr pc Hk Hp. apply (Hsame (S k)); [lia|].
  by rewrite (ahead_next _ _ _ _ _ _ Hn).
Qed.

(** The slide, tile by tile: with [n] free tiles ahead of the weight and
    the tile after them not free, the weight goes [n] tiles far. *)
Lemma slide_loop_run height width dir n :
  char_in dir "hjkl" = true →
  ∀ fuel s row col qr qc,
    rect s height width →
    at_pos s row col = Ok "w" →
    (n < fuel)%nat →
    run_of " _.x|-+" s n row col dir = true →
    ahead (S n) row col dir = Some (qr, qc) →
    (∀ c, at_pos s qr qc = Ok c → char_in c " _.x|-+" = false) →
    ∃ s', slide_loop fuel height width s row col dir = Ok s' ∧
          slid s s' n row col dir qr qc.
Proof.
  intros Hdir. induction n as [|n IH];
    intros fuel s row col qr qc Hrect Hw Hfuel Hrun Hq Hstop;
    (destruct fuel as [|fuel]; [lia|]).
  - simpl in Hq.
    destruct (next_pos row col dir) as [[r c]|] eqn:Hn; [|done].
    injection Hq as -> ->.
    pose proof (next_pos_ne _ _ _ _ _ Hn) as Hne.
    simpl. rewrite Hn. simpl.
    destruct (in_bounds height width qr qc) eqn:Hb; simpl.
    2:{ exists s. split; [done|]. split; [intros; lia|]. split; [|done].
        exists row, col. split; [done|]. split; [|done].
        intros Ho. apply (at_pos_Ok_in_bounds _ _ _ _ _ _ Hrect) in Ho.
        congruence. }
    destruct (at_pos_in_bounds s _ _ _ _ Hrect Hb) as [nc Hnc].
    rewrite Hnc. simpl. rewrite (Hstop _ Hnc).
    destruct (char_in nc "o") eqn:Ho.
    + assert (nc = "o") as -> by (clear -Ho; char_cases).
      destruct (set_at_pos_defined s row col "w" " " Hw) as [s1 Hs1].
      rewrite Hs1. simpl.
      pose proof Hnc as Hnc1.
      rewrite <- (at_pos_set_ne _ _ _ _ _ _ _ Hs1 Hne) in Hnc1.
      destruct (set_at_pos_defined s1 qr qc "o" "_" Hnc1) as [s2 Hs2].
      exists s2. split; [done|]. split; [intros; lia|]. split.
      * exists row, col. split; [done|]. split; [|done].
        intros _. split; [|by eapply at_pos_set_eq].
        rewrite (at_pos_set_ne _ _ _ _ _ _ _ Hs2) by congruence.
        by eapply at_pos_set_eq.
      * intros i j Hfar Hhole.
        rewrite (at_pos_set_ne _ _ _ _ _ _ _ Hs2)
          by (intros Heq; by apply (Hhole Hnc)).
        rewrite (at_pos_set_ne _ _ _ _ _ _ _ Hs1); [done|].
        intros Heq. by apply (Hfar 0%nat); [lia | rewrite <- Heq].
    + exists s. split; [done|]. split; [intros; lia|]. split; [|done].
      exists row, col. split; [done|]. split; [|done].
      intros Hhole. rewrite Hhole in Hnc. injection Hnc as <-. done.
  - simpl in Hrun.
    destruct (next_pos row col dir) as [[r c]|] eqn:Hn; [|done].
    destruct (at_pos s r c) as [x| |] eqn:Hx; [|done..].
    apply andb_true_iff in Hrun as [Hfree Hrun].
    pose proof (next_pos_ne _ _ _ _ _ Hn) as Hne.
    assert ((r, c) ≠ (row, col)) as Hne' by congruence.
    rewrite (ahead_next _ _ _ _ _ _ Hn) in Hq.
    assert (∀ k, ahead k r c dir ≠ Some (row, col)) as Hback.
    { intros k Hk. rewrite <- (ahead_next _ _ _ _ _ _ Hn) in Hk.
      by pose proof (ahead_inj dir (S k) 0 row col _ Hdir Hk eq_refl). }
    assert (∀ k, (1 ≤ k)%nat → ahead k r c dir ≠ Some (r, c)) as Hon.
    { intros k Hk Hp.
      pose proof (ahead_inj dir k 0 r c _ Hdir Hp eq_refl). lia. }
    destruct (set_at_pos_defined s row col "w" " " Hw) as [s1 Hs1].
    pose proof Hx as Hx1.
    rewrite <- (at_pos_set_ne _ _ _ _ _ _ _ Hs1 Hne) in Hx1.
    destruct (set_at_pos_defined s1 r c x "w" Hx1) as [s2 Hs2].
    assert (∀ i j, (i, j) ≠ (row, col) → (i, j) ≠ (r, c) →
              at_pos s2 i j = at_pos s i j) as Hsame.
    { intros i j H1 H2.
      rewrite (at_pos_set_ne _ _ _ _ _ _ _ Hs2) by congruence.
      by rewrite (at_pos_set_ne _ _ _ _ _ _ _ Hs1) by congruence. }
    assert (∀ k pr pc, (1 ≤ k)%nat → ahead k r c dir = Some (pr, pc) →
              at_pos s2 pr pc = at_pos s pr pc) as Hline.
    { intros k pr pc Hk Hp. apply Hsame; intros [= -> ->].
      - by apply (Hback k).
      - by apply (Hon k). }
    assert (rect s2 height width) as Hrect2.
    { apply (rect_shape s). 2: done.
      rewrite (set_at_pos_shape _ _ _ _ _ Hs2).
      by rewrite (set_at_pos_shape _ _ _ _ _ Hs1). }
    destruct (IH fuel s2 r c qr qc Hrect2) as (s' & Hslide & Hk & Hlast & Hframe).
    { by eapply at_pos_set_eq. }
    { lia. }
    { rewrite (run_of_frame _ _ s); [done|]. intros k pr pc [? _]. by apply Hline. }
    { done. }
    { intros x'. rewrite (Hline (S n)) by (done || lia). apply Hstop. }
    assert (at_pos s2 qr qc = at_pos s qr qc) as Hqsame
      by (apply (Hline (S n)); [lia | done]).
    exists s'. split.
    { simpl. rewrite Hn. simpl.
      rewrite (at_pos_Ok_in_bounds _ _ _ _ _ _ Hrect Hx), Hx. simpl.
      rewrite Hfree, Hs1. simpl. by rewrite Hs2. }
    split; [|split].
    + intros [|k] pr pc Hlt Hp.
      * injection Hp as <- <-.
        rewrite Hframe.
        -- rewrite (at_pos_set_ne _ _ _ _ _ _ _ Hs2) by done.
           by eapply at_pos_set_eq.
        -- intros k _. apply Hback.
        -- intros _ [= <- <-]. by apply (Hback (S n)).
      * rewrite (ahead_next _ _ _ _ _ _ Hn) in Hp.
        apply (Hk k); [lia | done].
    + destruct Hlast as (pr & pc & Hp & Hhole & Hkeep).
      exists pr, pc. rewrite (ahead_next _ _ _ _ _ _ Hn).
      rewrite Hqsame in Hhole, Hkeep. done.
    + intros i j Hfar Hhole. rewrite Hframe.
      * apply Hsame.
        -- intros Heq. by apply (Hfar 0%nat); [lia | rewrite Heq].
        -- intros Heq. apply (Hfar 1%nat); [lia|].
           simpl. by rewrite Hn, Heq.
      * intros k Hle. rewrite <- (ahead_next _ _ _ _ _ _ Hn).
        apply Hfar. lia.
      * by rewrite Hqsame.
Qed.

Lemma run_of_room height width dir s n row col :
  rect s height width →
  run_of " _.x|-+" s n row col dir = true →
  (n ≤ room height width row col dir)%nat.
Proof.
  intros Hrect. revert row col. induction n as [|n IH]; intros row col; [lia|].
  simpl. destruct (next_pos row col dir) as [[r c]|] eqn:Hn; [|done].
  destruct (at_pos s r c) as [x| |] eqn:Hx; [|done..].
  intros [_ Hrun%IH]%andb_true_iff.
  pose proof (at_pos_Ok_in_bounds _ _ _ _ _ _ Hrect Hx) as Hb.
  pose proof (room_next _ _ _ _ _ _ _ Hn Hb). lia.
Qed.

(** C1, as the code has it.  When the tile ahead of the ram is a sliding
    weight, [move] pushes the weight as far as it goes and answers
    [_unfinished]: with [n] tiles of Floor, Rubble, Trail, trap or beam
    ahead of the weight and the tile after them of another kind or outside
    the grid, the tiles that the weight has left hold Floor and the weight
    is on the last of the [n] tiles; if the tile after them is a hole, the
    weight is gone, Floor on that last tile as well, and the hole is
    Rubble.  Every other tile is as it was.  The ram does not advance: the
    tiles holding [G] are the same before and after, and the ram is still
    on its tile; without a free tile and without a hole ahead of the
    weight ([n = 0]) nothing changes at all. *)
Theorem sliding_weight_push (s : grid) (dir : ascii)
    (row col : Z) (ps : list (Z * Z)) (next_row next_col : Z)
    (n : nat) (qr qc : Z) :
  rectangular s = true →
  find_pos s "G" = (row, col) :: ps →
  next_pos row col dir = Some (next_row, next_col) →
  at_pos s next_row next_col = Ok "w" →
  run_of " _.x|-+" s n next_row next_col dir = true →
  ahead (S n) next_row next_col dir = Some (qr, qc) →
  (∀ c, at_pos s qr qc = Ok c → char_in c " _.x|-+" = false) →
  ∃ s',
    move s dir = Ok (s', _unfinished) ∧
    find_pos s' "G" = find_pos s "G" ∧
    at_pos s' row col = Ok "G" ∧
    (∀ k pr pc, (k < n)%nat → ahead k next_row next_col dir = Some (pr, pc) →
                at_pos s' pr pc = Ok " ") ∧
    (∃ pr pc, ahead n next_row next_col dir = Some (pr, pc) ∧
       (at_pos s qr qc = Ok "o" →
          at_pos s' pr pc = Ok " " ∧ at_pos s' qr qc = Ok "_") ∧
       (at_pos s qr qc ≠ Ok "o" → at_pos s' pr pc = Ok "w")) ∧
    (∀ i j, 0 <= i → 0 <= j →
            (∀ k, (k ≤ n)%nat → ahead k next_row next_col dir ≠ Some (i, j)) →
            (at_pos s qr qc = Ok "o" → (i, j) ≠ (qr, qc)) →
            at_pos s' i j = at_pos s i j) ∧
    (n = 0%nat → at_pos s qr qc ≠ Ok "o" → s' = s).
Proof.
  intros Hrect Hram Hn Hw Hrun Hq Hstop.
  destruct (bounds_result s) as [[-> _]|(l0 & s0 & Hs & Hbounds)]; [done|].
  set (height := Z.of_nat (length s)) in *.
  set (width := Z.of_nat (length l0)) in *.
  assert (rect s height width) as Hr.
  { subst height width. rewrite Hs. apply rect_rectangular. by rewrite <- Hs. }
  assert (char_in dir "hjkl" = true) as Hdir.
  { destruct (char_in dir "hjkl") eqn:Hd; [done|].
    apply (next_pos_None row col) in Hd. congruence. }
  pose proof (at_pos_Ok_in_bounds _ _ _ _ _ _ Hr Hw) as Hb.
  destruct (slide_loop_run height width dir n Hdir (walk_fuel height width)
              s next_row next_col qr qc Hr Hw) as (s' & Hslide & Hslid);
    try done.
  { pose proof (run_of_room _ _ _ _ _ _ _ Hr Hrun).
    pose proof (room_fuel _ _ _ _ dir Hb). lia. }
  destruct (slide_loop_returns height width dir s next_row next_col Hr Hdir Hw)
    as (s'' & Hslide' & Hwrites).
  assert (s'' = s') as -> by congruence.
  assert (find_pos s' "G" = find_pos s "G") as Hsame.
  { eapply writes_find_pos; [apply slide_writes_ram | done]. }
  destruct Hslid as (Hleft & Hlast & Hframe).
  exists s'. split; [|split; [|split; [|split; [|split; [|split]]]]]; try done.
  - unfold move. rewrite Hbounds. simpl. rewrite Hram.
    pose proof (walk_fuel_pos height width) as Hpos.
    destruct (walk_fuel height width) as [|fuel] eqn:Hfuel; [lia|].
    rewrite (move_loop_sliding _ _ _ _ _ _ _ next_row next_col); try done.
    by rewrite Hfuel, Hslide.
  - apply elem_of_find_pos. rewrite Hsame, Hram. by left.
  - intros i j _ _. apply Hframe.
  - intros -> Hhole. simpl in Hslide.
    pose proof (walk_fuel_pos height width) as Hpos.
    destruct (walk_fuel height width) as [|fuel] eqn:Hfuel; [lia|].
    simpl in Hq, Hslide.
    destruct (next_pos next_row next_col dir) as [[r c]|]; [|done].
    injection Hq as -> ->. simpl in Hslide.
    destruct (in_bounds height width qr qc); simpl in Hslide; [|congruence].
    destruct (at_pos s qr qc) as [nc| |] eqn:Hnc; simpl in Hslide; [|done..].
    rewrite (Hstop nc eq_refl) in Hslide.
    destruct (char_in nc "o") eqn:Ho; [|congruence].
    exfalso. apply Hhole. f_equal. clear -Ho. char_cases.
Qed.

Lemma sliding_weight_push_witness :
  (∃ s',
    move [["G"; "w"; " "; "x"; "F"]] "l" = Ok (s', _unfinished) ∧
    find_pos s' "G" = find_pos [["G"; "w"; " "; "x"; "F"]] "G" ∧
    at_pos s' 0 0 = Ok "G" ∧
    (∀ k pr pc, (k < 2)%nat → ahead k 0 1 "l" = Some (pr, pc) →
                at_pos s' pr pc = Ok " ") ∧
    (∃ pr pc, ahead 2 0 1 "l" = Some (pr, pc) ∧
       (at_pos [["G"; "w"; " "; "x"; "F"]] 0 4 = Ok "o" →
          at_pos s' pr pc = Ok " " ∧ at_pos s' 0 4 = Ok "_") ∧
       (at_pos [["G"; "w"; " "; "x"; "F"]] 0 4 ≠ Ok "o" →
          at_pos s' pr pc = Ok "w")) ∧
    (∀ i j, 0 <= i → 0 <= j →
            (∀ k, (k ≤ 2)%nat → ahead k 0 1 "l" ≠ Some (i, j)) →
            (at_pos [["G"; "w"; " "; "x"; "F"]] 0 4 = Ok "o" →
               (i, j) ≠ (0, 4)) →
            at_pos s' i j = at_pos [["G"; "w"; " "; "x"; "F"]] i j) ∧
    (2%nat = 0%nat → at_pos [["G"; "w"; " "; "x"; "F"]] 0 4 ≠ Ok "o" →
       s' = [["G"; "w"; " "; "x"; "F"]])) ∧
  (∃ s',
    move [["F"]; ["o"]; [" "]; ["w"]; ["G"]] "k" = Ok (s', _unfinished) ∧
    find_pos s' "G" = find_pos [["F"]; ["o"]; [" "]; ["w"]; ["G"]] "G" ∧
    at_pos s' 4 0 = Ok "G" ∧
    (∀ k pr pc, (k < 1)%nat → ahead k 3 0 "k" = Some (pr, pc) →
                at_pos s' pr pc = Ok " ") ∧
    (∃ pr pc, ahead 1 3 0 "k" = Some (pr, pc) ∧
       (at_pos [["F"]; ["o"]; [" "]; ["w"]; ["G"]] 1 0 = Ok "o" →
          at_pos s' pr pc = Ok " " ∧ at_pos s' 1 0 = Ok "_") ∧
       (at_pos [["F"]; ["o"]; [" "]; ["w"]; ["G"]] 1 0 ≠ Ok "o" →
          at_pos s' pr pc = Ok "w")) ∧
    (∀ i j, 0 <= i → 0 <= j →
            (∀ k, (k ≤ 1)%nat → ahead k 3 0 "k" ≠ Some (i, j)) →
            (at_pos [["F"]; ["o"]; [" "]; ["w"]; ["G"]] 1 0 = Ok "o" →
               (i, j) ≠ (1, 0)) →
            at_pos s' i j = at_pos [["F"]; ["o"]; [" "]; ["w"]; ["G"]] i j) ∧
    (1%nat = 0%nat →
       at_pos [["F"]; ["o"]; [" "]; ["w"]; ["G"]] 1 0 ≠ Ok "o" →
       s' = [["F"]; ["o"]; [" "]; ["w"]; ["G"]])).
Proof.
  split.
  - apply (sliding_weight_push [["G"; "w"; " "; "x"; "F"]] "l"
             0 0 [] 0 1 2 0 4); try reflexivity.
    intros c [= <-]. reflexivity.
  - apply (sliding_weight_push [["F"]; ["o"]; [" "]; ["w"]; ["G"]] "k"
             4 0 [] 3 0 1 1 0); try reflexivity.
    intros c [= <-]. reflexivity.
Defined.

(** C1 as stated fails on a level that passes validation: on [G w _ _ F] a
    move to the right sends the weight next to the finish, and the tile
    where the weight started holds Floor, not the ram, which is still in
    the first column. *)
Lemma sliding_weight_ram_advances_counterexample :
  validate_state [["G"; "w"; " "; " "; "F"]] = Ok (_unfinished, []) ∧
  at_pos [["G"; "w"; " "; " "; "F"]] 0 1 = Ok "w" ∧
  move [["G"; "w"; " "; " "; "F"]] "l"
    = Ok ([["G"; " "; " "; "w"; "F"]], _unfinished) ∧
  at_pos [["G"; " "; " "; "w"; "F"]] 0 1 ≠ Ok "G" ∧
  at_pos [["G"; " "; " "; "w"; "F"]] 0 0 = Ok "G".
Proof. vm_compute. repeat split; discriminate. Qed.

(** ** Validation *)

Lemma count_char_app c l1 l2 :
  count_char c (l1 ++ l2) = (count_char c l1 + count_char c l2)%nat.
Proof. induction l1 as [|t l1 IH]; simpl; [done|]. rewrite IH. lia. Qed.

Lemma counted_nil k : counted k k [].
Proof.
  unfold counted. simpl. rewrite !orb_false_r. repeat split; lia.
Qed.

Lemma counted_app k1 k2 k3 l1 l2 :
  counted k1 k2 l1 → counted k2 k3 l2 → counted k1 k3 (l1 ++ l2).
Proof.
  unfold counted.
  intros (Hi1 & Hg1 & Hv1 & Hd1 & Hf1 & He1) (Hi2 & Hg2 & Hv2 & Hd2 & Hf2 & He2).
  rewrite forallb_app, !count_char_app.
  rewrite Hi2, Hg2, Hv2, Hd2, Hf2, Hi1, Hg1, Hv1, Hd1, Hf1.
  repeat split; try lia.
  - by rewrite negb_andb, orb_assoc.
  - rewrite <- orb_assoc. f_equal.
    destruct (count_char "@" l1), (count_char "@" l2); done.
  - rewrite <- orb_assoc. f_equal.
    destruct (count_char "Y" l1), (count_char "Y" l2); done.
  - intros [H1 H2]%andb_true_iff. by rewrite He2, He1.
Qed.

Lemma counted_tile i j c k : counted k (count_tile i j c k) [c].
Proof.
  unfold counted, count_tile. simpl forallb. simpl count_char.
  rewrite andb_true_r.
  destruct (char_in c _valid_chars) eqn:Hvalid; simpl negb; cbv iota;
    unfold char_in;
    repeat match goal with
      | |- context [Ascii.eqb c ?a] =>
          destruct (Ascii.eqb_spec c a) as [->|?]; simpl
      end;
    rewrite ?orb_false_r, ?orb_true_r;
    repeat split; try done; try lia;
    vm_compute in Hvalid; discriminate.
Qed.

Lemma counted_row i j l k : counted k (count_row i j l k) l.
Proof.
  revert j k. induction l as [|c l IH]; intros j k; simpl.
  - apply counted_nil.
  - apply (counted_app k (count_tile i j c k) _ [c] l);
      [apply counted_tile | apply IH].
Qed.

Lemma counted_rows i s k : counted k (count_rows i s k) (concat s).
Proof.
  revert i k. induction s as [|l s IH]; intros i k; simpl.
  - apply counted_nil.
  - eapply counted_app; [apply counted_row | apply IH].
Qed.

Lemma first_unequal_None i n s :
  first_unequal i n s = None ↔
  forallb (fun m => Nat.eqb m n) (shape s) = true.
Proof.
  revert i. induction s as [|l s IH]; intros i; simpl; [done|].
  destruct (Nat.eqb (length l) n); simpl; [apply IH | done].
Qed.

Lemma first_unequal_Some i0 n s i l :
  first_unequal i0 n s = Some (i, l) →
  ∃ row, s !! (i - i0)%nat = Some row ∧ length row = l ∧ l ≠ n ∧ (i0 ≤ i)%nat ∧
    ∀ (m : nat) row', (m < i - i0)%nat → s !! m = Some row' → length row' = n.
Proof.
  revert i0. induction s as [|l0 s IH]; intros i0; simpl; [done|].
  destruct (Nat.eqb_spec (length l0) n) as [Heq|Hne].
  - intros (row & Hrow & ? & ? & ? & Hbefore)%IH. exists row.
    replace (i - i0)%nat with (S (i - S i0)) by lia.
    repeat split; try done; [lia|].
    intros [|m] row' Hm Hrow'; simpl in Hrow'; [congruence|].
    eapply Hbefore; [|done]. lia.
  - intros [= <- <-]. exists l0. rewrite Nat.sub_diag.
    repeat split; try done. intros m row' Hm. lia.
Qed.

Lemma first_unequal_rectangular l0 s0 :
  first_unequal 0 (length l0) (l0 :: s0) = None ↔ rectangular (l0 :: s0) = true.
Proof. by rewrite first_unequal_None. Qed.

(** The answer of [validate_state] on a rectangular grid. *)
Lemma validate_state_rectangular s :
  rectangular s = true →
  ∃ log,
    validate_state s =
      Ok (if negb (all_valid s) then (_invalid, log)
          else if Nat.eqb (tiles "F" s) 0
               then (_invalid, [MsgNoFinish; MsgAtLeastOne])
          else if negb (Nat.eqb (rams s) 1)
               then (_invalid, [MsgGoatCount (rams s); MsgExactlyOne])
          else if (0 <? tiles "@" s)%nat then (_victory, [])
          else if (0 <? tiles "Y" s)%nat then (_defeated, [])
          else (_unfinished, [])).
Proof.
  intros Hrect.
  assert (∃ l0 s0, s = l0 :: s0) as (l0 & s0 & Hs).
  { destruct s; [done | eauto]. }
  assert (subscript s 0 = Ok l0) as Hsub by by subst s.
  assert (first_unequal 0 (length l0) s = None) as Hequal.
  { subst s. by apply first_unequal_rectangular. }
  unfold validate_state. rewrite Hsub. simpl. rewrite Hequal. clear Hsub Hequal.
  pose proof (counted_rows 0 s (Counters false 0 false false 0 []))
    as (Hi & Hg & Hv & Hd & Hf & He).
  set (k := count_rows 0 s _) in *. simpl in Hi, Hg, Hv, Hd, Hf, He.
  fold (all_valid s) in Hi, He.
  exists (errors k). rewrite Hi.
  destruct (all_valid s); simpl; [|done].
  rewrite He by done. rewrite Hf, Hg, Hv, Hd.
  fold (tiles "F" s). fold (tiles "@" s).
  fold (tiles "Y" s). fold (tiles "G" s).
  fold (rams s).
  repeat case_match; done.
Qed.

(** C8, as the code has it.  On a non-empty grid [validate_state] answers
    [_invalid] when the rows are of unequal length, naming the first row
    that differs with its length and the length of row 0; when a tile is
    outside [_valid_chars]; when there is no Finish tile; and when the
    number of ram tiles is not one, naming that number once the earlier
    checks have passed.  Otherwise, all tiles being valid, it answers
    [_victory] if the ram is victorious, [_defeated] if it is defeated, and
    [_unfinished] else. *)
Theorem validate_state_cases (s : grid) :
  s ≠ [] →
  (rectangular s = false →
     ∃ (i : nat) row row0,
       s !! 0%nat = Some row0 ∧ s !! i = Some row ∧
       length row ≠ length row0 ∧
       (∀ (m : nat) row', (m < i)%nat → s !! m = Some row' →
          length row' = length row0) ∧
       validate_state s =
         Ok (_invalid,
             [MsgLineLength i (length row) (length row0); MsgSameLength])) ∧
  (all_valid s = false → ∃ log, validate_state s = Ok (_invalid, log)) ∧
  (tiles "F" s = 0%nat → ∃ log, validate_state s = Ok (_invalid, log)) ∧
  (rams s ≠ 1%nat → ∃ log, validate_state s = Ok (_invalid, log)) ∧
  (rectangular s = true → all_valid s = true → tiles "F" s ≠ 0%nat →
   rams s ≠ 1%nat →
     validate_state s = Ok (_invalid, [MsgGoatCount (rams s); MsgExactlyOne])) ∧
  (rectangular s = true → all_valid s = true → tiles "F" s ≠ 0%nat →
   rams s = 1%nat →
     validate_state s =
       Ok (if (0 <? tiles "@" s)%nat then _victory
           else if (0 <? tiles "Y" s)%nat then _defeated
           else _unfinished, [])).
Proof.
  intros Hne.
  assert (rectangular s = false →
     ∃ (i : nat) row row0,
       s !! 0%nat = Some row0 ∧ s !! i = Some row ∧
       length row ≠ length row0 ∧
       (∀ (m : nat) row', (m < i)%nat → s !! m = Some row' →
          length row' = length row0) ∧
       validate_state s =
         Ok (_invalid,
             [MsgLineLength i (length row) (length row0); MsgSameLength]))
    as Hunequal.
  { intros Hrect. destruct s as [|l0 s0] eqn:Hs; [done|]. rewrite <- Hs in *.
    assert (subscript s 0 = Ok l0) as Hsub by by subst s.
    destruct (first_unequal 0 (length l0) s) as [[i l]|] eqn:Hfirst.
    - destruct (first_unequal_Some _ _ _ _ _ Hfirst)
        as (row & Hrow & <- & ? & _ & Hbefore).
      rewrite Nat.sub_0_r in Hrow, Hbefore. exists i, row, l0.
      split; [by subst s|]. do 3 (split; [done|]).
      unfold validate_state. rewrite Hsub. simpl. by rewrite Hfirst.
    - subst s. apply first_unequal_rectangular in Hfirst. congruence. }
  assert (∀ P : Prop,
     (rectangular s = true →
      ∀ log, validate_state s =
        Ok (if negb (all_valid s) then (_invalid, log)
            else if Nat.eqb (tiles "F" s) 0
                 then (_invalid, [MsgNoFinish; MsgAtLeastOne])
            else if negb (Nat.eqb (rams s) 1)
                 then (_invalid, [MsgGoatCount (rams s); MsgExactlyOne])
            else if (0 <? tiles "@" s)%nat then (_victory, [])
            else if (0 <? tiles "Y" s)%nat then (_defeated, [])
            else (_unfinished, [])) → P) →
     (∀ log, validate_state s = Ok (_invalid, log) → P) → P) as Hcases.
  { intros P Hrect Hbad. destruct (rectangular s) eqn:Hr.
    - destruct (validate_state_rectangular s Hr) as [log Hv]. eauto.
    - destruct (Hunequal eq_refl) as (i & row & row0 & _ & _ & _ & _ & Hv).
      eauto. }
  split; [done|]. split; [|split; [|split; [|split]]].
  - intros Hvalid. apply Hcases; [|eauto]. intros _ log ->.
    rewrite Hvalid. simpl. eauto.
  - intros Hfinish. apply Hcases; [|eauto]. intros _ log ->.
    rewrite Hfinish. destruct (all_valid s); simpl; eauto.
  - intros Hrams. apply Hcases; [|eauto]. intros _ log ->.
    destruct (Nat.eqb_spec (rams s) 1); [done|].
    destruct (all_valid s), (tiles "F" s); simpl; eauto.
  - intros Hrect Hvalid Hfinish Hrams.
    destruct (validate_state_rectangular s Hrect) as [log ->].
    rewrite Hvalid. simpl.
    destruct (Nat.eqb_spec (tiles "F" s) 0); [done|].
    destruct (Nat.eqb_spec (rams s) 1); done.
  - intros Hrect Hvalid Hfinish Hrams.
    destruct (validate_state_rectangular s Hrect) as [log ->].
    rewrite Hvalid, Hrams. simpl.
    destruct (Nat.eqb_spec (tiles "F" s) 0); [done|].
    by repeat case_match.
Qed.

Lemma validate_state_cases_witness :
  validate_state [["G"; " "; "F"]] = Ok (_unfinished, []) ∧
  validate_state [["G"; "G"; "F"]] =
    Ok (_invalid, [MsgGoatCount 2; MsgExactlyOne]) ∧
  (∃ log, validate_state [["G"; " "; " "]] = Ok (_invalid, log)) ∧
  (∃ (i : nat) row row0,
     [["G"; "F"]; ["."]] !! 0%nat = Some row0 ∧
     [["G"; "F"]; ["."]] !! i = Some row ∧
     length row ≠ length row0 ∧
     (∀ (m : nat) row', (m < i)%nat → [["G"; "F"]; ["."]] !! m = Some row' →
        length row' = length row0) ∧
     validate_state [["G"; "F"]; ["."]] =
       Ok (_invalid,
           [MsgLineLength i (length row) (length row0); MsgSameLength])).
Proof.
  split; [|split; [|split]].
  - apply (validate_state_cases [["G"; " "; "F"]]);
      try reflexivity; discriminate.
  - apply (validate_state_cases [["G"; "G"; "F"]]);
      try reflexivity; discriminate.
  - destruct (validate_state_cases [["G"; " "; " "]]) as (_ & _ & Hfinish & _);
      [discriminate|].
    apply Hfinish. reflexivity.
  - apply (validate_state_cases [["G"; "F"]; ["."]]);
      try reflexivity; discriminate.
Defined.

(** C8 as stated fails where it says "otherwise": this grid has rows of
    equal length, one Finish tile and one ram, which is neither victorious
    nor defeated, and yet the answer is [_invalid], because of the tile
    [?]. *)
Lemma validate_otherwise_counterexample :
  rectangular [["G"; "F"; "?"]] = true ∧
  tiles "F" [["G"; "F"; "?"]] = 1%nat ∧
  rams [["G"; "F"; "?"]] = 1%nat ∧
  tiles "@" [["G"; "F"; "?"]] = 0%nat ∧
  tiles "Y" [["G"; "F"; "?"]] = 0%nat ∧
  validate_state [["G"; "F"; "?"]] =
    Ok (_invalid, [MsgInvalidChar "?" 0 2; MsgAllChars]) ∧
  validate_state [["G"; "F"; "?"]] ≠ Ok (_unfinished, []).
Proof. vm_compute. repeat split; discriminate. Qed.

(** ** What stops a beam *)

(** C5, as the code has it.  A sliding weight stops a beam.  The tiles at
    which a trace ends without a mark are those of ["FmMwWY<>^v"]: Finish,
    both walls, both weights, the defeated ram and the emitters; a live ram
    ends it too and becomes [Y]; on any other tile the trace leaves a beam
    tile and goes on from the next position. *)
Theorem trace_stops_at_opaque (fuel : nat) (height width : Z) (s : grid)
    (row col : Z) (dir : ascii) (c : ascii) :
  in_bounds height width row col = true →
  at_pos s row col = Ok c →
  (c = "w" → trace_loop (S fuel) height width s row col dir = Ok s) ∧
  (char_in c "FmMwWY<>^v" = true →
     trace_loop (S fuel) height width s row col dir = Ok s) ∧
  (c = "G" →
     trace_loop (S fuel) height width s row col dir = set_at_pos s row col "Y") ∧
  (char_in c "GFmMwWY<>^v" = false → char_in dir "hjkl" = true →
     ∃ mark s1 row' col',
       char_in mark "-|+" = true ∧
       set_at_pos s row col mark = Ok s1 ∧
       next_pos row col dir = Some (row', col') ∧
       trace_loop (S fuel) height width s row col dir =
         trace_loop fuel height width s1 row' col' dir).
Proof.
  intros Hb Hc.
  assert (char_in c "FmMwWY<>^v" = true →
          trace_loop (S fuel) height width s row col dir = Ok s) as Hopaque.
  { intros Hin. simpl. rewrite Hb, Hc. simpl.
    assert (char_in c "-" = false) as -> by (clear -Hin; char_cases).
    assert (char_in c "|" = false) as -> by (clear -Hin; char_cases).
    assert (Ascii.eqb c "G" = false) as -> by (clear -Hin; char_cases).
    by rewrite Hin. }
  split; [|split; [done|split]].
  - intros ->. by apply Hopaque.
  - intros ->. simpl. by rewrite Hb, Hc.
  - intros Hfree Hdir. simpl. rewrite Hb, Hc. simpl.
    destruct (next_pos row col dir) as [[row' col']|] eqn:Hn;
      [|apply next_pos_None in Hn; congruence].
    assert (Ascii.eqb c "G" = false) as -> by (clear -Hfree; char_cases).
    assert (char_in c "FmMwWY<>^v" = false) as -> by (clear -Hfree; char_cases).
    assert (∀ mark, char_in mark "-|+" = true →
      ∃ s1, set_at_pos s row col mark = Ok s1) as Hset.
    { intros mark _. by eapply set_at_pos_defined. }
    destruct (char_in c "-" && char_in dir "jk");
      [|destruct (char_in c "|" && char_in dir "hl")].
    + destruct (Hset "+" eq_refl) as [s1 Hs1].
      exists "+", s1, row', col'. by rewrite Hs1.
    + destruct (Hset "+" eq_refl) as [s1 Hs1].
      exists "+", s1, row', col'. by rewrite Hs1.
    + destruct (char_in dir "hl") eqn:Hhl; [|destruct (char_in dir "jk") eqn:Hjk].
      * destruct (Hset "-" eq_refl) as [s1 Hs1].
        exists "-", s1, row', col'. by rewrite Hs1.
      * destruct (Hset "|" eq_refl) as [s1 Hs1].
        exists "|", s1, row', col'. by rewrite Hs1.
      * clear -Hdir Hhl Hjk. char_cases.
Qed.

Lemma trace_stops_at_opaque_witness :
  trace_loop 4 1 3 [[">"; "w"; " "]] 0 1 "l" = Ok [[">"; "w"; " "]] ∧
  trace_loop 4 1 3 [[">"; "G"; " "]] 0 1 "l" =
    set_at_pos [[">"; "G"; " "]] 0 1 "Y" ∧
  (∃ mark s1 row' col',
     char_in mark "-|+" = true ∧
     set_at_pos [[">"; "x"; " "]] 0 1 mark = Ok s1 ∧
     next_pos 0 1 "l" = Some (row', col') ∧
     trace_loop 4 1 3 [[">"; "x"; " "]] 0 1 "l" =
       trace_loop 3 1 3 s1 row' col' "l").
Proof.
  split; [|split].
  - apply (trace_stops_at_opaque 3 1 3 [[">"; "w"; " "]] 0 1 "l" "w");
      reflexivity.
  - apply (trace_stops_at_opaque 3 1 3 [[">"; "G"; " "]] 0 1 "l" "G");
      reflexivity.
  - apply (trace_stops_at_opaque 3 1 3 [[">"; "x"; " "]] 0 1 "l" "x");
      reflexivity.
Defined.

(** C5 as stated fails: the beam of [>] meets the sliding weight next to
    it and ends there; the tile behind the weight stays Floor, where
    "mark and continue" would have left beams on both tiles. *)
Lemma sliding_weight_stops_beam_counterexample :
  at_pos [[">"; "w"; " "]] 0 1 = Ok "w" ∧
  update_lasers [[">"; "w"; " "]] = Ok [[">"; "w"; " "]] ∧
  update_lasers [[">"; "w"; " "]] ≠ Ok [[">"; "-"; "-"]].
Proof. vm_compute. repeat split; discriminate. Qed.

(** ** Scenarios *)

(** C6, as the code has it.  On [G _ _ _ F] the commands [llll] end in
    [. . . @ F] with [_victory]: the first move takes the ram to the tile
    before Finish, which becomes [@]; Finish stays.  The non-interactive
    loop stops there; applying the remaining three moves changes
    nothing. *)
Theorem corridor_to_finish :
  run_instr [["G"; " "; " "; " "; "F"]] "llll" _unfinished =
    Ok ([["."; "."; "."; "@"; "F"]], _victory) ∧
  moves [["G"; " "; " "; " "; "F"]] ["l"; "l"; "l"; "l"] _unfinished =
    Ok ([["."; "."; "."; "@"; "F"]], _victory).
Proof. by vm_compute. Qed.

(** C6 as stated fails: the final grid is not [. . . . @]. *)
Lemma corridor_to_finish_counterexample :
  run_instr [["G"; " "; " "; " "; "F"]] "llll" _unfinished ≠
    Ok ([["."; "."; "."; "."; "@"]], _victory) ∧
  moves [["G"; " "; " "; " "; "F"]] ["l"; "l"; "l"; "l"] _unfinished ≠
    Ok ([["."; "."; "."; "."; "@"]], _victory).
Proof. vm_compute. split; discriminate. Qed.

(** C7, as the code has it.  The emitter [<] beams to the left.  On
    [< _ _ _ G] its beam leaves the grid at once and nothing changes; with
    the ram on its left, [G _ _ _ <], one call of [update_lasers] puts a
    horizontal beam on the three tiles in between and turns the ram into
    [Y]. *)
Theorem left_emitter_beam :
  update_lasers [["<"; " "; " "; " "; "G"]] = Ok [["<"; " "; " "; " "; "G"]] ∧
  update_lasers [["G"; " "; " "; " "; "<"]] = Ok [["Y"; "-"; "-"; "-"; "<"]].
Proof. by vm_compute. Qed.

(** C7 as stated fails: on [< _ _ _ G] no beam is placed and the ram
    lives. *)
Lemma left_emitter_beam_counterexample :
  update_lasers [["<"; " "; " "; " "; "G"]] ≠ Ok [["<"; "-"; "-"; "-"; "Y"]].
Proof. vm_compute. discriminate. Qed.

(** ** Entering a beam *)

(** A trap or a horizontal or vertical beam ahead of the ram: the tile of
    the ram becomes [Y] and the answer is [_defeated]. *)
Lemma beam_ahead_defeats (s : grid) (dir : ascii)
    (row col : Z) (ps : list (Z * Z)) (next_row next_col : Z) (c : ascii) :
  rectangular s = true →
  find_pos s "G" = (row, col) :: ps →
  next_pos row col dir = Some (next_row, next_col) →
  at_pos s next_row next_col = Ok c →
  char_in c "x|-" = true →
  ∃ s', set_at_pos s row col "Y" = Ok s' ∧ move s dir = Ok (s', _defeated).
Proof.
  intros Hrect Hram Hn Hc Htrap.
  destruct (bounds_result s) as [[-> _]|(l0 & s0 & Hs & Hbounds)]; [done|].
  assert (rect s (Z.of_nat (length s)) (Z.of_nat (length l0))) as Hr.
  { rewrite Hs. apply rect_rectangular. by rewrite <- Hs. }
  assert (at_pos s row col = Ok "G") as Hg.
  { apply elem_of_find_pos. rewrite Hram. by left. }
  destruct (set_at_pos_defined s row col "G" "Y" Hg) as [s' Hs'].
  exists s'. split; [done|].
  unfold move. rewrite Hbounds. simpl. rewrite Hram.
  pose proof (walk_fuel_pos (Z.of_nat (length s)) (Z.of_nat (length l0))).
  destruct (walk_fuel _ _) as [|fuel]; [lia|].
  simpl. rewrite Hn. simpl.
  rewrite (at_pos_Ok_in_bounds _ _ _ _ _ _ Hr Hc), Hc. simpl.
  assert (char_in c " _." = false) as -> by (clear -Htrap; char_cases).
  assert (char_in c "M" = false) as -> by (clear -Htrap; char_cases).
  assert (char_in c "m" = false) as -> by (clear -Htrap; char_cases).
  assert (char_in c "v^<>" = false) as -> by (clear -Htrap; char_cases).
  assert (char_in c "F" = false) as -> by (clear -Htrap; char_cases).
  by rewrite Htrap, Hs'.
Qed.

(** C2 fails on the code for the crossing beam.  The level below is loaded
    ([update_lasers] puts the crossing [+] right of the emitter [>]); the
    first move destroys the emitter, the second brings the ram next to the
    [+] left behind, and the answer is [_invalid]: the ram is still [G],
    not [Y].  The same on the smallest grid with a [+] ahead of the ram. *)
Theorem beam_cross_ahead_is_invalid :
  update_lasers [[" "; " "; "v"; " "]; ["G"; ">"; " "; " "]; [" "; " "; " "; "F"]] =
    Ok [[" "; " "; "v"; " "]; ["G"; ">"; "+"; "-"]; [" "; " "; "|"; "F"]] ∧
  run_instr [[" "; " "; "v"; " "]; ["G"; ">"; "+"; "-"]; [" "; " "; "|"; "F"]]
    "ll" _unfinished =
    Ok ([[" "; " "; "v"; " "]; ["."; "G"; "+"; "-"]; [" "; " "; "|"; "F"]],
        _invalid) ∧
  move [["G"; "+"; "F"]] "l" = Ok ([["G"; "+"; "F"]], _invalid).
Proof. by vm_compute. Qed.

(** ** The number of rams

    [move] never changes the number of ram tiles, and [update_lasers] keeps
    it on a grid without a victorious ram. *)

Lemma count_char_insert c (l : list ascii) (j : nat) x y :
  l !! j = Some x →
  (count_char c (<[j := y]> l) + (if Ascii.eqb x c then 1 else 0) =
   count_char c l + (if Ascii.eqb y c then 1 else 0))%nat.
Proof.
  revert j. induction l as [|t l IH]; intros [|j] Hj; simpl in *; try done.
  - injection Hj as ->. lia.
  - specialize (IH j Hj). lia.
Qed.

Lemma tiles_insert c (s : grid) (i : nat) l l' :
  s !! i = Some l →
  (tiles c (<[i := l']> s) + count_char c l =
   tiles c s + count_char c l')%nat.
Proof.
  unfold tiles. revert i. induction s as [|l0 s IH]; intros [|i] Hi;
    simpl in *; try done.
  - injection Hi as ->. rewrite !count_char_app. lia.
  - specialize (IH i Hi). rewrite !count_char_app. lia.
Qed.

Lemma tiles_set c s i j x y s' :
  at_pos s i j = Ok x → set_at_pos s i j y = Ok s' →
  (tiles c s' + (if Ascii.eqb x c then 1 else 0) =
   tiles c s + (if Ascii.eqb y c then 1 else 0))%nat.
Proof.
  intros (_ & _ & l & Hl & Hx)%at_pos_Ok [_ (l' & Hl' & ->)]%set_at_pos_Ok.
  assert (l' = l) as -> by congruence.
  pose proof (tiles_insert c s (Z.to_nat i) l (<[Z.to_nat j := y]> l) Hl).
  pose proof (count_char_insert c l (Z.to_nat j) x y Hx). lia.
Qed.

Lemma rams_set s i j x y s' :
  at_pos s i j = Ok x → set_at_pos s i j y = Ok s' →
  (rams s' + ram_weight x = rams s + ram_weight y)%nat.
Proof.
  intros Hx Hs. unfold rams, ram_weight.
  pose proof (tiles_set "G" _ _ _ _ _ _ Hx Hs).
  pose proof (tiles_set "Y" _ _ _ _ _ _ Hx Hs).
  pose proof (tiles_set "@" _ _ _ _ _ _ Hx Hs). lia.
Qed.

Lemma writes_rams (W : ascii → ascii → Prop) s s' :
  (∀ x y, W x y → ram_weight x = ram_weight y) →
  writes W s s' → rams s' = rams s.
Proof.
  intros HW. induction 1 as [|s i j x y s1 s' Hx Hxy Hset _ IH]; [done|].
  pose proof (rams_set _ _ _ _ _ _ Hx Hset). rewrite (HW _ _ Hxy) in *. lia.
Qed.

Lemma slide_writes_weight x y :
  slide_writes x y → ram_weight x = ram_weight y.
Proof.
  intros H. destruct (slide_writes_ram x y H) as [Hx Hy]. revert H.
  unfold slide_writes, ram_weight.
  intros [[-> ->]|[[H ->]|[H ->]]]; try done; clear Hx Hy; char_cases.
Qed.

Lemma no_ram_weight x t :
  char_in x t = true → char_in "G" t = false → char_in "Y" t = false →
  char_in "@" t = false → ram_weight x = 0%nat.
Proof.
  intros Hx HG HY HA. unfold ram_weight.
  destruct (Ascii.eqb_spec x "G") as [->|_]; [congruence|].
  destruct (Ascii.eqb_spec x "Y") as [->|_]; [congruence|].
  destruct (Ascii.eqb_spec x "@") as [->|_]; [congruence|]. done.
Qed.

(** Decomposes a successful sequence of calls, one call at a time. *)
Ltac bind_inv H E :=
  match type of H with
  | (?m ≫= _) = Ok _ =>
      destruct m eqn:E; simpl in H; [|discriminate H..]
  end.

Lemma move_loop_rams height width dir fuel s row col s' e :
  at_pos s row col = Ok "G" →
  move_loop fuel height width s row col dir = Ok (s', e) →
  rams s' = rams s.
Proof.
  revert s row col. induction fuel as [|fuel IH]; intros s row col Hg; [done|].
  simpl. destruct (next_pos row col dir) as [[row' col']|] eqn:Hn; [|done].
  simpl. destruct (in_bounds height width row' col') eqn:Hb; simpl;
    [|by intros [= -> _]].
  pose proof (next_pos_ne _ _ _ _ _ Hn) as Hne.
  assert ((row', col') ≠ (row, col)) as Hne' by congruence.
  destruct (at_pos s row' col') as [c| |] eqn:Hc; simpl; [|done..].
  assert (ram_weight "G" = 1%nat) as HwG by done.
  destruct (char_in c " _.") eqn:Hfloor.
  { intros H. bind_inv H E1. bind_inv H E2.
    rewrite (IH _ row' col') with (2 := H);
      [|rewrite (at_pos_set_ne _ _ _ _ _ _ _ E2 Hne); by eapply at_pos_set_eq].
    pose proof (rams_set _ _ _ _ _ _ Hc E1) as R1.
    rewrite <- (at_pos_set_ne _ _ _ _ _ _ _ E1 Hne') in Hg.
    pose proof (rams_set _ _ _ _ _ _ Hg E2) as R2.
    rewrite (no_ram_weight c _ Hfloor) in R1 by done.
    change (ram_weight ".") with 0%nat in R2. lia. }
  destruct (char_in c "M") eqn:Hwall.
  { intros H. bind_inv H E1. injection H as <- _.
    pose proof (rams_set _ _ _ _ _ _ Hc E1) as R1.
    rewrite (no_ram_weight c _ Hwall) in R1 by done.
    change (ram_weight "m") with 0%nat in R1. lia. }
  destruct (char_in c "m") eqn:Hdamaged.
  { intros H. bind_inv H E1. injection H as <- _.
    pose proof (rams_set _ _ _ _ _ _ Hc E1) as R1.
    rewrite (no_ram_weight c _ Hdamaged) in R1 by done.
    change (ram_weight "_") with 0%nat in R1. lia. }
  destruct (char_in c "v^<>") eqn:Hemitter.
  { intros H. bind_inv H E1. injection H as <- _.
    pose proof (rams_set _ _ _ _ _ _ Hc E1) as R1.
    rewrite (no_ram_weight c _ Hemitter) in R1 by done.
    change (ram_weight "_") with 0%nat in R1. lia. }
  destruct (char_in c "F") eqn:Hfinish.
  { intros H. bind_inv H E1. injection H as <- _.
    pose proof (rams_set _ _ _ _ _ _ Hg E1) as R1.
    change (ram_weight "@") with 1%nat in R1. lia. }
  destruct (char_in c "x|-") eqn:Htrap.
  { intros H. bind_inv H E1. injection H as <- _.
    pose proof (rams_set _ _ _ _ _ _ Hg E1) as R1.
    change (ram_weight "Y") with 1%nat in R1. lia. }
  destruct (char_in c "o") eqn:Hhole.
  { intros H. bind_inv H E1. bind_inv H E2. injection H as <- _.
    pose proof (rams_set _ _ _ _ _ _ Hc E1) as R1.
    rewrite <- (at_pos_set_ne _ _ _ _ _ _ _ E1 Hne') in Hg.
    pose proof (rams_set _ _ _ _ _ _ Hg E2) as R2.
    rewrite (no_ram_weight c _ Hhole) in R1 by done.
    change (ram_weight ".") with 0%nat in R2. lia. }
  destruct (char_in c "W") eqn:Hheavy.
  { destruct (next_pos row' col' dir) as [[over_row over_col]|] eqn:Hover;
      [|done].
    simpl. destruct (in_bounds height width over_row over_col) eqn:Hbo; simpl;
      [|by intros [= -> _]].
    pose proof (next_pos_ne _ _ _ _ _ Hover) as Hne1.
    pose proof (next_pos_twice_ne _ _ _ _ _ _ _ Hn Hover) as Hne2.
    assert ((over_row, over_col) ≠ (row', col')) as Hne1' by congruence.
    assert ((over_row, over_col) ≠ (row, col)) as Hne2' by congruence.
    destruct (at_pos s over_row over_col) as [nc| |] eqn:Hnc; simpl; [|done..].
    assert (∀ y, ram_weight y = 0%nat → ram_weight nc = 0%nat →
      (s1 ← set_at_pos s over_row over_col y;
       s2 ← set_at_pos s1 row' col' "G";
       set_at_pos s2 row col ".") ≫= (λ s3, Ok (s3, determine_new_state s3))
      = Ok (s', e) → rams s' = rams s) as Hpush.
    { intros y Hy Hwnc H. bind_inv H E.
      bind_inv E E1. bind_inv E E2. injection H as <- _.
      pose proof (rams_set _ _ _ _ _ _ Hnc E1) as R1.
      rewrite <- (at_pos_set_ne _ _ _ _ _ _ _ E1 Hne1') in Hc.
      pose proof (rams_set _ _ _ _ _ _ Hc E2) as R2.
      rewrite <- (at_pos_set_ne _ _ _ _ _ _ _ E1 Hne2') in Hg.
      rewrite <- (at_pos_set_ne _ _ _ _ _ _ _ E2 Hne') in Hg.
      pose proof (rams_set _ _ _ _ _ _ Hg E) as R3.
      rewrite (no_ram_weight c _ Hheavy) in R2 by done.
      change (ram_weight ".") with 0%nat in R3. lia. }
    destruct (char_in nc " _.x|-+") eqn:Hfree;
      [|destruct (char_in nc "o") eqn:Hhole2].
    - apply Hpush; [done|]. by eapply no_ram_weight.
    - apply Hpush; [done|]. by eapply no_ram_weight.
    - by intros [= -> _]. }
  destruct (char_in c "w") eqn:Hsliding; [|by intros [= -> _]].
  intros H. bind_inv H E. injection H as <- _.
  pose proof (slide_loop_post height width dir (shape s)
                (walk_fuel height width) s row' col' eq_refl) as Hpost.
  rewrite E in Hpost. simpl in Hpost.
  eapply writes_rams; [apply slide_writes_weight|].
  apply Hpost; [| |apply walk_fuel_pos].
  - rewrite Hc. f_equal. clear -Hsliding. char_cases.
  - intros. by apply room_fuel.
Qed.

Lemma move_keeps_rams s dir s' e :
  move s dir = Ok (s', e) → rams s' = rams s.
Proof.
  unfold move.
  destruct (bounds s) as [[height width]| |]; simpl; [|done..].
  destruct (find_pos s "G") as [|[row col] ps] eqn:Hram.
  { repeat case_match; by intros [= -> _]. }
  apply move_loop_rams. apply elem_of_find_pos. rewrite Hram. by left.
Qed.

Lemma at_pos_tiles s i j c : at_pos s i j = Ok c → (0 < tiles c s)%nat.
Proof.
  intros Hc.
  assert (∃ y, Ascii.eqb y c = false) as [y Hy].
  { destruct (Ascii.eqb_spec c " ") as [->|Hne]; [by exists "."|].
    exists " ". by apply Ascii.eqb_neq. }
  destruct (set_at_pos_defined s i j c y Hc) as [s' Hs'].
  pose proof (tiles_set c _ _ _ _ _ _ Hc Hs') as H.
  rewrite Ascii.eqb_refl, Hy in H. lia.
Qed.

Lemma laser_writes_weight x y :
  laser_writes x y → x ≠ "@" → ram_weight x = ram_weight y ∧ y ≠ "@".
Proof.
  unfold laser_writes, clear_writes, trace_writes, ram_weight.
  intros [[Hx ->]|[[Hx ->]|[[-> ->]|(HG & Hx & Hy)]]] Hvictor.
  - split; [|done]. clear Hvictor. char_cases.
  - split; [|done]. clear Hvictor. char_cases.
  - done.
  - split; [|intros ->; done].
    destruct (Ascii.eqb_spec x "G"); [done|].
    destruct (Ascii.eqb_spec x "@"); [done|].
    clear HG Hvictor. char_cases.
Qed.

Lemma laser_writes_rams s s' :
  writes laser_writes s s' → tiles "@" s = 0%nat → rams s' = rams s.
Proof.
  induction 1 as [|s i j x y s1 s' Hx Hxy Hset _ IH]; [done|]. intros Hnone.
  assert (x ≠ "@") as Hvictor.
  { intros ->. pose proof (at_pos_tiles _ _ _ _ Hx). lia. }
  destruct (laser_writes_weight _ _ Hxy Hvictor) as [Hweight Hy].
  pose proof (rams_set _ _ _ _ _ _ Hx Hset).
  pose proof (tiles_set "@" _ _ _ _ _ _ Hx Hset) as Ht.
  destruct (Ascii.eqb_spec x "@"); [done|].
  destruct (Ascii.eqb_spec y "@"); [done|].
  rewrite IH by lia. lia.
Qed.

Lemma update_lasers_keeps_rams s s' :
  update_lasers s = Ok s' → tiles "@" s = 0%nat → rams s' = rams s.
Proof. intros H%update_lasers_writes_of_Ok. by apply laser_writes_rams. Qed.

(** C3 fails on the code for a victorious ram in the path of a beam: the
    beam overwrites it, and no ram tile is left. *)
Theorem beam_erases_victorious_ram :
  rams [[">"; "@"; "F"]] = 1%nat ∧
  update_lasers [[">"; "@"; "F"]] = Ok [[">"; "-"; "F"]] ∧
  rams [[">"; "-"; "F"]] = 0%nat.
Proof. by vm_compute. Qed.

(** ** The order of the emitters *)

(** C4 fails on the code: a trace that meets a crossing [+] overwrites it
    with its own beam tile.  On the grid below the emitters are collected
    in the order [>], [^], [v] and the tile where the three beams meet ends
    as [|]; traced in the order [^], [v], [>] the same tile ends as [+]. *)
Theorem emitter_order_matters :
  collect_lasers [[" "; "v"; " "]; [">"; " "; " "]; [" "; "^"; " "]] =
    [(1, 0, "l"); (2, 1, "k"); (0, 1, "j")] ∧
  [(2, 1, "k"); (0, 1, "j"); (1, 0, "l")] ≡ₚ
    collect_lasers [[" "; "v"; " "]; [">"; " "; " "]; [" "; "^"; " "]] ∧
  update_lasers [[" "; "v"; " "]; [">"; " "; " "]; [" "; "^"; " "]] =
    Ok [[" "; "v"; " "]; [">"; "|"; "-"]; [" "; "^"; " "]] ∧
  trace_all 3 3 [[" "; "v"; " "]; [">"; " "; " "]; [" "; "^"; " "]]
    [(1, 0, "l"); (2, 1, "k"); (0, 1, "j")] =
    Ok [[" "; "v"; " "]; [">"; "|"; "-"]; [" "; "^"; " "]] ∧
  trace_all 3 3 [[" "; "v"; " "]; [">"; " "; " "]; [" "; "^"; " "]]
    [(2, 1, "k"); (0, 1, "j"); (1, 0, "l")] =
    Ok [[" "; "v"; " "]; [">"; "+"; "-"]; [" "; "^"; " "]].
Proof.
  split; [by vm_compute|]. split; [|by vm_compute].
  change (collect_lasers _) with [(1, 0, "l"); (2, 1, "k"); (0, 1, "j")].
  change [(2, 1, "k"); (0, 1, "j"); (1, 0, "l")]
    with ([(2, 1, "k"); (0, 1, "j")] ++ [(1, 0, "l")]).
  by rewrite Permutation_app_comm.
Qed.

(** * Further properties *)

(** ** The status scan *)

Lemma scan_row_cases l :
  match scan_row l with
  | Some _defeated => (0 < count_char "Y" l)%nat
  | Some _victory => (0 < count_char "@" l)%nat
  | Some _ => False
  | None => count_char "Y" l = 0%nat ∧ count_char "@" l = 0%nat
  end.
Proof.
  induction l as [|c l IH]; simpl; [done|]. unfold char_in.
  destruct (Ascii.eqb_spec c "Y") as [->|HY]; simpl; [lia|].
  destruct (Ascii.eqb_spec c "@") as [->|HA]; simpl; [lia|].
  destruct (scan_row l) as [[]|]; simpl in *; lia.
Qed.

Lemma scan_rows_cases s :
  match scan_rows s with
  | Some _defeated => (0 < tiles "Y" s)%nat
  | Some _victory => (0 < tiles "@" s)%nat
  | Some _ => False
  | None => tiles "Y" s = 0%nat ∧ tiles "@" s = 0%nat
  end.
Proof.
  unfold tiles. induction s as [|l s IH]; simpl; [done|].
  rewrite !count_char_app. pose proof (scan_row_cases l) as Hl.
  destruct (scan_row l) as [[]|]; simpl in *; try lia.
  destruct (scan_rows s) as [[]|]; simpl in *; lia.
Qed.

Lemma determine_new_state_scan (s : grid) :
  match determine_new_state s with
  | _defeated => (0 < tiles "Y" s)%nat
  | _victory => (0 < tiles "@" s)%nat
  | _unfinished => tiles "Y" s = 0%nat ∧ tiles "@" s = 0%nat
  | _invalid => False
  end.
Proof.
  unfold determine_new_state. pose proof (scan_rows_cases s) as H.
  destruct (scan_rows s) as [[]|]; simpl in *; done.
Qed.

(** X1.  [determine_new_state] answers [_defeated] only when the grid holds
    a defeated ram, [_victory] only when it holds a victorious one,
    [_unfinished] exactly when it holds neither, and never [_invalid]. *)
Theorem determine_new_state_cases (s : grid) :
  match determine_new_state s with
  | _defeated => (0 < tiles "Y" s)%nat
  | _victory => (0 < tiles "@" s)%nat
  | _unfinished => tiles "Y" s = 0%nat ∧ tiles "@" s = 0%nat
  | _invalid => False
  end.
Proof. apply determine_new_state_scan. Qed.

(** ** The status answered by [move] *)

Lemma witnessed_at e s i j c :
  at_pos s i j = Ok c →
  match e with
  | _victory => c = "@"
  | _defeated => c = "Y"
  | _unfinished => c = "G"
  | _invalid => True
  end →
  status_witnessed e s.
Proof.
  intros Hc. destruct e; simpl; try done; intros ->; by eapply at_pos_tiles.
Qed.

Lemma move_loop_status height width dir fuel s row col s' e :
  at_pos s row col = Ok "G" →
  move_loop fuel height width s row col dir = Ok (s', e) →
  status_witnessed e s'.
Proof.
  revert s row col. induction fuel as [|fuel IH]; intros s row col Hg; [done|].
  simpl. destruct (next_pos row col dir) as [[row' col']|] eqn:Hn; [|done].
  simpl. destruct (in_bounds height width row' col') eqn:Hb; simpl.
  2:{ intros [= <- <-].
      eapply (witnessed_at _unfinished _ row col); [exact Hg|done]. }
  pose proof (next_pos_ne _ _ _ _ _ Hn) as Hne.
  assert ((row', col') ≠ (row, col)) as Hne' by congruence.
  destruct (at_pos s row' col') as [c| |] eqn:Hc; simpl; [|done..].
  assert (∀ y s1, set_at_pos s row' col' y = Ok s1 →
            status_witnessed _unfinished s1) as Hstay.
  { intros y s1 Hs1. eapply (witnessed_at _unfinished); [|done].
    rewrite (at_pos_set_ne _ _ _ _ _ _ _ Hs1 Hne'). exact Hg. }
  destruct (char_in c " _.") eqn:Hfloor.
  { intros H. bind_inv H E1. bind_inv H E2.
    eapply IH; [|exact H].
    rewrite (at_pos_set_ne _ _ _ _ _ _ _ E2 Hne). by eapply at_pos_set_eq. }
  destruct (char_in c "M") eqn:Hwall.
  { intros H. bind_inv H E1. injection H as <- <-. by eapply Hstay. }
  destruct (char_in c "m") eqn:Hdamaged.
  { intros H. bind_inv H E1. injection H as <- <-. by eapply Hstay. }
  destruct (char_in c "v^<>") eqn:Hemitter.
  { intros H. bind_inv H E1. injection H as <- <-. by eapply Hstay. }
  destruct (char_in c "F") eqn:Hfinish.
  { intros H. bind_inv H E1. injection H as <- <-.
    eapply (witnessed_at _victory); [by eapply at_pos_set_eq | done]. }
  destruct (char_in c "x|-") eqn:Htrap.
  { intros H. bind_inv H E1. injection H as <- <-.
    eapply (witnessed_at _defeated); [by eapply at_pos_set_eq | done]. }
  destruct (char_in c "o") eqn:Hhole.
  { intros H. bind_inv H E1. bind_inv H E2. injection H as <- <-.
    eapply (witnessed_at _unfinished); [|done].
    rewrite (at_pos_set_ne _ _ _ _ _ _ _ E2 Hne). by eapply at_pos_set_eq. }
  destruct (char_in c "W") eqn:Hheavy.
  { destruct (next_pos row' col' dir) as [[over_row over_col]|] eqn:Hover;
      [|done].
    simpl. destruct (in_bounds height width over_row over_col) eqn:Hbo; simpl.
    2:{ intros [= <- <-].
        eapply (witnessed_at _unfinished _ row col); [exact Hg|done]. }
    destruct (at_pos s over_row over_col) as [nc| |] eqn:Hnc; simpl; [|done..].
    assert (∀ s3, (∃ i j, at_pos s3 i j = Ok "G") →
              status_witnessed (determine_new_state s3) s3) as Hscan.
    { intros s3 (i & j & Hram).
      pose proof (determine_new_state_scan s3) as Hd.
      destruct (determine_new_state s3); simpl; try done.
      by eapply at_pos_tiles. }
    assert (∀ y,
      (s1 ← set_at_pos s over_row over_col y;
       s2 ← set_at_pos s1 row' col' "G";
       set_at_pos s2 row col ".") ≫= (λ s3, Ok (s3, determine_new_state s3))
      = Ok (s', e) → status_witnessed e s') as Hpush.
    { intros y H. bind_inv H E. bind_inv E E1. bind_inv E E2.
      injection H as <- <-. apply Hscan. exists row', col'.
      rewrite (at_pos_set_ne _ _ _ _ _ _ _ E Hne). by eapply at_pos_set_eq. }
    destruct (char_in nc " _.x|-+"); [|destruct (char_in nc "o")].
    - apply Hpush.
    - apply Hpush.
    - intros [= <- <-]. apply Hscan. eauto. }
  destruct (char_in c "w") eqn:Hsliding; [|by intros [= <- <-]].
  intros H. bind_inv H E. injection H as <- <-.
  pose proof (slide_loop_post height width dir (shape s)
                (walk_fuel height width) s row' col' eq_refl) as Hpost.
  rewrite E in Hpost. simpl in Hpost.
  assert (writes slide_writes s a) as Hw.
  { apply Hpost; [| |apply walk_fuel_pos].
    - rewrite Hc. f_equal. clear -Hsliding. char_cases.
    - intros. by apply room_fuel. }
  eapply (witnessed_at _unfinished _ row col); [|done].
  apply elem_of_find_pos.
  rewrite (writes_find_pos _ _ _ _ slide_writes_ram Hw).
  by apply elem_of_find_pos.
Qed.

Lemma move_status s dir s' e :
  move s dir = Ok (s', e) → status_witnessed e s'.
Proof.
  unfold move.
  destruct (bounds s) as [[height width]| |]; simpl; [|done..].
  destruct (find_pos s "G") as [|[row col] ps] eqn:Hram.
  - destruct (find_pos s "@") as [|[i j] ?] eqn:Hvictor.
    + destruct (find_pos s "Y") as [|[i j] ?] eqn:Hdefeat.
      * by intros [= <- <-].
      * intros [= <- <-]. eapply (witnessed_at _defeated _ i j); [|done].
        apply elem_of_find_pos. rewrite Hdefeat. by left.
    + intros [= <- <-]. eapply (witnessed_at _victory _ i j); [|done].
      apply elem_of_find_pos. rewrite Hvictor. by left.
  - apply move_loop_status. apply elem_of_find_pos. rewrite Hram. by left.
Qed.

(** X2.  The status answered by [move] is on the grid it leaves:
    [_victory] comes with a victorious ram, [_defeated] with a defeated
    one, [_unfinished] with a live one. *)
Theorem move_status_witnessed (s : grid) (dir : ascii) (s' : grid) (e : status) :
  move s dir = Ok (s', e) →
  match e with
  | _victory => (0 < tiles "@" s')%nat
  | _defeated => (0 < tiles "Y" s')%nat
  | _unfinished => (0 < tiles "G" s')%nat
  | _invalid => True
  end.
Proof. apply move_status. Qed.

Lemma move_status_witnessed_witness :
  (0 < tiles "Y" [["."; "Y"; "x"; "F"]])%nat.
Proof.
  apply (move_status_witnessed [["G"; " "; "x"; "F"]] "l"
           [["."; "Y"; "x"; "F"]] _defeated).
  vm_compute. reflexivity.
Defined.

(** ** Counting under writes *)

Lemma writes_tiles (W : ascii → ascii → Prop) c s s' :
  (∀ x y, W x y → x ≠ c ∧ y ≠ c) → writes W s s' → tiles c s' = tiles c s.
Proof.
  intros HW. induction 1 as [|s i j x y s1 s' Hx Hxy Hset _ IH]; [done|].
  destruct (HW _ _ Hxy) as [Hxc Hyc].
  pose proof (tiles_set c _ _ _ _ _ _ Hx Hset) as H.
  apply Ascii.eqb_neq in Hxc, Hyc. rewrite Hxc, Hyc in H. lia.
Qed.

Lemma writes_tiles_le (W : ascii → ascii → Prop) c s s' :
  (∀ x y, W x y → y ≠ c) → writes W s s' → (tiles c s' ≤ tiles c s)%nat.
Proof.
  intros HW. induction 1 as [|s i j x y s1 s' Hx Hxy Hset _ IH]; [done|].
  pose proof (HW _ _ Hxy) as Hyc.
  pose proof (tiles_set c _ _ _ _ _ _ Hx Hset) as H.
  apply Ascii.eqb_neq in Hyc. rewrite Hyc in H.
  destruct (Ascii.eqb x c); lia.
Qed.

Lemma writes_tiles_ge (W : ascii → ascii → Prop) c s s' :
  (∀ x y, W x y → x ≠ c) → writes W s s' → (tiles c s ≤ tiles c s')%nat.
Proof.
  intros HW. induction 1 as [|s i j x y s1 s' Hx Hxy Hset _ IH]; [done|].
  pose proof (HW _ _ Hxy) as Hxc.
  pose proof (tiles_set c _ _ _ _ _ _ Hx Hset) as H.
  apply Ascii.eqb_neq in Hxc. rewrite Hxc in H.
  destruct (Ascii.eqb y c); lia.
Qed.

(** ** Valid tiles under writes *)

Lemma forallb_insert {A : Type} (f : A → bool) (l : list A) (j : nat) y :
  f y = true → forallb f l = true → forallb f (<[j := y]> l) = true.
Proof.
  intros Hy. revert j. induction l as [|a l IH]; intros [|j]; simpl; try done.
  - intros [_ ?]%andb_true_iff. by rewrite Hy.
  - intros [-> ?]%andb_true_iff. simpl. by apply IH.
Qed.

Lemma all_valid_insert (s : grid) (i : nat) l l' :
  s !! i = Some l →
  (forallb (fun c => char_in c _valid_chars) l = true →
   forallb (fun c => char_in c _valid_chars) l' = true) →
  all_valid s = true → all_valid (<[i := l']> s) = true.
Proof.
  unfold all_valid. revert i. induction s as [|l0 s IH]; intros [|i] Hi Hrow;
    simpl in *; try done.
  - injection Hi as ->. rewrite !forallb_app.
    intros [?%Hrow ->]%andb_true_iff. by rewrite andb_true_r.
  - rewrite !forallb_app. intros [-> ?]%andb_true_iff. simpl. by eapply IH.
Qed.

Lemma all_valid_set s i j y s' :
  set_at_pos s i j y = Ok s' → char_in y _valid_chars = true →
  all_valid s = true → all_valid s' = true.
Proof.
  intros [_ (l & Hl & ->)]%set_at_pos_Ok Hy.
  eapply all_valid_insert; [done|]. by apply forallb_insert.
Qed.

Lemma writes_all_valid (W : ascii → ascii → Prop) s s' :
  (∀ x y, W x y → char_in y _valid_chars = true) →
  writes W s s' → all_valid s = true → all_valid s' = true.
Proof.
  intros HW. induction 1 as [|s i j x y s1 s' Hx Hxy Hset _ IH]; [done|].
  intros Hs. apply IH. eapply all_valid_set; [done | by eapply HW | done].
Qed.

Ltac valid_writes H :=
  repeat (destruct H as [H|H]);
  decompose [and] H; clear H; subst; try reflexivity;
  char_cases.

Lemma move_writes_valid x y : move_writes x y → char_in y _valid_chars = true.
Proof. unfold move_writes, slide_writes. intros H. valid_writes H. Qed.

Lemma laser_writes_valid x y : laser_writes x y → char_in y _valid_chars = true.
Proof.
  unfold laser_writes, clear_writes, trace_writes. intros H. valid_writes H.
Qed.

(** ** Validation before and after a call *)

Lemma validate_state_unequal s :
  s ≠ [] → rectangular s = false → ∃ log, validate_state s = Ok (_invalid, log).
Proof.
  intros Hne Hrect. destruct s as [|l0 s0] eqn:Hs; [done|]. rewrite <- Hs in *.
  assert (subscript s 0 = Ok l0) as Hsub by by subst s.
  unfold validate_state. rewrite Hsub. simpl.
  destruct (first_unequal 0 (length l0) s) as [[i l]|] eqn:Hfirst; [eauto|].
  subst s. apply first_unequal_rectangular in Hfirst. congruence.
Qed.

Lemma validate_state_not_invalid s e log :
  validate_state s = Ok (e, log) → e ≠ _invalid →
  rectangular s = true ∧ all_valid s = true ∧ tiles "F" s ≠ 0%nat ∧
  rams s = 1%nat ∧ e = status_of s ∧ log = [].
Proof.
  intros Hv He.
  assert (s ≠ []) as Hne by (intros ->; discriminate Hv).
  destruct (rectangular s) eqn:Hrect.
  2:{ destruct (validate_state_unequal s Hne Hrect) as [log' Hv'].
      congruence. }
  destruct (validate_state_rectangular s Hrect) as [log' Hv'].
  rewrite Hv in Hv'. unfold status_of.
  destruct (all_valid s); simpl in Hv'; [|congruence].
  destruct (Nat.eqb_spec (tiles "F" s) 0); [congruence|].
  destruct (Nat.eqb_spec (rams s) 1); simpl in Hv'; [|congruence].
  repeat case_match; injection Hv' as -> ->; done.
Qed.

Lemma validate_state_valid s :
  rectangular s = true → all_valid s = true → tiles "F" s ≠ 0%nat →
  rams s = 1%nat → validate_state s = Ok (status_of s, []).
Proof.
  intros Hrect Hvalid Hfinish Hrams.
  destruct (validate_state_rectangular s Hrect) as [log ->].
  rewrite Hvalid, Hrams. simpl. unfold status_of.
  destruct (Nat.eqb_spec (tiles "F" s) 0); [done|].
  by repeat case_match.
Qed.

Lemma status_of_witnessed s e :
  rams s = 1%nat → e ≠ _invalid → status_witnessed e s → status_of s = e.
Proof.
  unfold rams, status_of. intros Hrams He Hw.
  destruct e; simpl in Hw; try done;
    repeat match goal with
      | |- context [(0 <? ?n)%nat] => destruct (Nat.ltb_spec 0 n)
      end; try done; lia.
Qed.

Lemma move_valid_step (s : grid) (dir : ascii) (e0 : status)
    (log0 : list message) :
  validate_state s = Ok (e0, log0) → e0 ≠ _invalid →
  char_in dir "hjkl" = true →
  ∃ s' e e',
    move s dir = Ok (s', e) ∧
    validate_state s' = Ok (e', []) ∧ e' ≠ _invalid ∧
    (e ≠ _invalid → e' = e).
Proof.
  intros Hv He0 Hdir.
  destruct (validate_state_not_invalid _ _ _ Hv He0)
    as (Hrect & Hvalid & Hfinish & Hrams & _ & _).
  destruct (move_returns s dir Hrect Hdir) as (s' & e & Hm & Hw).
  assert (rams s' = 1%nat) as Hrams'.
  { by rewrite (move_keeps_rams _ _ _ _ Hm). }
  exists s', e, (status_of s'). split; [done|]. split; [|split].
  - apply validate_state_valid; try done.
    + rewrite (rectangular_shape s s'); [done|]. by eapply writes_shape.
    + by eapply writes_all_valid; [apply move_writes_valid|..].
    + by rewrite (writes_tiles _ _ _ _ move_writes_finish Hw).
  - unfold status_of. by repeat case_match.
  - intros He. apply status_of_witnessed; try done. by eapply move_status.
Qed.

(** X3.  A level that passes validation still passes it after a move: the
    rows stay equal, the tiles valid, Finish present and the ram single.
    [move] returns, and unless it answers [_invalid] its answer is the
    status that [validate_state] gives for the new grid. *)
Theorem move_keeps_valid (s : grid) (dir : ascii) (e0 : status)
    (log0 : list message) :
  validate_state s = Ok (e0, log0) → e0 ≠ _invalid →
  char_in dir "hjkl" = true →
  ∃ s' e e',
    move s dir = Ok (s', e) ∧
    validate_state s' = Ok (e', []) ∧ e' ≠ _invalid ∧
    (e ≠ _invalid → e' = e).
Proof. apply move_valid_step. Qed.

Lemma move_keeps_valid_witness :
  ∃ s' e e',
    move [["G"; " "; "x"; "F"]] "l" = Ok (s', e) ∧
    validate_state s' = Ok (e', []) ∧ e' ≠ _invalid ∧
    (e ≠ _invalid → e' = e).
Proof.
  apply (move_keeps_valid [["G"; " "; "x"; "F"]] "l" _unfinished []);
    [reflexivity | discriminate | reflexivity].
Defined.

Lemma laser_writes_not_victor x y : laser_writes x y → y ≠ "@".
Proof.
  unfold laser_writes, clear_writes, trace_writes.
  intros H ->. refute_writes H.
Qed.

Lemma laser_writes_not_defeated x y : laser_writes x y → x ≠ "Y".
Proof.
  unfold laser_writes, clear_writes, trace_writes.
  intros H ->. refute_writes H.
Qed.

(** X4.  A level that validates as unfinished or defeated still passes
    validation after [update_lasers], which returns; the new status is
    again unfinished or defeated, and a defeated ram stays defeated. *)
Theorem update_lasers_keeps_valid (s : grid) (e0 : status)
    (log0 : list message) :
  validate_state s = Ok (e0, log0) →
  e0 = _unfinished ∨ e0 = _defeated →
  ∃ s' e',
    update_lasers s = Ok s' ∧
    validate_state s' = Ok (e', []) ∧
    (e' = _unfinished ∨ e' = _defeated) ∧
    (e0 = _defeated → e' = _defeated).
Proof.
  intros Hv He0.
  assert (e0 ≠ _invalid) as Hne by (destruct He0; congruence).
  destruct (validate_state_not_invalid _ _ _ Hv Hne)
    as (Hrect & Hvalid & Hfinish & Hrams & Hstatus & _).
  assert (tiles "@" s = 0%nat) as Hvictor.
  { revert Hstatus. unfold status_of.
    destruct (Nat.ltb_spec 0 (tiles "@" s)); [|lia].
    destruct He0; congruence. }
  destruct (update_lasers_returns s Hrect) as (s' & Hu & Hw).
  assert (rams s' = 1%nat) as Hrams'.
  { by rewrite (laser_writes_rams _ _ Hw Hvictor). }
  assert (tiles "@" s' = 0%nat) as Hvictor'.
  { pose proof (writes_tiles_le _ "@" _ _ laser_writes_not_victor Hw). lia. }
  exists s', (status_of s'). split; [done|]. split; [|split].
  - apply validate_state_valid; try done.
    + rewrite (rectangular_shape s s'); [done|]. by eapply writes_shape.
    + by eapply writes_all_valid; [apply laser_writes_valid|..].
    + by rewrite (writes_tiles _ _ _ _ laser_writes_finish Hw).
  - unfold status_of. rewrite Hvictor'. simpl. case_match; auto.
  - intros ->. unfold status_of in *. rewrite Hvictor' in *.
    rewrite Hvictor in Hstatus. simpl in *.
    pose proof (writes_tiles_ge _ "Y" _ _ laser_writes_not_defeated Hw).
    destruct (Nat.ltb_spec 0 (tiles "Y" s)); [|done].
    destruct (Nat.ltb_spec 0 (tiles "Y" s')); [done | lia].
Qed.

Lemma update_lasers_keeps_valid_witness :
  ∃ s' e',
    update_lasers [["Y"; "-"; "<"; "F"]] = Ok s' ∧
    validate_state s' = Ok (e', []) ∧
    (e' = _unfinished ∨ e' = _defeated) ∧
    (_defeated = _defeated → e' = _defeated).
Proof.
  apply (update_lasers_keeps_valid [["Y"; "-"; "<"; "F"]] _defeated []);
    [reflexivity | by right].
Defined.

(** ** Invariants of every call *)

(** X5.  [move] keeps the number of ram tiles, on every grid and for every
    direction symbol. *)
Theorem move_ram_count (s : grid) (dir : ascii) (s' : grid) (e : status) :
  move s dir = Ok (s', e) → rams s' = rams s.
Proof. apply move_keeps_rams. Qed.

Lemma move_ram_count_witness :
  rams [["."; "."; "G"; "W"; " "; " "]] = rams [["G"; " "; "W"; "."; " "; " "]].
Proof.
  apply (move_ram_count [["G"; " "; "W"; "."; " "; " "]] "l" _ _unfinished).
  vm_compute. reflexivity.
Defined.

(** X6.  [update_lasers] keeps the number of ram tiles on every grid that
    holds no victorious ram: a ram in a beam changes from [G] to [Y] and no
    other ram tile is written or overwritten. *)
Theorem update_lasers_ram_count (s s' : grid) :
  update_lasers s = Ok s' → tiles "@" s = 0%nat →
  rams s' = rams s ∧ tiles "@" s' = 0%nat ∧ (tiles "Y" s ≤ tiles "Y" s')%nat.
Proof.
  intros Hw%update_lasers_writes_of_Ok Hvictor. split; [|split].
  - by apply laser_writes_rams.
  - pose proof (writes_tiles_le _ "@" _ _ laser_writes_not_victor Hw). lia.
  - by eapply writes_tiles_ge; [apply laser_writes_not_defeated|].
Qed.

Lemma update_lasers_ram_count_witness :
  rams [["Y"; "-"; "<"]; ["G"; " "; " "]] = rams [["G"; " "; "<"]; ["G"; " "; " "]]
  ∧ tiles "@" [["Y"; "-"; "<"]; ["G"; " "; " "]] = 0%nat
  ∧ (tiles "Y" [["G"; " "; "<"]; ["G"; " "; " "]]
     ≤ tiles "Y" [["Y"; "-"; "<"]; ["G"; " "; " "]])%nat.
Proof.
  apply (update_lasers_ram_count [["G"; " "; "<"]; ["G"; " "; " "]]);
    vm_compute; reflexivity.
Defined.

(** X7.  Whatever the grid, rectangular or not, a call of [move] or of
    [update_lasers] that returns has kept the length of every row and has
    written valid tiles only: a grid of valid tiles stays one. *)
Theorem calls_keep_shape_and_alphabet (s : grid) (dir : ascii) :
  (∀ s' e, move s dir = Ok (s', e) →
     shape s' = shape s ∧ (all_valid s = true → all_valid s' = true)) ∧
  (∀ s', update_lasers s = Ok s' →
     shape s' = shape s ∧ (all_valid s = true → all_valid s' = true)).
Proof.
  split.
  - intros s' e Hw%move_writes_of_Ok. split; [by eapply writes_shape|].
    by eapply writes_all_valid; [apply move_writes_valid|].
  - intros s' Hw%update_lasers_writes_of_Ok. split; [by eapply writes_shape|].
    by eapply writes_all_valid; [apply laser_writes_valid|].
Qed.

Lemma calls_keep_shape_and_alphabet_witness :
  (shape [["."; "G"; "m"]; ["F"]] = shape [["G"; " "; "M"]; ["F"]] ∧
   all_valid [["."; "G"; "m"]; ["F"]] = true) ∧
  (shape [[">"; "-"; "Y"]; ["F"]] = shape [[">"; "|"; "G"]; ["F"]] ∧
   all_valid [[">"; "-"; "Y"]; ["F"]] = true).
Proof.
  split.
  - destruct (calls_keep_shape_and_alphabet [["G"; " "; "M"]; ["F"]] "l")
      as [Hm _].
    destruct (Hm [["."; "G"; "m"]; ["F"]] _unfinished) as [Hs Hv].
    { vm_compute. reflexivity. }
    split; [exact Hs | apply Hv; reflexivity].
  - destruct (calls_keep_shape_and_alphabet [[">"; "|"; "G"]; ["F"]] "l")
      as [_ Hu].
    destruct (Hu [[">"; "-"; "Y"]; ["F"]]) as [Hs Hv].
    { vm_compute. reflexivity. }
    split; [exact Hs | apply Hv; reflexivity].
Defined.

(** ** The non-interactive run *)





(** ** Saving and loading *)

Lemma file_lines_row cur row rest :
  forallb (fun c => negb (Ascii.eqb c newline)) row = true →
  file_lines cur (row ++ newline :: rest) =
    (cur ++ row ++ [newline]) :: file_lines [] rest.
Proof.
  revert cur. induction row as [|c row IH]; intros cur; simpl.
  - done.
  - intros [Hc Hrow]%andb_true_iff. apply negb_true_iff in Hc. rewrite Hc.
    rewrite IH by done. by rewrite <- app_assoc.
Qed.

Lemma file_lines_last cur row :
  forallb (fun c => negb (Ascii.eqb c newline)) row = true →
  file_lines cur row =
    match cur ++ row with [] => [] | _ :: _ => [cur ++ row] end.
Proof.
  revert cur. induction row as [|c row IH]; intros cur; simpl.
  - by rewrite app_nil_r.
  - intros [Hc Hrow]%andb_true_iff. apply negb_true_iff in Hc. rewrite Hc.
    rewrite IH by done. by rewrite <- app_assoc.
Qed.

Lemma strip_newlines_clean row :
  forallb (fun c => negb (Ascii.eqb c newline)) row = true →
  strip_newlines row = row ∧ strip_newlines (row ++ [newline]) = row.
Proof.
  induction row as [|c row IH]; simpl; [done|].
  intros [Hc Hrow]%andb_true_iff. apply negb_true_iff in Hc. rewrite Hc.
  destruct (IH Hrow) as [-> ->]. done.
Qed.

Lemma rows_of_saved s :
  saveable s = true → rows_of_lines (file_lines [] (to_str s)) = s.
Proof.
  unfold saveable. induction s as [|row s IH]; [done|].
  intros [[Hrow Hrows]%andb_true_iff Hlast]%andb_true_iff.
  apply andb_true_iff in Hrow as [Hnl Hhash].
  destruct (strip_newlines_clean row Hnl) as [Hstrip Hstrip'].
  destruct s as [|row2 s].
  - simpl to_str. rewrite file_lines_last by done. simpl.
    destruct row as [|c row]; [done|]. simpl in *. rewrite Hhash.
    by rewrite Hstrip.
  - change (to_str (row :: row2 :: s))
      with (row ++ newline :: to_str (row2 :: s)).
    rewrite file_lines_row by done. simpl app.
    change (rows_of_lines (?l :: ?ls))
      with (if kept l then strip_newlines l :: rows_of_lines ls
            else rows_of_lines ls).
    assert (kept (row ++ [newline]) = true) as ->.
    { destruct row as [|c row]; [done|]. exact Hhash. }
    rewrite Hstrip'. f_equal. apply IH.
    apply andb_true_iff. split; [done|]. exact Hlast.
Qed.

Lemma delivered_stored os text :
  forallb (fun c => negb (Ascii.eqb c carriage_return)) text = true →
  delivered (stored os text) = text.
Proof.
  induction text as [|c text IH]; [done|]. simpl.
  intros [Hc Htext]%andb_true_iff. apply negb_true_iff in Hc.
  destruct (Ascii.eqb_spec c newline) as [->|_].
  - destruct os; simpl; by rewrite IH.
  - simpl. by rewrite Hc, IH.
Qed.

Lemma to_str_no_carriage_return s :
  no_carriage_return s = true →
  forallb (fun c => negb (Ascii.eqb c carriage_return)) (to_str s) = true.
Proof.
  unfold no_carriage_return. induction s as [|row s IH]; [done|].
  intros [Hrow Hrows]%andb_true_iff. destruct s as [|row2 s]; [done|].
  change (to_str (row :: row2 :: s))
    with (row ++ newline :: to_str (row2 :: s)).
  rewrite forallb_app, Hrow.
  change (forallb ?f (newline :: ?l)) with (f newline && forallb f l).
  apply andb_true_iff. split; [done|]. apply IH. exact Hrows.
Qed.

(** X9.  Saving and loading: for a grid of seven-bit characters whose
    rows contain no newline and no carriage return, do not start with [#]
    and do not end in an empty row, the text read from the file that
    [to_str] was written to is the text written, on either platform; its
    lines give the rows back, so that [load_file] answers what
    [update_lasers] answers on the grid itself. *)
Theorem load_saved (os : platform) (s : grid) :
  saveable s = true →
  no_carriage_return s = true →
  seven_bit s = true →
  delivered (stored os (to_str s)) = to_str s ∧
  rows_of_lines (file_lines [] (delivered (stored os (to_str s)))) = s ∧
  save_and_load os s = update_lasers s.
Proof.
  intros Hs Hcr _. pose proof (rows_of_saved s Hs) as Hrows.
  pose proof (delivered_stored os _ (to_str_no_carriage_return s Hcr)) as Hd.
  unfold save_and_load, load_file. rewrite Hd, Hrows. done.
Qed.

Lemma load_saved_witness :
  delivered (stored Windows (to_str [["G"; " "]; []; [">"; "F"]])) =
    to_str [["G"; " "]; []; [">"; "F"]] ∧
  rows_of_lines
    (file_lines []
       (delivered (stored Windows (to_str [["G"; " "]; []; [">"; "F"]])))) =
    [["G"; " "]; []; [">"; "F"]] ∧
  save_and_load Windows [["G"; " "]; []; [">"; "F"]] =
    update_lasers [["G"; " "]; []; [">"; "F"]].
Proof.
  apply (load_saved Windows [["G"; " "]; []; [">"; "F"]]); reflexivity.
Defined.

(** ** Grids with the same tiles *)

Lemma at_pos_shape a b i j x :
  shape b = shape a → at_pos a i j = Ok x → ∃ y, at_pos b i j = Ok y.
Proof.
  unfold shape. intros Hs (Hi & Hj & l & Hl & Hx)%at_pos_Ok.
  assert ((length <$> b) !! Z.to_nat i = Some (length l)) as Hb.
  { rewrite Hs, list_lookup_fmap, Hl. done. }
  rewrite list_lookup_fmap in Hb.
  destruct (b !! Z.to_nat i) as [l'|] eqn:Hl'; [|done].
  injection Hb as Hlen.
  destruct (lookup_lt_is_Some_2 l' (Z.to_nat j)) as [y Hy].
  { rewrite Hlen. by eapply lookup_lt_Some. }
  exists y. apply at_pos_Ok. eauto.
Qed.

Lemma grid_ext a b :
  shape b = shape a →
  (∀ i j x, at_pos a i j = Ok x → at_pos b i j = Ok x) →
  b = a.
Proof.
  unfold shape. intros Hs Hat. apply list_eq. intros i.
  assert ((length <$> b) !! i = (length <$> a) !! i) as Hi by by rewrite Hs.
  rewrite !list_lookup_fmap in Hi.
  destruct (a !! i) as [la|] eqn:Ha, (b !! i) as [lb|] eqn:Hb; try done.
  injection Hi as Hlen. f_equal. apply list_eq. intros j.
  destruct (la !! j) as [x|] eqn:Hx.
  - specialize (Hat (Z.of_nat i) (Z.of_nat j) x).
    rewrite !at_pos_Ok, !Nat2Z.id in Hat.
    destruct Hat as (_ & _ & l & Hl & Hj); [repeat split; try lia; eauto|].
    congruence.
  - apply lookup_ge_None. apply lookup_ge_None in Hx. lia.
Qed.

Lemma bounds_shape a b : shape b = shape a → bounds b = bounds a.
Proof.
  unfold shape. destruct a as [|la a], b as [|lb b]; try done.
  intros [= Hl Hs]. unfold bounds. simpl.
  apply (f_equal length) in Hs. rewrite !length_fmap in Hs.
  by rewrite Hl, Hs.
Qed.

(** ** The clearing of the beams *)

Lemma clear_at_spec ps s :
  (∀ i j, (i, j) ∈ ps → ∃ x, at_pos s i j = Ok x) →
  ∃ s', clear_at s ps = Ok s' ∧ shape s' = shape s ∧
    ∀ i j, at_pos s' i j =
             if decide ((i, j) ∈ ps) then Ok " " else at_pos s i j.
Proof.
  revert s. induction ps as [|[i0 j0] ps IH]; intros s Hps; simpl.
  { exists s. split; [done|]. split; done. }
  destruct (Hps i0 j0) as [x Hx]; [by left|].
  destruct (set_at_pos_defined s i0 j0 x " " Hx) as [s1 Hs1].
  rewrite Hs1. simpl.
  destruct (IH s1) as (s' & -> & Hshape & Hat).
  { intros i j Hin. destruct (decide ((i0, j0) = (i, j))) as [[= <- <-]|Hne].
    - exists " ". by eapply at_pos_set_eq.
    - rewrite (at_pos_set_ne _ _ _ _ _ _ _ Hs1 Hne). apply Hps. by right. }
  exists s'. split; [done|]. split.
  { rewrite Hshape. by eapply set_at_pos_shape. }
  intros i j. rewrite Hat.
  destruct (decide ((i, j) ∈ ps)) as [Hin|Hnin].
  - rewrite decide_True; [done | by right].
  - destruct (decide ((i0, j0) = (i, j))) as [[= <- <-]|Hne].
    + rewrite decide_True; [by eapply at_pos_set_eq | by left].
    + rewrite (at_pos_set_ne _ _ _ _ _ _ _ Hs1 Hne).
      rewrite decide_False; [done|].
      intros [?|?]%elem_of_cons; congruence.
Qed.

Lemma clear_found_spec s c :
  ∃ s', clear_at s (find_pos s c) = Ok s' ∧ shape s' = shape s ∧
    ∀ i j x, at_pos s i j = Ok x →
      at_pos s' i j = Ok (if Ascii.eqb x c then " " else x).
Proof.
  destruct (clear_at_spec (find_pos s c) s) as (s' & Hs' & Hshape & Hat).
  { intros i j Hin%elem_of_find_pos. eauto. }
  exists s'. split; [done|]. split; [done|]. intros i j x Hx. rewrite Hat.
  destruct (decide ((i, j) ∈ find_pos s c)) as [Hin|Hnin].
  - apply elem_of_find_pos in Hin.
    assert (x = c) as -> by congruence. by rewrite Ascii.eqb_refl.
  - destruct (Ascii.eqb_spec x c) as [->|]; [|done].
    exfalso. apply Hnin. by apply elem_of_find_pos.
Qed.

Lemma clear_beams_spec s :
  ∃ s', clear_beams s = Ok s' ∧ shape s' = shape s ∧
    ∀ i j x, at_pos s i j = Ok x → at_pos s' i j = Ok (clear_tile x).
Proof.
  unfold clear_beams.
  destruct (clear_found_spec s "|") as (s1 & -> & Hsh1 & Hat1). simpl.
  destruct (clear_found_spec s1 "-") as (s2 & -> & Hsh2 & Hat2). simpl.
  destruct (clear_found_spec s2 "+") as (s3 & -> & Hsh3 & Hat3).
  exists s3. split; [done|]. split; [congruence|].
  intros i j x Hx.
  rewrite (Hat3 i j _ (Hat2 i j _ (Hat1 i j x Hx))). f_equal.
  unfold clear_tile. clear. char_cases.
Qed.

(** ** One step of a trace *)

Lemma trace_loop_step fuel height width s row col dir :
  trace_loop (S fuel) height width s row col dir =
    if negb (in_bounds height width row col) then Ok s
    else
      x ← at_pos s row col;
      match tile_action x dir with
      | Hit => set_at_pos s row col "Y"
      | Block => Ok s
      | Write y =>
          s1 ← set_at_pos s row col y;
          '(row', col') ← unpack (next_pos row col dir);
          trace_loop fuel height width s1 row' col' dir
      | Pass =>
          '(row', col') ← unpack (next_pos row col dir);
          trace_loop fuel height width s row' col' dir
      end.
Proof.
  simpl. destruct (negb (in_bounds height width row col)); [done|].
  destruct (at_pos s row col) as [x| |]; simpl; [|done..].
  unfold tile_action. repeat case_match; done.
Qed.

Lemma traced_step x y z : traced x y → trace_writes y z → traced x z.
Proof.
  unfold traced, trace_writes, passable.
  intros [->|[[Hx Hy]|[-> ->]]] Hyz.
  - destruct Hyz as [[Hbeam ->]|[[-> ->]|(HG & Hopaque & Hz)]].
    + right. left. split; [clear -Hbeam; char_cases | done].
    + by right; right.
    + right. left. split; [|clear -Hz; char_cases].
      apply Ascii.eqb_neq in HG. by rewrite HG, Hopaque.
  - destruct Hyz as [[Hbeam ->]|[[Hram ->]|(HG & Hopaque & Hz)]].
    + right. left. done.
    + subst y. vm_compute in Hy. discriminate Hy.
    + right. left. split; [done | clear -Hz; char_cases].
  - destruct Hyz as [[H _]|[[H _]|(_ & H & _)]];
      vm_compute in H; discriminate H.
Qed.

Lemma trace_writes_at s s' :
  writes trace_writes s s' →
  ∀ i j x y, at_pos s i j = Ok x → at_pos s' i j = Ok y → traced x y.
Proof.
  intros Hw. apply (writes_mono _ (fun x y => trace_writes x y)) in Hw; [|done].
  assert (∀ s1 s2, writes trace_writes s1 s2 →
    ∀ i j x0 x y, traced x0 x → at_pos s1 i j = Ok x → at_pos s2 i j = Ok y →
                  traced x0 y) as Hgen.
  { clear. induction 1 as [s|s i0 j0 x1 y1 s1 s' Hx1 HW Hset _ IH];
      intros i j x0 x y Ht Hx Hy.
    - congruence.
    - destruct (decide ((i0, j0) = (i, j))) as [[= <- <-]|Hne].
      + assert (x1 = x) as -> by congruence.
        eapply IH; [|by eapply at_pos_set_eq|done].
        by eapply traced_step.
      + eapply IH; [done| |done].
        by rewrite (at_pos_set_ne _ _ _ _ _ _ _ Hset Hne). }
  intros i j x y Hx Hy. eapply Hgen; [done| |done..]. by left.
Qed.

(** ** Tracing again from the cleared grid *)

Lemma resumed_set_same f a b i j y a1 b1 :
  resumed f a b → set_at_pos a i j y = Ok a1 → set_at_pos b i j y = Ok b1 →
  resumed f a1 b1.
Proof.
  intros [Hshape Hat] Ha Hb. split.
  { rewrite (set_at_pos_shape _ _ _ _ _ Ha), (set_at_pos_shape _ _ _ _ _ Hb).
    done. }
  intros i' j' xa Hxa.
  destruct (decide ((i, j) = (i', j'))) as [[= <- <-]|Hne].
  - exists y. split; [by eapply at_pos_set_eq|]. left.
    rewrite (at_pos_set_eq _ _ _ _ _ Ha) in Hxa. congruence.
  - rewrite (at_pos_set_ne _ _ _ _ _ _ _ Hb Hne).
    rewrite (at_pos_set_ne _ _ _ _ _ _ _ Ha Hne) in Hxa. by apply Hat.
Qed.

Lemma resumed_set_left f a b i j y a1 :
  resumed f a b → set_at_pos a i j y = Ok a1 → at_pos b i j = Ok y →
  resumed f a1 b.
Proof.
  intros [Hshape Hat] Ha Hb. split.
  { by rewrite (set_at_pos_shape _ _ _ _ _ Ha). }
  intros i' j' xa Hxa.
  destruct (decide ((i, j) = (i', j'))) as [[= <- <-]|Hne].
  - exists y. split; [done|]. left.
    rewrite (at_pos_set_eq _ _ _ _ _ Ha) in Hxa. congruence.
  - rewrite (at_pos_set_ne _ _ _ _ _ _ _ Ha Hne) in Hxa. by apply Hat.
Qed.

Lemma tile_action_floor x dir :
  passable x = true → char_in x "-|+" = false →
  tile_action " " dir = tile_action x dir.
Proof.
  unfold passable, tile_action.
  intros [HG Hopaque]%andb_true_iff Hbeam.
  apply negb_true_iff in HG, Hopaque. rewrite HG, Hopaque.
  assert (char_in x "-" = false) as -> by (clear -Hbeam; char_cases).
  assert (char_in x "|" = false) as -> by (clear -Hbeam; char_cases).
  done.
Qed.

Lemma trace_loop_resumed f height width dir fuel a b row col a' :
  resumed f a b →
  trace_loop fuel height width a row col dir = Ok a' →
  ∃ b', trace_loop fuel height width b row col dir = Ok b' ∧ resumed f a' b'.
Proof.
  revert a b row col. induction fuel as [|fuel IH]; intros a b row col Hr;
    [done|].
  rewrite !trace_loop_step.
  destruct (negb (in_bounds height width row col)).
  { intros [= <-]. eauto. }
  destruct (at_pos a row col) as [xa| |] eqn:Hxa; simpl; [|done..].
  destruct (proj2 Hr _ _ _ Hxa) as (xb & Hxb & Hrel). rewrite Hxb. simpl.
  assert (tile_action xb dir = tile_action xa dir →
    match tile_action xa dir with
    | Hit => set_at_pos a row col "Y"
    | Block => Ok a
    | Write y =>
        s1 ← set_at_pos a row col y;
        '(row', col') ← unpack (next_pos row col dir);
        trace_loop fuel height width s1 row' col' dir
    | Pass =>
        '(row', col') ← unpack (next_pos row col dir);
        trace_loop fuel height width a row' col' dir
    end = Ok a' →
    ∃ b', match tile_action xb dir with
          | Hit => set_at_pos b row col "Y"
          | Block => Ok b
          | Write y =>
              s1 ← set_at_pos b row col y;
              '(row', col') ← unpack (next_pos row col dir);
              trace_loop fuel height width s1 row' col' dir
          | Pass =>
              '(row', col') ← unpack (next_pos row col dir);
              trace_loop fuel height width b row' col' dir
          end = Ok b' ∧ resumed f a' b') as Hsame.
  { intros ->. destruct (tile_action xa dir) as [| |y|].
    - intros Ha.
      destruct (set_at_pos_defined b row col xb "Y" Hxb) as [b1 Hb1].
      exists b1. split; [done|]. by eapply resumed_set_same.
    - intros [= <-]. eauto.
    - intros H. bind_inv H E.
      destruct (set_at_pos_defined b row col xb y Hxb) as [b1 Hb1].
      rewrite Hb1. simpl.
      destruct (next_pos row col dir) as [[row' col']|]; simpl in *; [|done].
      eapply IH; [|done]. by eapply resumed_set_same.
    - destruct (next_pos row col dir) as [[row' col']|]; simpl; [|done].
      by apply IH. }
  destruct Hrel as [->|[(Hp & Hbeam & -> & _)|(-> & -> & _)]].
  - by apply Hsame.
  - apply Hsame. by apply tile_action_floor.
  - assert (tile_action "G" dir = Hit) as ->.
    { unfold tile_action, char_in. simpl. done. }
    assert (tile_action "Y" dir = Block) as ->.
    { unfold tile_action, char_in. simpl. done. }
    intros Ha. exists b. split; [done|]. by eapply resumed_set_left.
Qed.

Lemma trace_all_resumed f height width lasers a b a' :
  resumed f a b →
  trace_all height width a lasers = Ok a' →
  ∃ b', trace_all height width b lasers = Ok b' ∧ resumed f a' b'.
Proof.
  revert a b. induction lasers as [|[[row col] dir] lasers IH]; intros a b Hr;
    simpl.
  { intros [= <-]. eauto. }
  intros H. bind_inv H E. unfold trace_laser in *.
  destruct (next_pos row col dir) as [[row' col']|]; simpl in *; [|done].
  destruct (trace_loop_resumed _ _ _ _ _ _ _ _ _ _ Hr E) as (b1 & -> & Hr1).
  simpl. by eapply IH.
Qed.

(** ** Recomputing the beams twice *)

Lemma laser_writes_emitter c x y :
  char_in c "<>^v" = true → laser_writes x y → x ≠ c ∧ y ≠ c.
Proof.
  unfold laser_writes, clear_writes, trace_writes. intros Hc H.
  assert (c = "<" ∨ c = ">" ∨ c = "^" ∨ c = "v") as Hcases.
  { clear -Hc. char_cases; auto. }
  split; intros ->; destruct Hcases as [-> | [-> | [-> | ->]]];
    refute_writes H.
Qed.

Lemma collect_lasers_writes s s' :
  writes laser_writes s s' → collect_lasers s' = collect_lasers s.
Proof.
  intros Hw. unfold collect_lasers.
  rewrite !(writes_find_pos laser_writes s s'); try done;
    intros x y; by apply laser_writes_emitter.
Qed.

Lemma clear_tile_no_beam x : char_in (clear_tile x) "-|+" = false.
Proof. unfold clear_tile. char_cases. Qed.

Lemma clear_tile_id x : char_in x "-|+" = false → clear_tile x = x.
Proof. unfold clear_tile. intros H. char_cases. Qed.

Lemma clear_tile_beam x : char_in x "-|+" = true → clear_tile x = " ".
Proof. unfold clear_tile. intros H. char_cases. Qed.

Lemma trace_all_writes height width s lasers s' :
  (∀ row col dir, (row, col, dir) ∈ lasers → char_in dir "hjkl" = true) →
  trace_all height width s lasers = Ok s' → writes trace_writes s s'.
Proof.
  intros Hdirs H.
  pose proof (trace_all_post height width lasers s Hdirs) as Hp.
  by rewrite H in Hp.
Qed.

Lemma update_lasers_fixed (s s2 : grid) :
  update_lasers s = Ok s2 → update_lasers s2 = Ok s2.
Proof.
  unfold update_lasers. intros H.
  destruct (clear_beams_spec s) as (s1 & Hc & Hsh1 & Hat1).
  rewrite Hc in H. simpl in H.
  destruct (bounds s1) as [[height width]| |] eqn:Hb; simpl in H; [|done..].
  pose proof (trace_all_writes _ _ _ _ _ (collect_lasers_dirs s1) H) as Hw.
  pose proof (writes_shape _ _ _ Hw) as Hsh2.
  destruct (clear_beams_spec s2) as (t & Hc2 & Hsht & Hat2).
  rewrite Hc2. simpl.
  assert (bounds t = Ok (height, width)) as ->.
  { rewrite <- Hb. apply bounds_shape. congruence. }
  simpl.
  assert (collect_lasers t = collect_lasers s1) as ->.
  { transitivity (collect_lasers s2).
    - apply collect_lasers_writes.
      pose proof (clear_beams_post s2) as Hp. rewrite Hc2 in Hp.
      eapply writes_mono; [|exact Hp]. intros x y. by left.
    - apply collect_lasers_writes.
      eapply writes_mono; [|exact Hw]. intros x y. by right. }
  assert (resumed s2 s1 t) as Hr.
  { split; [congruence|]. intros i j xa Hxa.
    destruct (at_pos_shape s1 s2 i j xa Hsh2 Hxa) as [y Hy].
    pose proof (trace_writes_at _ _ Hw _ _ _ _ Hxa Hy) as Ht.
    assert (char_in xa "-|+" = false) as Hclean.
    { destruct (at_pos_shape s1 s i j xa) as [x0 Hx0]; [done..|].
      rewrite (Hat1 _ _ _ Hx0) in Hxa. injection Hxa as <-.
      apply clear_tile_no_beam. }
    exists (clear_tile y). split; [by apply Hat2|].
    destruct Ht as [->|[[Hp Hbeam]|[-> ->]]].
    - left. by apply clear_tile_id.
    - right. left. rewrite (clear_tile_beam y Hbeam). eauto 10.
    - right. right. done. }
  destruct (trace_all_resumed _ _ _ _ _ _ _ Hr H) as (b' & Hb' & [Hshb Hatb]).
  rewrite Hb'. f_equal. apply grid_ext; [done|].
  intros i j xa Hxa.
  destruct (Hatb _ _ _ Hxa) as (xb & Hxb & [->|[(_ & Hclean & _ & y & Hy & Hbeam)
                                               |(-> & _ & Hy)]]).
  - done.
  - congruence.
  - congruence.
Qed.

(** X10.  Recomputing the beams is idempotent: a grid that
    [update_lasers] has returned is returned unchanged by a second call.
    This holds for every grid on which the first call returns. *)
Theorem update_lasers_idempotent (s s2 : grid) :
  update_lasers s = Ok s2 → update_lasers s2 = Ok s2.
Proof. apply update_lasers_fixed. Qed.

Lemma update_lasers_idempotent_witness :
  update_lasers [[" "; "v"; "x"]; [">"; " "; "G"]; ["."; "^"; "F"]] =
    Ok [[" "; "v"; "x"]; [">"; "|"; "Y"]; ["."; "^"; "F"]] ∧
  update_lasers [[" "; "v"; "x"]; [">"; "|"; "Y"]; ["."; "^"; "F"]] =
    Ok [[" "; "v"; "x"]; [">"; "|"; "Y"]; ["."; "^"; "F"]].
Proof.
  split; [vm_compute; reflexivity|].
  apply (update_lasers_idempotent
           [[" "; "v"; "x"]; [">"; " "; "G"]; ["."; "^"; "F"]]).
  vm_compute. reflexivity.
Defined.

(** ** What [load_file] answers *)

Lemma rows_of_lines_kept lines l :
  l ∈ lines → kept l = true → strip_newlines l ∈ rows_of_lines lines.
Proof.
  induction lines as [|l0 lines IH]; [by intros ?%elem_of_nil|].
  intros [->|Hin]%elem_of_cons Hkept; simpl.
  - rewrite Hkept. by left.
  - destruct (kept l0); [right|]; by apply IH.
Qed.

Lemma rectangular_lengths s row1 row2 :
  rectangular s = true → row1 ∈ s → row2 ∈ s → length row1 = length row2.
Proof.
  intros Hrect H1 H2. destruct s as [|l0 s0]; [done|].
  apply rect_rectangular in Hrect as [_ Hall]. rewrite Forall_forall in Hall.
  assert (∀ row, row ∈ l0 :: s0 → Z.of_nat (length row) = Z.of_nat (length l0))
    as Hrow.
  { intros row Hin. apply Hall. unfold shape. apply list_elem_of_fmap. eauto. }
  pose proof (Hrow _ H1). pose proof (Hrow _ H2). lia.
Qed.

(** X11.  What [load_file] can answer.  A text without any level line
    (empty, or comments only) makes it raise [IndexError]; rows of equal
    length make it return a grid of the same shape; and whenever it raises,
    the exception is [IndexError] and the rows were not of equal length (or
    there were none). *)
Theorem load_file_answers (text : list ascii) :
  (rows_of_lines (file_lines [] text) = [] →
     load_file text = Raise IndexError) ∧
  (rectangular (rows_of_lines (file_lines [] text)) = true →
     ∃ s, load_file text = Ok s ∧
          shape s = shape (rows_of_lines (file_lines [] text))) ∧
  (∀ e, load_file text = Raise e →
     e = IndexError ∧ rectangular (rows_of_lines (file_lines [] text)) = false) ∧
  load_file text ≠ OutOfFuel.
Proof.
  unfold load_file. set (rows := rows_of_lines (file_lines [] text)).
  pose proof (update_lasers_post rows) as Hp.
  split; [|split; [|split]].
  - intros ->. reflexivity.
  - intros Hrect. destruct (update_lasers_returns rows Hrect) as (s & Hs & Hw).
    exists s. split; [done | by eapply writes_shape].
  - intros e He. rewrite He in Hp. by destruct e.
  - intros He. by rewrite He in Hp.
Qed.

Lemma load_file_answers_witness :
  load_file ["#"; " "; "G"; newline; "#"] = Raise IndexError ∧
  (∃ s, load_file ["G"; " "; "<"; newline; "F"; " "; " "] = Ok s ∧
        shape s = shape (rows_of_lines
                           (file_lines [] ["G"; " "; "<"; newline; "F"; " "; " "]))) ∧
  (IndexError = IndexError ∧
   rectangular (rows_of_lines (file_lines [] ["G"; " "; " "; newline; ">"]))
     = false).
Proof.
  split; [|split].
  - apply (load_file_answers ["#"; " "; "G"; newline; "#"]). reflexivity.
  - apply (load_file_answers ["G"; " "; "<"; newline; "F"; " "; " "]).
    reflexivity.
  - destruct (load_file_answers ["G"; " "; " "; newline; ">"])
      as (_ & _ & Hraise & _).
    apply Hraise. vm_compute. reflexivity.
Defined.

(** X12.  A blank line is not ignored: it becomes an empty row.  If the
    file also has a level line that is not blank, the rows are of unequal
    length, and a grid that [load_file] returns for it is reported
    [_invalid] by [validate_state]. *)
Theorem blank_line_invalid (text : list ascii) (l : list ascii) (s : grid) :
  [newline] ∈ file_lines [] text →
  l ∈ file_lines [] text → kept l = true → strip_newlines l ≠ [] →
  load_file text = Ok s →
  [] ∈ rows_of_lines (file_lines [] text) ∧
  ∃ log, validate_state s = Ok (_invalid, log).
Proof.
  intros Hblank Hl Hkept Hrow Hload.
  set (rows := rows_of_lines (file_lines [] text)) in *.
  assert ([] ∈ rows) as Hempty.
  { by apply (rows_of_lines_kept _ [newline]). }
  assert (strip_newlines l ∈ rows) as Hfull by by apply rows_of_lines_kept.
  split; [done|].
  pose proof (update_lasers_writes_of_Ok _ _ Hload) as Hw.
  pose proof (writes_shape _ _ _ Hw) as Hshape.
  assert (rectangular rows = false) as Hragged.
  { destruct (rectangular rows) eqn:Hrect; [|done].
    pose proof (rectangular_lengths _ _ _ Hrect Hempty Hfull) as Hlen.
    destruct (strip_newlines l); done. }
  apply validate_state_unequal.
  - intros ->. apply (f_equal length) in Hshape. unfold shape in Hshape.
    rewrite !length_fmap in Hshape. fold rows in Hshape.
    destruct rows; [by apply elem_of_nil in Hempty | done].
  - by rewrite (rectangular_shape rows s).
Qed.

Lemma blank_line_invalid_witness :
  [] ∈ rows_of_lines (file_lines [] ["G"; "F"; newline; newline]) ∧
  ∃ log, validate_state [["G"; "F"]; []] = Ok (_invalid, log).
Proof.
  apply (blank_line_invalid ["G"; "F"; newline; newline] ["G"; "F"; newline]).
  - vm_compute. right. left.
  - vm_compute. left.
  - reflexivity.
  - discriminate.
  - vm_compute. reflexivity.
Defined.

(** X13.  A grid returned by [update_lasers], written to a file with
    [to_str] and loaded from that file, comes back as the same grid on
    either platform, when its rows survive saving (seven-bit characters,
    no newline, no carriage return, no leading [#], last row not
    empty). *)
Theorem saved_level_reloads (os : platform) (s0 s : grid) :
  update_lasers s0 = Ok s → saveable s = true →
  no_carriage_return s = true →
  seven_bit s = true →
  save_and_load os s = Ok s.
Proof.
  intros Hu Hs Hcr _. unfold save_and_load, load_file.
  rewrite (delivered_stored os _ (to_str_no_carriage_return s Hcr)).
  rewrite (rows_of_saved s Hs). by eapply update_lasers_fixed.
Qed.

Lemma saved_level_reloads_witness :
  save_and_load Posix [["Y"; "-"; "<"]; ["F"; " "; "M"]] =
    Ok [["Y"; "-"; "<"]; ["F"; " "; "M"]].
Proof.
  apply (saved_level_reloads Posix [["G"; " "; "<"]; ["F"; " "; "M"]]).
  - vm_compute. reflexivity.
  - reflexivity.
  - reflexivity.
  - reflexivity.
Defined.

(** ** The positions found by [find_pos] *)

Lemma find_in_row_sorted i j0 l x :
  StronglySorted row_major (find_in_row i j0 l x).
Proof.
  revert j0. induction l as [|c l IH]; intros j0; simpl; [constructor|].
  apply StronglySorted_app_2; [|case_match; repeat constructor|apply IH].
  intros p q Hp (n & -> & _)%elem_of_find_in_row.
  destruct (Ascii.eqb c x); [|by apply elem_of_nil in Hp].
  apply list_elem_of_singleton in Hp as ->. right. simpl. lia.
Qed.

Lemma find_from_sorted i0 s x : StronglySorted row_major (find_from i0 s x).
Proof.
  revert i0. induction s as [|l s IH]; intros i0; simpl; [constructor|].
  apply StronglySorted_app_2; [|apply find_in_row_sorted|apply IH].
  intros p q (n & -> & _)%elem_of_find_in_row
    (m & n' & l' & -> & _)%elem_of_find_from.
  left. simpl. lia.
Qed.

Lemma row_major_NoDup (l : list (Z * Z)) :
  StronglySorted row_major l → NoDup l.
Proof.
  induction 1 as [|p l _ IH Hall]; constructor; [|done].
  intros Hin. rewrite Forall_forall in Hall.
  destruct (Hall _ Hin) as [?|[_ ?]]; lia.
Qed.

Lemma find_in_row_length i j0 l x :
  length (find_in_row i j0 l x) = count_char x l.
Proof.
  revert j0. induction l as [|c l IH]; intros j0; simpl; [done|].
  rewrite length_app, IH. by destruct (Ascii.eqb c x).
Qed.

Lemma find_from_length i0 s x : length (find_from i0 s x) = tiles x s.
Proof.
  unfold tiles. revert i0. induction s as [|l s IH]; intros i0; simpl; [done|].
  by rewrite length_app, count_char_app, find_in_row_length, IH.
Qed.

(** X14.  [find_pos] finds exactly the positions that hold the tile: a
    position is in the list if and only if its row and column are not
    negative and [at_pos] answers the tile there.  The list is in
    row-major order, without repetition, and as long as the number of such
    tiles. *)
Theorem find_pos_spec (s : grid) (x : ascii) :
  (∀ i j, (i, j) ∈ find_pos s x ↔ 0 <= i ∧ 0 <= j ∧ at_pos s i j = Ok x) ∧
  StronglySorted row_major (find_pos s x) ∧
  NoDup (find_pos s x) ∧
  length (find_pos s x) = tiles x s.
Proof.
  split; [|split; [|split]].
  - intros i j. rewrite elem_of_find_pos. split; [|by intros (_ & _ & ?)].
    intros Hx. pose proof Hx as (? & ? & _)%at_pos_Ok. done.
  - apply find_from_sorted.
  - apply row_major_NoDup, find_from_sorted.
  - apply find_from_length.
Qed.

(** ** Reading and writing a tile *)

(** X15.  At a row [i] and a column [j] that are not negative,
    [set_at_pos] succeeds exactly where [at_pos] does, that is where
    [i < len(s)] and [j < len(s[i])]; afterwards [at_pos] answers the
    written tile there and what it answered before at every other row and
    column that are not negative, and no row has changed length. *)
Theorem set_then_get (s : grid) (i j : Z) (c : ascii) :
  0 <= i → 0 <= j →
  ((∃ s', set_at_pos s i j c = Ok s') ↔ (∃ x, at_pos s i j = Ok x)) ∧
  ((∃ x, at_pos s i j = Ok x) ↔
     ∃ row, s !! Z.to_nat i = Some row ∧ j < Z.of_nat (length row)) ∧
  (∀ s', set_at_pos s i j c = Ok s' →
     at_pos s' i j = Ok c ∧
     (∀ i' j', 0 <= i' → 0 <= j' → (i, j) ≠ (i', j') →
               at_pos s' i' j' = at_pos s i' j') ∧
     shape s' = shape s).
Proof.
  intros Hi0 Hj0. split; [|split].
  - split.
    + intros [s' [Hx _]%set_at_pos_Ok]. done.
    + intros [x Hx]. by eapply set_at_pos_defined.
  - split.
    + intros [x (Hi & Hj & row & Hrow & Hx)%at_pos_Ok]. exists row.
      pose proof (lookup_lt_Some _ _ _ Hx). split; [done | lia].
    + intros (row & Hrow & Hj).
      destruct (lookup_lt_is_Some_2 row (Z.to_nat j)) as [x Hx]; [lia|].
      exists x. apply at_pos_Ok. repeat split; try lia. eauto.
  - intros s' Hs'. split; [by eapply at_pos_set_eq|]. split.
    + intros i' j' _ _ Hne. by eapply at_pos_set_ne.
    + by eapply set_at_pos_shape.
Qed.

Lemma set_then_get_witness :
  at_pos [["G"; "_"]; ["F"]] 0 1 = Ok "_" ∧
  (∀ i' j', 0 <= i' → 0 <= j' → (0, 1) ≠ (i', j') →
     at_pos [["G"; "_"]; ["F"]] i' j' = at_pos [["G"; "M"]; ["F"]] i' j') ∧
  shape [["G"; "_"]; ["F"]] = shape [["G"; "M"]; ["F"]].
Proof.
  destruct (set_then_get [["G"; "M"]; ["F"]] 0 1 "_") as (_ & _ & Hset);
    [lia | lia |].
  apply Hset. reflexivity.
Defined.

(** ** Behind the ram *)

(** [move] only touches the tile of the ram and tiles further along: a
    tile with more room ahead of it than the ram keeps its content. *)
Lemma move_loop_frame height width dir fuel s row col s' e :
  move_loop fuel height width s row col dir = Ok (s', e) →
  ∀ i j, (room height width row col dir < room height width i j dir)%nat →
         at_pos s' i j = at_pos s i j.
Proof.
  revert s row col. induction fuel as [|fuel IH]; intros s row col; [done|].
  simpl. destruct (next_pos row col dir) as [[row' col']|] eqn:Hn; [|done].
  simpl. destruct (in_bounds height width row' col') eqn:Hb; simpl;
    [|by intros [= -> _]].
  pose proof (room_next _ _ _ _ _ _ _ Hn Hb) as Hroom.
  destruct (at_pos s row' col') as [c| |]; simpl; [|done..].
  assert (∀ i j, (room height width row col dir < room height width i j dir)%nat
            → (row, col) ≠ (i, j) ∧ (row', col') ≠ (i, j)) as Hfar.
  { intros i j Hlt. split; intros [= <- <-]; lia. }
  assert (∀ y s1, set_at_pos s row' col' y = Ok s1 →
    ∀ i j, (room height width row col dir < room height width i j dir)%nat →
           at_pos s1 i j = at_pos s i j) as Hnext.
  { intros y s1 Hs1 i j Hlt. destruct (Hfar i j Hlt) as [_ Hne].
    by rewrite (at_pos_set_ne _ _ _ _ _ _ _ Hs1 Hne). }
  assert (∀ y s1, set_at_pos s row col y = Ok s1 →
    ∀ i j, (room height width row col dir < room height width i j dir)%nat →
           at_pos s1 i j = at_pos s i j) as Hcur.
  { intros y s1 Hs1 i j Hlt. destruct (Hfar i j Hlt) as [Hne _].
    by rewrite (at_pos_set_ne _ _ _ _ _ _ _ Hs1 Hne). }
  assert (∀ y s1 s2, set_at_pos s row' col' "G" = Ok s1 →
    set_at_pos s1 row col y = Ok s2 →
    ∀ i j, (room height width row col dir < room height width i j dir)%nat →
           at_pos s2 i j = at_pos s i j) as Hstep.
  { intros y s1 s2 Hs1 Hs2 i j Hlt. destruct (Hfar i j Hlt) as [Hne Hne'].
    rewrite (at_pos_set_ne _ _ _ _ _ _ _ Hs2 Hne).
    by rewrite (at_pos_set_ne _ _ _ _ _ _ _ Hs1 Hne'). }
  destruct (char_in c " _.").
  { intros H. bind_inv H E1. bind_inv H E2. intros i j Hlt.
    rewrite (IH _ _ _ H) by lia. by eapply Hstep. }
  destruct (char_in c "M").
  { intros H. bind_inv H E1. injection H as <- _. by eapply Hnext. }
  destruct (char_in c "m").
  { intros H. bind_inv H E1. injection H as <- _. by eapply Hnext. }
  destruct (char_in c "v^<>").
  { intros H. bind_inv H E1. injection H as <- _. by eapply Hnext. }
  destruct (char_in c "F").
  { intros H. bind_inv H E1. injection H as <- _. by eapply Hcur. }
  destruct (char_in c "x|-").
  { intros H. bind_inv H E1. injection H as <- _. by eapply Hcur. }
  destruct (char_in c "o").
  { intros H. bind_inv H E1. bind_inv H E2. injection H as <- _.
    by eapply Hstep. }
  destruct (char_in c "W").
  { destruct (next_pos row' col' dir) as [[over_row over_col]|] eqn:Hover;
      [|done].
    simpl. destruct (in_bounds height width over_row over_col) eqn:Hbo; simpl;
      [|by intros [= -> _]].
    pose proof (room_next _ _ _ _ _ _ _ Hover Hbo) as Hroom2.
    destruct (at_pos s over_row over_col) as [nc| |]; simpl; [|done..].
    assert (∀ y,
      (s1 ← set_at_pos s over_row over_col y;
       s2 ← set_at_pos s1 row' col' "G";
       set_at_pos s2 row col ".") ≫= (λ s3, Ok (s3, determine_new_state s3))
      = Ok (s', e) →
      ∀ i j, (room height width row col dir < room height width i j dir)%nat →
             at_pos s' i j = at_pos s i j) as Hpush.
    { intros y H. bind_inv H E. bind_inv E E1. bind_inv E E2.
      injection H as <- _. intros i j Hlt.
      destruct (Hfar i j Hlt) as [Hne Hne'].
      assert ((over_row, over_col) ≠ (i, j)) as Hne2
        by (intros [= <- <-]; lia).
      rewrite (at_pos_set_ne _ _ _ _ _ _ _ E Hne).
      rewrite (at_pos_set_ne _ _ _ _ _ _ _ E2 Hne').
      by rewrite (at_pos_set_ne _ _ _ _ _ _ _ E1 Hne2). }
    destruct (char_in nc " _.x|-+"); [|destruct (char_in nc "o")].
    - apply Hpush.
    - apply Hpush.
    - by intros [= -> _]. }
  destruct (char_in c "w"); [|by intros [= -> _]].
  intros H. bind_inv H E. injection H as <- _. intros i j Hlt.
  rewrite (slide_loop_frame _ _ _ _ _ _ _ _ E) by lia. done.
Qed.

Lemma move_loop_enters height width dir fuel s row col next_row next_col c :
  next_pos row col dir = Some (next_row, next_col) →
  in_bounds height width next_row next_col = true →
  at_pos s next_row next_col = Ok c →
  char_in c " _." = true →
  move_loop (S fuel) height width s row col dir =
    (s1 ← set_at_pos s next_row next_col "G";
     s2 ← set_at_pos s1 row col ".";
     move_loop fuel height width s2 next_row next_col dir).
Proof.
  intros Hn Hb Hc Hfloor. simpl. rewrite Hn. simpl. rewrite Hb, Hc. simpl.
  by rewrite Hfloor.
Qed.

(** The ram walks on: with Floor, Rubble or Trail ahead, the tile where
    the ram started holds Trail when [move] returns. *)
Lemma move_leaves_trail (s : grid) (dir : ascii)
    (row col : Z) (ps : list (Z * Z)) (next_row next_col : Z) (c : ascii)
    (s' : grid) (e : status) :
  rectangular s = true →
  find_pos s "G" = (row, col) :: ps →
  next_pos row col dir = Some (next_row, next_col) →
  at_pos s next_row next_col = Ok c →
  char_in c " _." = true →
  move s dir = Ok (s', e) →
  at_pos s' row col = Ok ".".
Proof.
  intros Hrect Hram Hn Hc Hfloor.
  destruct (bounds_result s) as [[-> _]|(l0 & s0 & Hs & Hbounds)]; [done|].
  set (height := Z.of_nat (length s)) in *.
  set (width := Z.of_nat (length l0)) in *.
  assert (rect s height width) as Hr.
  { subst height width. rewrite Hs. apply rect_rectangular. by rewrite <- Hs. }
  pose proof (at_pos_Ok_in_bounds _ _ _ _ _ _ Hr Hc) as Hb.
  unfold move. rewrite Hbounds. simpl. rewrite Hram.
  pose proof (walk_fuel_pos height width) as Hpos.
  destruct (walk_fuel height width) as [|fuel]; [lia|].
  rewrite (move_loop_enters _ _ _ _ _ _ _ _ _ _ Hn Hb Hc Hfloor).
  intros H. bind_inv H E1. bind_inv H E2.
  rewrite (move_loop_frame _ _ _ _ _ _ _ _ _ H).
  - by eapply at_pos_set_eq.
  - by eapply room_next.
Qed.

Lemma move_first_step height width s dir row col ps :
  bounds s = Ok (height, width) →
  find_pos s "G" = (row, col) :: ps →
  ∃ fuel, move s dir = move_loop (S fuel) height width s row col dir.
Proof.
  intros Hbounds Hram. unfold move. rewrite Hbounds.
  change (Ok (height, width) ≫= ?k) with (k (height, width)).
  cbv beta iota. rewrite Hram.
  pose proof (walk_fuel_pos height width) as Hpos.
  destruct (walk_fuel height width) as [|fuel]; [lia|].
  by exists fuel.
Qed.

Lemma rectangular_bounds s :
  rectangular s = true →
  ∃ height width, bounds s = Ok (height, width) ∧ rect s height width.
Proof.
  intros Hrect.
  destruct (bounds_result s) as [[-> _]|(l0 & s0 & Hs & Hbounds)]; [done|].
  eexists _, _. split; [done|].
  rewrite Hs. apply rect_rectangular. by rewrite <- Hs.
Qed.

(** A wall, a damaged wall or an emitter ahead of the ram: the obstacle is
    damaged, the ram stays, the answer is [_unfinished]. *)
Lemma obstacle_ahead (s : grid) (dir : ascii)
    (row col : Z) (ps : list (Z * Z)) (next_row next_col : Z) (c : ascii) :
  rectangular s = true →
  find_pos s "G" = (row, col) :: ps →
  next_pos row col dir = Some (next_row, next_col) →
  at_pos s next_row next_col = Ok c →
  char_in c "Mmv^<>" = true →
  ∃ s', set_at_pos s next_row next_col (if char_in c "M" then "m" else "_")
          = Ok s' ∧
        move s dir = Ok (s', _unfinished).
Proof.
  intros Hrect Hram Hn Hc Hobstacle.
  destruct (rectangular_bounds s Hrect) as (height & width & Hbounds & Hr).
  destruct (move_first_step _ _ _ dir _ _ _ Hbounds Hram) as [fuel ->].
  destruct (set_at_pos_defined s next_row next_col c
              (if char_in c "M" then "m" else "_") Hc) as [s' Hs'].
  exists s'. split; [done|].
  simpl. rewrite Hn. simpl.
  rewrite (at_pos_Ok_in_bounds _ _ _ _ _ _ Hr Hc), Hc. simpl.
  assert (char_in c " _." = false) as -> by (clear -Hobstacle; char_cases).
  destruct (char_in c "M") eqn:Hwall; [by rewrite Hs'|].
  destruct (char_in c "m") eqn:Hdamaged; [by rewrite Hs'|].
  assert (char_in c "v^<>" = true) as ->
    by (clear -Hobstacle Hwall Hdamaged; char_cases).
  by rewrite Hs'.
Qed.

(** X16.  A wall takes two hits.  With a wall ahead of the ram, a first
    move leaves a damaged wall and a second one rubble, the ram staying on
    its tile with [_unfinished] both times; a third move in the same
    direction returns and the ram has left its tile, which holds Trail. *)
Theorem wall_takes_two_hits (s : grid) (dir : ascii)
    (row col : Z) (ps : list (Z * Z)) (next_row next_col : Z) :
  rectangular s = true →
  find_pos s "G" = (row, col) :: ps →
  next_pos row col dir = Some (next_row, next_col) →
  at_pos s next_row next_col = Ok "M" →
  ∃ s1 s2 s3 e,
    move s dir = Ok (s1, _unfinished) ∧
    set_at_pos s next_row next_col "m" = Ok s1 ∧
    move s1 dir = Ok (s2, _unfinished) ∧
    set_at_pos s1 next_row next_col "_" = Ok s2 ∧
    find_pos s2 "G" = find_pos s "G" ∧
    move s2 dir = Ok (s3, e) ∧
    at_pos s3 row col = Ok ".".
Proof.
  intros Hrect Hram Hn Hwall.
  assert (char_in dir "hjkl" = true) as Hdir.
  { destruct (char_in dir "hjkl") eqn:Hd; [done|].
    apply (next_pos_None row col) in Hd. congruence. }
  destruct (obstacle_ahead s dir _ _ _ _ _ "M" Hrect Hram Hn Hwall eq_refl)
    as (s1 & Hs1 & Hm1).
  change (if char_in "M" "M" then "m" else "_") with "m" in Hs1.
  assert (rectangular s1 = true) as Hrect1.
  { rewrite (rectangular_shape s s1); [done|]. by eapply set_at_pos_shape. }
  assert (find_pos s1 "G" = (row, col) :: ps) as Hram1.
  { rewrite <- Hram. by eapply find_pos_set. }
  pose proof (at_pos_set_eq _ _ _ _ _ Hs1) as Hdamaged.
  destruct (obstacle_ahead s1 dir _ _ _ _ _ "m" Hrect1 Hram1 Hn Hdamaged eq_refl)
    as (s2 & Hs2 & Hm2).
  change (if char_in "m" "M" then "m" else "_") with "_" in Hs2.
  assert (rectangular s2 = true) as Hrect2.
  { rewrite (rectangular_shape s1 s2); [done|]. by eapply set_at_pos_shape. }
  assert (find_pos s2 "G" = (row, col) :: ps) as Hram2.
  { rewrite <- Hram1. by eapply find_pos_set. }
  pose proof (at_pos_set_eq _ _ _ _ _ Hs2) as Hrubble.
  destruct (move_returns s2 dir Hrect2 Hdir) as (s3 & e & Hm3 & _).
  exists s1, s2, s3, e. repeat split; try done; [congruence|].
  by eapply (move_leaves_trail s2 dir row col ps next_row next_col "_").
Qed.

Lemma wall_takes_two_hits_witness :
  ∃ s1 s2 s3 e,
    move [["G"; "M"; " "; "F"]] "l" = Ok (s1, _unfinished) ∧
    set_at_pos [["G"; "M"; " "; "F"]] 0 1 "m" = Ok s1 ∧
    move s1 "l" = Ok (s2, _unfinished) ∧
    set_at_pos s1 0 1 "_" = Ok s2 ∧
    find_pos s2 "G" = find_pos [["G"; "M"; " "; "F"]] "G" ∧
    move s2 "l" = Ok (s3, e) ∧
    at_pos s3 0 0 = Ok ".".
Proof.
  apply (wall_takes_two_hits [["G"; "M"; " "; "F"]] "l" 0 0 [] 0 1);
    reflexivity.
Defined.

(** X17.  Walking on.  With Floor, Rubble or Trail ahead of the ram, [move]
    returns and leaves Trail on the tile where the ram started.  With a
    Hole ahead the ram goes one tile only: it ends on the tile of the hole,
    which is gone, Trail behind it, no other tile changed, and the answer
    is [_unfinished]. *)
Theorem ram_walks_on (s : grid) (dir : ascii)
    (row col : Z) (ps : list (Z * Z)) (next_row next_col : Z) (c : ascii) :
  rectangular s = true →
  find_pos s "G" = (row, col) :: ps →
  next_pos row col dir = Some (next_row, next_col) →
  at_pos s next_row next_col = Ok c →
  (char_in c " _." = true →
     ∃ s' e, move s dir = Ok (s', e) ∧ at_pos s' row col = Ok ".") ∧
  (c = "o" →
     ∃ s', move s dir = Ok (s', _unfinished) ∧
           at_pos s' row col = Ok "." ∧
           at_pos s' next_row next_col = Ok "G" ∧
           ∀ i j, 0 <= i → 0 <= j →
                  (i, j) ≠ (row, col) → (i, j) ≠ (next_row, next_col) →
                  at_pos s' i j = at_pos s i j).
Proof.
  intros Hrect Hram Hn Hc.
  assert (char_in dir "hjkl" = true) as Hdir.
  { destruct (char_in dir "hjkl") eqn:Hd; [done|].
    apply (next_pos_None row col) in Hd. congruence. }
  split.
  - intros Hfloor.
    destruct (move_returns s dir Hrect Hdir) as (s' & e & Hm & _).
    exists s', e. split; [done|].
    by eapply (move_leaves_trail s dir row col ps next_row next_col c).
  - intros ->.
    destruct (rectangular_bounds s Hrect) as (height & width & Hbounds & Hr).
    destruct (move_first_step _ _ _ dir _ _ _ Hbounds Hram) as [fuel ->].
    pose proof (next_pos_ne _ _ _ _ _ Hn) as Hne.
    assert ((next_row, next_col) ≠ (row, col)) as Hne' by congruence.
    assert (at_pos s row col = Ok "G") as Hg.
    { apply elem_of_find_pos. rewrite Hram. by left. }
    destruct (set_at_pos_defined s next_row next_col "o" "G" Hc) as [s1 Hs1].
    rewrite <- (at_pos_set_ne _ _ _ _ _ _ _ Hs1 Hne') in Hg.
    destruct (set_at_pos_defined s1 row col "G" "." Hg) as [s2 Hs2].
    exists s2. split; [|split; [|split]].
    + simpl. rewrite Hn. simpl.
      rewrite (at_pos_Ok_in_bounds _ _ _ _ _ _ Hr Hc), Hc. simpl.
      rewrite Hs1. simpl. by rewrite Hs2.
    + by eapply at_pos_set_eq.
    + rewrite (at_pos_set_ne _ _ _ _ _ _ _ Hs2 Hne). by eapply at_pos_set_eq.
    + intros i j _ _ H1 H2.
      rewrite (at_pos_set_ne _ _ _ _ _ _ _ Hs2) by congruence.
      by rewrite (at_pos_set_ne _ _ _ _ _ _ _ Hs1) by congruence.
Qed.

Lemma ram_walks_on_witness :
  (∃ s' e, move [["G"; "_"; " "; "o"; " "; "F"]] "l" = Ok (s', e) ∧
           at_pos s' 0 0 = Ok ".") ∧
  (∃ s', move [["G"; "o"; " "; "F"]] "l" = Ok (s', _unfinished) ∧
         at_pos s' 0 0 = Ok "." ∧
         at_pos s' 0 1 = Ok "G" ∧
         ∀ i j, 0 <= i → 0 <= j → (i, j) ≠ (0, 0) → (i, j) ≠ (0, 1) →
                at_pos s' i j = at_pos [["G"; "o"; " "; "F"]] i j).
Proof.
  split.
  - apply (ram_walks_on [["G"; "_"; " "; "o"; " "; "F"]] "l" 0 0 [] 0 1 "_");
      reflexivity.
  - apply (ram_walks_on [["G"; "o"; " "; "F"]] "l" 0 0 [] 0 1 "o");
      reflexivity.
Defined.

(** ** The interactive loop *)

Lemma forallb_Forall {A : Type} (f : A → bool) (l : list A) :
  forallb f l = true ↔ Forall (fun a => f a = true) l.
Proof.
  induction l as [|a l IH]; simpl.
  - split; [constructor | done].
  - rewrite andb_true_iff, Forall_cons, IH. done.
Qed.

Lemma consistent_spec st :
  consistent st = true ↔
  (ses_s st < fresh st)%nat ∧
  Forall (fun a => (a < fresh st)%nat) (state_history st) ∧
  length (state_history st) = S (length (command_history st)) ∧
  (∃ a, last (state_history st) = Some a ∧
        objects st a = objects st (ses_s st)) ∧
  rectangular (objects st (ses_s st)) = true ∧
  Forall (fun a => rectangular (objects st a) = true) (state_history st).
Proof.
  unfold consistent.
  rewrite !andb_true_iff, !forallb_Forall, bool_decide_eq_true, Nat.eqb_eq.
  assert (Forall (fun a => bool_decide (a < fresh st)%nat = true)
            (state_history st) ↔
          Forall (fun a => (a < fresh st)%nat) (state_history st)) as ->.
  { apply Forall_proper; [|done]. intros a. apply bool_decide_eq_true. }
  destruct (last (state_history st)) as [a|].
  - rewrite bool_decide_eq_true. split.
    + intros (((((? & ?) & ?) & ?) & ?) & ?). eauto 10.
    + intros (? & ? & ? & (b & [= <-] & ?) & ? & ?). done.
  - split.
    + intros (((((? & ?) & ?) & ?) & ?) & ?). done.
    + intros (? & ? & ? & (b & ? & ?) & ? & ?). done.
Qed.

Lemma shown_Ok st :
  rectangular (objects st (ses_s st)) = true → shown st = Ok (Continue st).
Proof.
  unfold shown. by destruct (objects st (ses_s st)).
Qed.

Lemma move_then_lasers g d :
  rectangular g = true → char_in d "hjkl" = true →
  ∃ g1 e g2, move g d = Ok (g1, e) ∧ update_lasers g1 = Ok g2 ∧
             rectangular g2 = true.
Proof.
  intros Hrect Hd.
  destruct (move_returns g d Hrect Hd) as (g1 & e & Hm & Hw1).
  assert (rectangular g1 = true) as Hrect1.
  { rewrite (rectangular_shape g g1); [done | by eapply writes_shape]. }
  destruct (update_lasers_returns g1 Hrect1) as (g2 & Hu & Hw2).
  exists g1, e, g2. split; [done|]. split; [done|].
  rewrite (rectangular_shape g1 g2); [done | by eapply writes_shape].
Qed.

Lemma del_last_snoc {A : Type} (l : list A) (a : A) :
  del_last (l ++ [a]) = Ok l.
Proof.
  unfold del_last. rewrite removelast_last. by destruct l.
Qed.

Lemma last_of_Some {A : Type} (l : list A) (a : A) :
  last l = Some a → last_of l = Ok a.
Proof. unfold last_of. by intros ->. Qed.

(** A direction: the object of [s] is changed in place and a copy of it
    ends the history. *)
Lemma command_direction level st d :
  consistent st = true → char_in d "hjkl" = true →
  ∃ g1 e g2,
    move (objects st (ses_s st)) d = Ok (g1, e) ∧
    update_lasers g1 = Ok g2 ∧
    rectangular g2 = true ∧
    command level st d =
      Ok (Continue
            {| objects := <[fresh st := g2]> (<[ses_s st := g2]> (objects st));
               fresh := S (fresh st);
               ses_s := ses_s st;
               state_history := state_history st ++ [fresh st];
               command_history := command_history st ++ [d];
               ses_e_code := e |}).
Proof.
  intros (Hs & _ & _ & _ & Hrect & _)%consistent_spec Hd.
  destruct (move_then_lasers _ d Hrect Hd) as (g1 & e & g2 & Hm & Hu & Hrect2).
  exists g1, e, g2. do 3 (split; [done|]).
  unfold command. rewrite Hd, Hm. simpl. rewrite Hu. simpl.
  apply shown_Ok. simpl.
  rewrite fn_lookup_insert_ne by lia. by rewrite fn_lookup_insert.
Qed.

(** An undo with a command to take back: the last grid of the history is
    dropped and [s] becomes the grid before it. *)
Lemma command_undo level st history a b cmds c :
  state_history st = history ++ [a] →
  last history = Some b →
  command_history st = cmds ++ [c] →
  rectangular (objects st b) = true →
  command level st "u" =
    Ok (Continue
          {| objects := objects st;
             fresh := fresh st;
             ses_s := b;
             state_history := history;
             command_history := cmds;
             ses_e_code := ses_e_code st |}).
Proof.
  intros Hh Hb Hc Hrect. unfold command.
  change (char_in "u" "hjkl") with false.
  change (Ascii.eqb "u" "q") with false.
  change (char_in "u" "rU") with false.
  change (Ascii.eqb "u" "u") with true. cbv iota.
  rewrite Hc, Hh, del_last_snoc, removelast_last.
  destruct (cmds ++ [c]) eqn:Hne; [by destruct cmds|].
  simpl. rewrite (last_of_Some _ _ Hb). simpl.
  by apply shown_Ok.
Qed.

Lemma command_consistent level g0 st d :
  load_file level = Ok g0 → rectangular g0 = true →
  consistent st = true →
  ∃ o, command level st d = Ok o ∧
       ∀ st', o = Continue st' → consistent st' = true.
Proof.
  intros Hload Hrect0 Hst.
  pose proof Hst as (Hs & Hin & Hlen & (a & Hlast & Ha) & Hrect & Hall)%consistent_spec.
  destruct (char_in d "hjkl") eqn:Hd.
  { destruct (command_direction level st d Hst Hd)
      as (g1 & e & g2 & _ & _ & Hrect2 & ->).
    eexists. split; [done|]. intros st' [= <-].
    apply consistent_spec. simpl.
    assert (∀ b, (b < fresh st)%nat →
              (<[fresh st := g2]> (<[ses_s st := g2]> (objects st))) b =
              if decide (ses_s st = b) then g2 else objects st b) as Hobj.
    { intros b Hb. rewrite fn_lookup_insert_ne by lia.
      destruct (decide (ses_s st = b)) as [<-|].
      - by rewrite fn_lookup_insert.
      - by rewrite fn_lookup_insert_ne. }
    split; [lia|]. split.
    { apply Forall_app. split; [|by repeat constructor].
      eapply Forall_impl; [exact Hin|]. simpl. lia. }
    split; [rewrite !length_app; simpl; lia|]. split.
    { exists (fresh st). split; [apply last_snoc|].
      rewrite fn_lookup_insert, Hobj by done. by rewrite decide_True. }
    split; [rewrite Hobj by done; by rewrite decide_True|].
    apply Forall_app. split.
    - rewrite Forall_forall in Hin, Hall. apply Forall_forall. intros b Hb.
      rewrite Hobj by auto. destruct (decide (ses_s st = b)); auto.
    - repeat constructor. by rewrite fn_lookup_insert. }
  unfold command. rewrite Hd.
  destruct (Ascii.eqb d "q") eqn:Hq.
  { eexists. split; [done|]. discriminate. }
  destruct (char_in d "rU") eqn:Hr.
  { rewrite Hload. simpl.
    rewrite shown_Ok; simpl.
    2:{ rewrite fn_lookup_insert_ne by lia. by rewrite fn_lookup_insert. }
    eexists. split; [done|]. intros st' [= <-].
    apply consistent_spec. simpl.
    assert ((<[S (fresh st) := g0]> (<[fresh st := g0]> (objects st)))
              (fresh st) = g0) as Hs0.
    { rewrite fn_lookup_insert_ne by lia. by rewrite fn_lookup_insert. }
    rewrite Hs0.
    split; [lia|]. split; [repeat constructor; lia|].
    split; [done|]. split.
    { exists (S (fresh st)). by rewrite fn_lookup_insert. }
    split; [done|]. repeat constructor. by rewrite fn_lookup_insert. }
  destruct (Ascii.eqb d "u") eqn:Hu.
  2:{ rewrite (shown_Ok st Hrect). eexists. split; [done|]. by intros st' [= <-]. }
  apply Ascii.eqb_eq in Hu as ->.
  destruct (command_history st) as [|c0 cmds0] eqn:Hcmds.
  { rewrite (shown_Ok st Hrect). eexists. split; [done|]. by intros st' [= <-]. }
  apply last_Some in Hlast as [history Hh].
  destruct (exists_last (l := c0 :: cmds0)) as (cmds & c & Hc); [done|].
  assert (length history = S (length cmds)) as Hlen'.
  { rewrite Hh, Hc, !length_app in Hlen. simpl in Hlen. lia. }
  destruct (last history) as [b|] eqn:Hb.
  2:{ apply last_None in Hb. subst history. done. }
  rewrite Hh in Hin, Hall.
  apply Forall_app in Hin as [Hin _]. apply Forall_app in Hall as [Hall _].
  assert (b ∈ history) as Hbin.
  { apply last_Some in Hb as [? ->]. apply elem_of_app. right. by left. }
  assert (rectangular (objects st b) = true) as Hrectb.
  { rewrite Forall_forall in Hall. auto. }
  pose proof (command_undo level st history a b cmds c Hh Hb) as Hundo.
  rewrite Hcmds, Hc in Hundo. specialize (Hundo eq_refl Hrectb).
  unfold command in Hundo.
  change (char_in "u" "hjkl") with false in Hundo.
  change (Ascii.eqb "u" "q") with false in Hundo.
  change (char_in "u" "rU") with false in Hundo.
  change (Ascii.eqb "u" "u") with true in Hundo. cbv iota in Hundo.
  rewrite Hcmds in Hundo. rewrite Hundo.
  eexists. split; [done|]. intros st' [= <-].
  apply consistent_spec. simpl.
  split; [rewrite Forall_forall in Hin; auto|].
  split; [done|]. split; [done|]. split; [by exists b|]. done.
Qed.

Lemma commands_consistent level g0 dirs st :
  load_file level = Ok g0 → rectangular g0 = true →
  consistent st = true →
  ∃ o, commands level st dirs = Ok o ∧
       ∀ st', o = Continue st' → consistent st' = true.
Proof.
  intros Hload Hrect0. revert st.
  induction dirs as [|d dirs IH]; intros st Hst; simpl.
  - eexists. split; [done|]. by intros st' [= <-].
  - destruct (command_consistent level g0 st d Hload Hrect0 Hst)
      as ([st1|g e] & -> & Hst1); simpl.
    + apply IH. by apply Hst1.
    + eexists. split; [done|]. discriminate.
Qed.

Lemma start_consistent s e_code :
  rectangular s = true → consistent (start s e_code) = true.
Proof.
  intros Hrect. apply consistent_spec. unfold start. simpl.
  change ((<[1%nat := s]> (<[0%nat := s]> (fun _ => []))) 0%nat) with s.
  change ((<[1%nat := s]> (<[0%nat := s]> (fun _ => []))) 1%nat) with s.
  split; [lia|]. split; [repeat constructor; lia|].
  split; [done|]. split; [by exists 1%nat|].
  split; [done|]. by repeat constructor.
Qed.

(** X18.  The interactive loop does not fail.  For a level file that
    loads to a grid which [validate_state] answers [_unfinished] for, and
    that stays as it is while the program runs, whatever is typed is
    processed without an exception: no move, beam update, undo, reload or
    print raises.  As long as the program has not exited, the history
    holds one grid more than there are commands, and its last grid has
    the tiles of [s]. *)
Theorem interactive_never_raises (level : list ascii) (s : grid)
    (log : list message) (dirs : list ascii) :
  load_file level = Ok s →
  validate_state s = Ok (_unfinished, log) →
  ∃ o, commands level (start s _unfinished) dirs = Ok o ∧
       ∀ st, o = Continue st →
         length (state_history st) = S (length (command_history st)) ∧
         ∃ a, last (state_history st) = Some a ∧
              objects st a = objects st (ses_s st).
Proof.
  intros Hload Hvalid.
  destruct (validate_state_not_invalid s _ _ Hvalid) as (Hrect & _); [done|].
  destruct (commands_consistent level s dirs (start s _unfinished) Hload Hrect)
    as (o & Ho & Hst); [by apply start_consistent|].
  exists o. split; [done|]. intros st ->.
  specialize (Hst st eq_refl).
  apply consistent_spec in Hst as (_ & _ & Hlen & Hlast & _). done.
Qed.

Lemma interactive_never_raises_witness :
  ∃ o, commands ["G"; " "; " "; "M"; "F"]
         (start [["G"; " "; " "; "M"; "F"]] _unfinished)
         ["l"; "u"; "u"; "?"; "l"; "l"; "r"; "k"; "u"] = Ok o ∧
       ∀ st, o = Continue st →
         length (state_history st) = S (length (command_history st)) ∧
         ∃ a, last (state_history st) = Some a ∧
              objects st a = objects st (ses_s st).
Proof.
  apply (interactive_never_raises ["G"; " "; " "; "M"; "F"]
           [["G"; " "; " "; "M"; "F"]] []); reflexivity.
Defined.

(** X19.  Undo takes back a move.  In a session where [s] is an object of
    its own, not one of the history (as at the start, after a reload and
    after every move that follows them), a direction followed by [u]
    brings back the tiles of [s], the history with the tiles of its grids
    and the command history.  The exit code is not brought back: it stays
    the one the move answered.  From then on [s] is the last object of the
    history itself. *)
Theorem undo_takes_back_a_move (level : list ascii) (st : session)
    (d : ascii) :
  consistent st = true →
  ses_s st ∉ state_history st →
  char_in d "hjkl" = true →
  ∃ st',
    commands level st [d; "u"] = Ok (Continue st') ∧
    objects st' (ses_s st') = objects st (ses_s st) ∧
    state_history st' = state_history st ∧
    (∀ a, a ∈ state_history st → objects st' a = objects st a) ∧
    command_history st' = command_history st ∧
    last (state_history st') = Some (ses_s st') ∧
    ∃ g, move (objects st (ses_s st)) d = Ok (g, ses_e_code st').
Proof.
  intros Hst Hown Hd.
  pose proof Hst as (Hs & Hin & _ & (a & Hlast & Ha) & _ & Hall)%consistent_spec.
  destruct (command_direction level st d Hst Hd)
    as (g1 & e & g2 & Hm & _ & _ & Hc).
  assert (∀ b, b ∈ state_history st →
            (<[fresh st := g2]> (<[ses_s st := g2]> (objects st))) b =
            objects st b) as Hobj.
  { intros b Hb. rewrite Forall_forall in Hin. pose proof (Hin b Hb).
    rewrite fn_lookup_insert_ne by lia.
    rewrite fn_lookup_insert_ne; [done|]. by intros <-. }
  assert (a ∈ state_history st) as Hain.
  { apply last_Some in Hlast as [? ->]. apply elem_of_app. right. by left. }
  eexists. split.
  { simpl. rewrite Hc. simpl.
    erewrite (command_undo level _ (state_history st) (fresh st) a
                (command_history st) d); simpl; try done.
    rewrite Hobj by done. rewrite Forall_forall in Hall. auto. }
  simpl. split; [by rewrite Hobj, Ha|].
  split; [done|]. split; [done|]. split; [done|]. split; [done|]. eauto.
Qed.

Lemma undo_takes_back_a_move_witness :
  ∃ st',
    commands [] (start [["G"; " "; " "; "M"; "F"]] _unfinished) ["l"; "u"]
      = Ok (Continue st') ∧
    objects st' (ses_s st') = [["G"; " "; " "; "M"; "F"]] ∧
    state_history st' = [1%nat] ∧
    (∀ a, a ∈ [1%nat] →
          objects st' a =
          objects (start [["G"; " "; " "; "M"; "F"]] _unfinished) a) ∧
    command_history st' = [] ∧
    last (state_history st') = Some (ses_s st') ∧
    ∃ g, move [["G"; " "; " "; "M"; "F"]] "l" = Ok (g, ses_e_code st').
Proof.
  apply (undo_takes_back_a_move []
           (start [["G"; " "; " "; "M"; "F"]] _unfinished) "l").
  - reflexivity.
  - simpl. by intros [=]%list_elem_of_singleton.
  - reflexivity.
Defined.

(** X20.  Undo after an undo.  In a session where [s] is the last object
    of the history itself (as after every undo that took a command back),
    a direction changes that object too, so that the [u] which follows
    only drops the copy appended by the move: [s] keeps the tiles that the
    move and the beam update have produced, while the command history is
    the one from before the move. *)
Theorem undo_after_undo_keeps_the_move (level : list ascii) (st : session)
    (d : ascii) :
  consistent st = true →
  last (state_history st) = Some (ses_s st) →
  char_in d "hjkl" = true →
  ∃ g1 e g2 st',
    move (objects st (ses_s st)) d = Ok (g1, e) ∧
    update_lasers g1 = Ok g2 ∧
    commands level st [d; "u"] = Ok (Continue st') ∧
    ses_s st' = ses_s st ∧
    objects st' (ses_s st') = g2 ∧
    state_history st' = state_history st ∧
    command_history st' = command_history st.
Proof.
  intros Hst Hlast Hd.
  pose proof Hst as (Hs & _)%consistent_spec.
  destruct (command_direction level st d Hst Hd)
    as (g1 & e & g2 & Hm & Hu & Hrect2 & Hc).
  assert ((<[fresh st := g2]> (<[ses_s st := g2]> (objects st))) (ses_s st)
          = g2) as Hobj.
  { rewrite fn_lookup_insert_ne by lia. by rewrite fn_lookup_insert. }
  exists g1, e, g2. eexists. split; [done|]. split; [done|]. split.
  { simpl. rewrite Hc. simpl.
    erewrite (command_undo level _ (state_history st) (fresh st) (ses_s st)
                (command_history st) d); simpl; try done.
    by rewrite Hobj. }
  simpl. done.
Qed.

Lemma undo_after_undo_keeps_the_move_witness :
  ∃ g1 e g2 st',
    move [["G"; " "; " "; "M"; "F"]] "l" = Ok (g1, e) ∧
    update_lasers g1 = Ok g2 ∧
    commands []
      {| objects := fun _ => [["G"; " "; " "; "M"; "F"]];
         fresh := 2;
         ses_s := 1;
         state_history := [1%nat];
         command_history := [];
         ses_e_code := _unfinished |}
      ["l"; "u"] = Ok (Continue st') ∧
    ses_s st' = 1%nat ∧
    objects st' (ses_s st') = g2 ∧
    state_history st' = [1%nat] ∧
    command_history st' = [].
Proof.
  apply (undo_after_undo_keeps_the_move []
           {| objects := fun _ => [["G"; " "; " "; "M"; "F"]];
              fresh := 2;
              ses_s := 1;
              state_history := [1%nat];
              command_history := [];
              ses_e_code := _unfinished |} "l"); reflexivity.
Defined.
